(** * A segregated free-list allocator (mm.c): shallow embedding and verification

    The allocator of [src/unnamed/part_000] (mm.c) is embedded as Rocq
    functions over an explicit machine state: a byte-addressed memory, the
    break of the raw heap service, and the two globals [heap_listp] and
    [seg_list_start].  Sizes are [size_t] values (64 bits, wrap-around
    written out), header words are [unsigned int] (32 bits, little endian),
    addresses are integers. *)

From Stdlib Require Import ZArith List Bool Lia.
Import ListNotations.
Local Open Scope Z_scope.

(* ================================================================== *)
(** * Machine integers and memory *)

Definition wrap64 (x : Z) : Z := x mod 2 ^ 64.
Definition wrap32 (x : Z) : Z := x mod 2 ^ 32.

(** Memory: one cell per byte address. *)
Definition memory := Z -> Z.

Definition load8 (m : memory) (a : Z) : Z := m a mod 256.

Definition store8 (m : memory) (a v : Z) : memory :=
  fun x => if x =? a then v mod 256 else m x.

(** [GET] and [PUT]: a 32-bit little-endian word at address [p]. *)
Definition GET (m : memory) (p : Z) : Z :=
  load8 m p + 2 ^ 8 * load8 m (p + 1) + 2 ^ 16 * load8 m (p + 2)
  + 2 ^ 24 * load8 m (p + 3).

Definition PUT (m : memory) (p val : Z) : memory :=
  store8 (store8 (store8 (store8 m p val) (p + 1) (val / 2 ^ 8))
                 (p + 2) (val / 2 ^ 16)) (p + 3) (val / 2 ^ 24).

(** An [unsigned long] (64 bits) at address [p], as the directory slots are
    read and written. *)
Definition GET64 (m : memory) (p : Z) : Z := GET m p + 2 ^ 32 * GET m (p + 4).

Definition PUT64 (m : memory) (p val : Z) : memory :=
  PUT (PUT m p val) (p + 4) (val / 2 ^ 32).

(** [memset] and [memcpy] of the C library, on the byte memory. *)
Definition memset_mem (m : memory) (dst c n : Z) : memory :=
  fun x => if (dst <=? x) && (x <? dst + n) then c mod 256 else m x.

Definition memcpy_mem (m : memory) (dst src n : Z) : memory :=
  fun x => if (dst <=? x) && (x <? dst + n) then load8 m (src + (x - dst))
           else m x.

(* ================================================================== *)
(** * Constants and macros of mm.c *)

Definition NULL : Z := 0.
Definition ALIGNMENT : Z := 8.
Definition WSIZE : Z := 4.
Definition DSIZE : Z := 8.
Definition CHUNKSIZE : Z := 464.
Definition BASEADDR : Z := 0x800000000.

Definition SEG_SIZE1 : Z := 16.
Definition SEG_SIZE2 : Z := 32.
Definition SEG_SIZE3 : Z := 64.
Definition SEG_SIZE4 : Z := 128.
Definition SEG_SIZE5 : Z := 256.
Definition SEG_SIZE6 : Z := 480.
Definition SEG_SIZE7 : Z := 960.
Definition SEG_SIZE8 : Z := 1920.
Definition SEG_SIZE9 : Z := 3840.
Definition SEG_SIZE10 : Z := 7680.
Definition SEG_SIZE11 : Z := 15360.
Definition SEG_SIZE12 : Z := 30720.
Definition SEG_SIZE13 : Z := 61440.
Definition SEG_NUM : Z := 14.
Definition INT_MAX : Z := Z.shiftl 1 30 - 1.

Definition MAX (x y : Z) : Z := if x >? y then x else y.
Definition PACK (size alloc : Z) : Z := Z.lor size alloc.
Definition ALIGN (p : Z) : Z := Z.land (wrap64 (p + (ALIGNMENT - 1))) (wrap64 (Z.lnot 7)).

Definition GET_PREV (m : memory) (p : Z) : Z := GET m p.
Definition SET_PREV (m : memory) (p val : Z) : memory := PUT m p val.
Definition GET_NEXT (m : memory) (p : Z) : Z := GET m (p + WSIZE).
Definition SET_NEXT (m : memory) (p val : Z) : memory := PUT m (p + WSIZE) val.

Definition OFFSET_REAL (o : Z) : Z := o + BASEADDR.
Definition REAL_OFFSET (r : Z) : Z := wrap32 (wrap64 (r - BASEADDR)).

Definition GET_SIZE (m : memory) (p : Z) : Z := Z.land (GET m p) (Z.lnot 7).
Definition GET_ALLOC (m : memory) (p : Z) : Z := Z.land (GET m p) 1.

Definition HDRP (bp : Z) : Z := bp - WSIZE.
Definition FTRP (m : memory) (bp : Z) : Z := bp + GET_SIZE m (HDRP bp) - DSIZE.
Definition NEXT_BLKP (m : memory) (bp : Z) : Z := bp + GET_SIZE m (bp - WSIZE).
Definition PREV_BLKP (m : memory) (bp : Z) : Z := bp - GET_SIZE m (bp - DSIZE).
Definition GET_PREV_ALLOC (m : memory) (p : Z) : Z := Z.land (GET m (HDRP p)) 2.

(* ================================================================== *)
(** * The program state *)

(** The globals of mm.c together with the raw heap of memlib. *)
Record state := mkState {
  mem : memory;           (* the bytes *)
  mem_start_brk : Z;      (* memlib: address of the first heap byte *)
  mem_brk : Z;            (* memlib: address one past the last heap byte *)
  mem_max_addr : Z;       (* memlib: the heap may not grow beyond this *)
  heap_listp : Z;         (* mm.c: pointer to first block *)
  seg_list_start : Z      (* mm.c: pointer to top of free lists *)
}.

Definition set_mem (st : state) (m : memory) : state :=
  mkState m (mem_start_brk st) (mem_brk st) (mem_max_addr st)
          (heap_listp st) (seg_list_start st).

Definition set_heap_listp (st : state) (p : Z) : state :=
  mkState (mem st) (mem_start_brk st) (mem_brk st) (mem_max_addr st)
          p (seg_list_start st).

Definition set_seg_list_start (st : state) (p : Z) : state :=
  mkState (mem st) (mem_start_brk st) (mem_brk st) (mem_max_addr st)
          (heap_listp st) p.

(** Modelled from the spec: the raw heap service (memlib.c: [mem_sbrk],
    [mem_heap_lo], [mem_heap_hi]) is not under src/.  [mem_sbrk n] extends the
    heap high end by exactly [n] bytes and returns the previous high end, or
    reports an error (here [None], the C value [(void * )-1]) and changes
    nothing; the bounds reported are inclusive. *)
Definition mem_sbrk (st : state) (incr : Z) : option (Z * state) :=
  if (incr <? 0) || (mem_max_addr st <? mem_brk st + incr) then None
  else Some (mem_brk st,
             mkState (mem st) (mem_start_brk st) (mem_brk st + incr)
                     (mem_max_addr st) (heap_listp st) (seg_list_start st)).

Definition mem_heap_lo (st : state) : Z := mem_start_brk st.
Definition mem_heap_hi (st : state) : Z := mem_brk st - 1.

(** The value of the failed [mem_sbrk], [(void * )-1], as an address. *)
Definition SBRK_FAILED : Z := 2 ^ 64 - 1.

(** Results of the entry points that loop over the heap or call the C
    library: a normal return, a memory fault (an access outside the heap by
    [memset] or [memcpy]), or a loop that did not end within the fuel. *)
Inductive outcome (A : Type) : Type :=
| Ret (a : A)
| Fault
| OutOfFuel.
Arguments Ret {A} a.
Arguments Fault {A}.
Arguments OutOfFuel {A}.

(** The bytes [a, a+n) all lie in the heap (an empty range always does). *)
Definition range_in_heap (st : state) (a n : Z) : bool :=
  (n =? 0) || ((mem_heap_lo st <=? a) && (a + n - 1 <=? mem_heap_hi st)).

(* ================================================================== *)
(** * Helper routines that manipulate the free lists *)

Definition seg_index (size : Z) : Z :=
  if size <? SEG_SIZE1 then 0
  else if size <? SEG_SIZE2 then 1
  else if size <? SEG_SIZE3 then 2
  else if size <? SEG_SIZE4 then 3
  else if size <? SEG_SIZE5 then 4
  else if size <? SEG_SIZE6 then 5
  else if size <? SEG_SIZE7 then 6
  else if size <? SEG_SIZE8 then 7
  else if size <? SEG_SIZE9 then 8
  else if size <? SEG_SIZE10 then 9
  else if size <? SEG_SIZE11 then 10
  else if size <? SEG_SIZE12 then 11
  else if size <? SEG_SIZE13 then 12
  else 13.

Definition get_seg_listp (st : state) (size : Z) : Z :=
  seg_list_start st + seg_index size * DSIZE.

Definition add_free_block (st : state) (ptr : Z) : state :=
  let m := mem st in
  let free_listp := get_seg_listp st (GET_SIZE m (HDRP ptr)) in
  let first_free := GET64 m free_listp in
  if first_free =? 0 then
    let m := PUT64 m free_listp ptr in
    let m := SET_PREV m ptr 0 in
    let m := SET_NEXT m ptr 0 in
    set_mem st m
  else
    let m := SET_PREV m ptr 0 in
    let m := SET_NEXT m ptr (wrap64 (first_free - BASEADDR)) in
    let m := PUT64 m free_listp ptr in
    let m := SET_PREV m first_free (wrap64 (ptr - BASEADDR)) in
    set_mem st m.

Definition remove_free_block (st : state) (ptr : Z) : state :=
  let m := mem st in
  let free_listp := get_seg_listp st (GET_SIZE m (HDRP ptr)) in
  let prev := GET_PREV m ptr in
  let next := GET_NEXT m ptr in
  if prev =? 0 then
    if next =? 0 then set_mem st (PUT64 m free_listp 0)
    else
      let m := PUT64 m free_listp (wrap64 (next + BASEADDR)) in
      set_mem st (SET_PREV m (OFFSET_REAL next) 0)
  else
    if next =? 0 then set_mem st (SET_NEXT m (OFFSET_REAL prev) 0)
    else
      let m := SET_PREV m (OFFSET_REAL next) prev in
      set_mem st (SET_NEXT m (OFFSET_REAL prev) next).

(* ================================================================== *)
(** * coalesce, extend_heap, mm_init *)

Definition coalesce (st : state) (ptr : Z) : Z * state :=
  let m := mem st in
  let prev_alloc := GET_PREV_ALLOC m ptr in
  let next_alloc := GET_ALLOC m (HDRP (NEXT_BLKP m ptr)) in
  let size := GET_SIZE m (HDRP ptr) in
  if negb (prev_alloc =? 0) && negb (next_alloc =? 0) then (ptr, st)
  else
    let st := remove_free_block st ptr in
    if negb (prev_alloc =? 0) && (next_alloc =? 0) then
      let st := remove_free_block st (NEXT_BLKP (mem st) ptr) in
      let m := mem st in
      let size := wrap64 (size + GET_SIZE m (HDRP (NEXT_BLKP m ptr))) in
      let m := PUT m (HDRP ptr) (PACK size 2) in
      let m := PUT m (FTRP m ptr) (PACK size 0) in
      (ptr, add_free_block (set_mem st m) ptr)
    else if (prev_alloc =? 0) && negb (next_alloc =? 0) then
      let st := remove_free_block st (PREV_BLKP (mem st) ptr) in
      let m := mem st in
      let size := wrap64 (size + GET_SIZE m (HDRP (PREV_BLKP m ptr))) in
      let m := PUT m (FTRP m ptr) (PACK size 0) in
      let m := PUT m (HDRP (PREV_BLKP m ptr))
                   (PACK size (GET_PREV_ALLOC m (PREV_BLKP m ptr))) in
      let ptr := PREV_BLKP m ptr in
      (ptr, add_free_block (set_mem st m) ptr)
    else
      let st := remove_free_block st (PREV_BLKP (mem st) ptr) in
      let st := remove_free_block st (NEXT_BLKP (mem st) ptr) in
      let m := mem st in
      let size := wrap64 (size + wrap64 (GET_SIZE m (HDRP (NEXT_BLKP m ptr))
                                         + GET_SIZE m (HDRP (PREV_BLKP m ptr)))) in
      let m := PUT m (HDRP (PREV_BLKP m ptr))
                   (PACK size (GET_PREV_ALLOC m (PREV_BLKP m ptr))) in
      let m := PUT m (FTRP m (NEXT_BLKP m ptr)) (PACK size 0) in
      let ptr := PREV_BLKP m ptr in
      (ptr, add_free_block (set_mem st m) ptr).

(** The size computed from [words] in [extend_heap]. *)
Definition extend_size (words : Z) : Z :=
  let size := if negb (words mod 2 =? 0) then wrap64 (wrap64 (words + 1) * WSIZE)
              else wrap64 (words * WSIZE) in
  MAX size DSIZE.

(** The new free block of [extend_heap]: header, footer and new epilogue
    are written and the block is added to its list (when it has the minimum
    size of 4 words); [bp] is what [mem_sbrk] returned. *)
Definition extend_heap_block (st : state) (bp size : Z) : state :=
  let m := mem st in
  let m := PUT m (HDRP bp) (PACK size (GET_PREV_ALLOC m bp)) in
  let m := PUT m (FTRP m bp) (PACK size 0) in
  let m := PUT m (HDRP (NEXT_BLKP m bp)) (PACK 0 1) in
  let st := set_mem st m in
  if size >=? 2 * DSIZE then add_free_block st bp else st.

(** The part of [extend_heap] after [size] has been assigned from [words]. *)
Definition extend_heap_tail (st : state) (size : Z) : Z * state :=
  match mem_sbrk st size with
  | None => (NULL, st)
  | Some (bp, st) => coalesce (extend_heap_block st bp size) bp
  end.

(** [extend_heap] as written: [size0] is the indeterminate value the local
    [size] holds before its first assignment; the first conditional reads it. *)
Definition extend_heap_raw (size0 : Z) (st : state) (words : Z) : Z * state :=
  let m := mem st in
  let end_ := mem_heap_hi st + 1 in
  let size := if GET_PREV_ALLOC m end_ =? 0
              then wrap64 (size0 - GET_SIZE m (HDRP (PREV_BLKP m end_)))
              else size0 in
  let size := if negb (words mod 2 =? 0) then wrap64 (wrap64 (words + 1) * WSIZE)
              else wrap64 (words * WSIZE) in
  let size := MAX size DSIZE in
  extend_heap_tail st size.

(** The variant of [extend_heap] with the first conditional removed. *)
Definition extend_heap_nocond (st : state) (words : Z) : Z * state :=
  let size := if negb (words mod 2 =? 0) then wrap64 (wrap64 (words + 1) * WSIZE)
              else wrap64 (words * WSIZE) in
  let size := MAX size DSIZE in
  extend_heap_tail st size.

(** The callers' [extend_heap]: any initial value of [size] does. *)
Definition extend_heap (st : state) (words : Z) : Z * state :=
  extend_heap_raw 0 st words.

(** The [for] loop of [mm_init]: [n] iterations remain.  [None] is the
    [return -1] of a failed [mem_sbrk]. *)
Fixpoint init_seg_lists (n : nat) (st : state) : state * bool :=
  match n with
  | O => (st, true)
  | S k =>
      match mem_sbrk st (2 * WSIZE) with
      | None => (st, false)
      | Some (seg_listp, st) =>
          let m := PUT (mem st) seg_listp 0 in
          let m := PUT m (seg_listp + 1 * WSIZE) 0 in
          init_seg_lists k (set_mem st m)
      end
  end.

Definition mm_init (st : state) : Z * state :=
  let st := set_seg_list_start st BASEADDR in
  match init_seg_lists (Z.to_nat SEG_NUM) st with
  | (st, false) => (-1, st)
  | (st, true) =>
      match mem_sbrk st (4 * WSIZE) with
      | None => (-1, set_heap_listp st SBRK_FAILED)
      | Some (p, st) =>
          let m := PUT (mem st) p 0 in
          let m := PUT m (p + 1 * WSIZE) (PACK DSIZE 1) in
          let m := PUT m (p + 2 * WSIZE) (PACK DSIZE 1) in
          let m := PUT m (p + 3 * WSIZE) (PACK 0 3) in
          let st := set_heap_listp (set_mem st m) (p + 2 * WSIZE) in
          let (r, st) := extend_heap st (CHUNKSIZE / WSIZE) in
          if r =? NULL then (-1, st) else (0, st)
      end
  end.

(* ================================================================== *)
(** * place, find_seg_fit, find_fit *)

Definition place (st : state) (ptr asize : Z) : state :=
  let csize := GET_SIZE (mem st) (HDRP ptr) in
  let prev_alloc := GET_PREV_ALLOC (mem st) ptr in
  let st := remove_free_block st ptr in
  let m := mem st in
  if wrap64 (csize - asize) >=? 2 * DSIZE then
    let m := PUT m (HDRP ptr) (PACK asize (Z.lor prev_alloc 1)) in
    let ptr := NEXT_BLKP m ptr in
    let m := PUT m (HDRP ptr) (PACK (wrap64 (csize - asize)) 2) in
    let m := PUT m (FTRP m ptr) (PACK (wrap64 (csize - asize)) 0) in
    add_free_block (set_mem st m) ptr
  else
    let m := PUT m (HDRP ptr) (PACK csize (Z.lor prev_alloc 1)) in
    let ptr := NEXT_BLKP m ptr in
    if negb (ptr =? NULL) then
      set_mem st (PUT m (HDRP ptr) (Z.lor (GET m (HDRP ptr)) 2))
    else set_mem st m.

(** The [while] loop of the first-fit branch.  [None]: the fuel ran out. *)
Fixpoint first_fit_loop (fuel : nat) (m : memory) (asize bp : Z) : option Z :=
  match fuel with
  | O => None
  | S k =>
      if negb (GET_NEXT m bp =? 0) then
        let bp := OFFSET_REAL (GET_NEXT m bp) in
        if asize <=? GET_SIZE m (HDRP bp) then Some bp
        else first_fit_loop k m asize bp
      else Some NULL
  end.

(** The [while] loop of the best-fit branch, with the locals [small_size]
    and [result] it updates. *)
Fixpoint best_fit_loop (fuel : nat) (m : memory) (asize bp small_size result : Z)
  : option Z :=
  match fuel with
  | O => None
  | S k =>
      if negb (GET_NEXT m bp =? 0) then
        let bp := OFFSET_REAL (GET_NEXT m bp) in
        let block_size := GET_SIZE m (HDRP bp) in
        if asize =? block_size then Some bp
        else if asize <? block_size then
          if (result =? NULL) || (block_size <? small_size)
          then best_fit_loop k m asize bp block_size bp
          else best_fit_loop k m asize bp small_size result
        else best_fit_loop k m asize bp small_size result
      else Some result
  end.

Definition find_seg_fit (fuel : nat) (m : memory) (asize free_listp : Z)
  : option Z :=
  let first_free := GET64 m free_listp in
  if first_free =? 0 then Some NULL
  else
    let bp := first_free in
    if asize <? SEG_SIZE7 then
      if asize <=? GET_SIZE m (HDRP bp) then Some bp
      else first_fit_loop fuel m asize bp
    else
      let block_size := GET_SIZE m (HDRP bp) in
      if asize =? block_size then Some bp
      else if asize <? block_size
           then best_fit_loop fuel m asize bp block_size bp
           else best_fit_loop fuel m asize bp 0 NULL.

(** The [while] loop of [find_fit] over the larger classes, followed by the
    final search of the last list reached. *)
Fixpoint find_fit_loop (fuel n : nat) (st : state) (asize free_listp : Z)
  : option Z :=
  match n with
  | O => None
  | S k =>
      if free_listp <? seg_list_start st + (SEG_NUM - 1) * DSIZE then
        let free_listp := free_listp + DSIZE in
        match find_seg_fit fuel (mem st) asize free_listp with
        | None => None
        | Some fit =>
            if negb (fit =? NULL) then Some fit
            else find_fit_loop fuel k st asize free_listp
        end
      else find_seg_fit fuel (mem st) asize free_listp
  end.

Definition find_fit (fuel : nat) (st : state) (asize : Z) : option Z :=
  let free_listp := get_seg_listp st asize in
  match find_seg_fit fuel (mem st) asize free_listp with
  | None => None
  | Some fit =>
      if negb (fit =? NULL) then Some fit
      else find_fit_loop fuel fuel st asize free_listp
  end.

(* ================================================================== *)
(** * The exported operations *)

(** The adjusted block size of a request of [size] bytes. *)
Definition adjust_size (size : Z) : Z :=
  if size <=? DSIZE then 2 * DSIZE
  else DSIZE * (wrap64 (wrap64 (size + WSIZE) + (DSIZE - 1)) / DSIZE).

Definition malloc (fuel : nat) (st : state) (size : Z) : outcome (Z * state) :=
  let st := if heap_listp st =? 0 then snd (mm_init st) else st in
  if size =? 0 then Ret (NULL, st)
  else
    let asize := adjust_size size in
    match find_fit fuel st asize with
    | None => OutOfFuel
    | Some ptr =>
        if negb (ptr =? NULL) then Ret (ptr, place st ptr asize)
        else
          let extendsize := MAX asize CHUNKSIZE in
          let (ptr, st) := extend_heap st (extendsize / WSIZE) in
          if ptr =? NULL then Ret (NULL, st)
          else Ret (ptr, place st ptr asize)
    end.

Definition free (st : state) (ptr : Z) : state :=
  if ptr =? NULL then st
  else if (ptr >? mem_heap_hi st) || (ptr <? mem_heap_lo st) then st
  else
    let m := mem st in
    let size := GET_SIZE m (HDRP ptr) in
    let m := PUT m (HDRP ptr) (PACK size (GET_PREV_ALLOC m ptr)) in
    let m := PUT m (FTRP m ptr) (PACK size 0) in
    let m := if negb (NEXT_BLKP m ptr =? NULL) then
               let next := NEXT_BLKP m ptr in
               PUT m (HDRP next) (Z.land (GET m (HDRP next)) (wrap32 (Z.lnot 2)))
             else m in
    let st := add_free_block (set_mem st m) ptr in
    snd (coalesce st ptr).

(** The number of bytes [realloc] copies: read from the old block's header
    after the new block has been allocated. *)
Definition realloc_copy_len (m : memory) (oldptr size : Z) : Z :=
  let oldsize := GET_SIZE m (HDRP oldptr) in
  if size <? oldsize then size else oldsize.

Definition realloc (fuel : nat) (st : state) (oldptr size : Z)
  : outcome (Z * state) :=
  if oldptr =? NULL then malloc fuel st size
  else if size =? 0 then Ret (NULL, free st oldptr)
  else
    match malloc fuel st size with
    | Ret (newptr, st) =>
        if newptr =? NULL then Ret (NULL, st)
        else
          let oldsize := realloc_copy_len (mem st) oldptr size in
          if range_in_heap st newptr oldsize && range_in_heap st oldptr oldsize
          then
            let st := set_mem st (memcpy_mem (mem st) newptr oldptr oldsize) in
            Ret (newptr, free st oldptr)
          else Fault
    | Fault => Fault
    | OutOfFuel => OutOfFuel
    end.

Definition calloc (fuel : nat) (st : state) (nmemb size : Z)
  : outcome (Z * state) :=
  let bytes := wrap64 (nmemb * size) in
  match malloc fuel st bytes with
  | Ret (newptr, st) =>
      if range_in_heap st newptr bytes
      then Ret (newptr, set_mem st (memset_mem (mem st) newptr 0 bytes))
      else Fault
  | Fault => Fault
  | OutOfFuel => OutOfFuel
  end.

(* ================================================================== *)
(** * The heap checker *)

(** The diagnostics [mm_checkheap] prints, one constructor per [printf]
    (the two prologue size checks print the same line, and so do the two
    prologue allocation checks). *)
Inductive diag : Type :=
| PrologueAlignmentError        (* "prologue alignment error" *)
| PrologueHeaderSizeError       (* "prologue header size error" *)
| PrologueHeaderAllocateError   (* "prologue header allocate error" *)
| EpilogueSizeError             (* "epilogue size error" *)
| EpilogueAllocateError         (* "epilogue allocate error" *)
| AllocateFlagError (ptr : Z)   (* "at block %lx, allocate flag error of next block" *)
| ConsecutiveFreeBlocks         (* "two consecutive free blocks exists" *)
| FreeCountMismatch             (* "free blocks number not match" *)
| ListNotAligned                (* "not aligned correctly" *)
| ListBlockOutOfHeap            (* "block out of heap" *)
| ListWrongSegregatedList       (* "free block falls in wrong segregated list" *)
| ListLinksInconsistent         (* "next/previous pointers are not consistent" *)
| BlockNotInHeap (ptr : Z)      (* "block %lx not in heap" *)
| BlockNotAligned (ptr : Z)     (* "the block %lx is not correctly aligned" *)
| BlockWrongSize (ptr : Z)      (* "wrong size of block %lx" *)
| BlockHeadFootMismatch.        (* "the head_size and foot size is not the same" *)

Definition in_heap (st : state) (p : Z) : bool :=
  (p <=? mem_heap_hi st) && (p >=? mem_heap_lo st).

Definition aligned (p : Z) : bool := ALIGN p =? p.

Definition when (b : bool) (d : diag) : list diag := if b then [d] else [].

Definition check_block (st : state) (ptr : Z) : list diag :=
  let m := mem st in
  let head_size := GET_SIZE m (HDRP ptr) in
  when (negb (in_heap st ptr)) (BlockNotInHeap ptr)
  ++ when (negb (aligned ptr)) (BlockNotAligned ptr)
  ++ when ((head_size <? 2 * DSIZE) && negb (ptr =? heap_listp st))
          (BlockWrongSize ptr)
  ++ (if GET_ALLOC m (HDRP ptr) =? 0
      then when (negb (GET_SIZE m (FTRP m ptr) =? head_size)) BlockHeadFootMismatch
      else []).

(** The [while] loop of [check_list]; returns the final [count] and the
    lines printed. *)
Fixpoint check_list_loop (fuel : nat) (st : state) (size_lo size_hi bp count : Z)
  : option (Z * list diag) :=
  match fuel with
  | O => None
  | S k =>
      let m := mem st in
      if negb (GET_NEXT m bp =? 0) then
        let count := count + 1 in
        let cur_size := GET_SIZE m (HDRP bp) in
        let out :=
          when (negb (aligned bp)) ListNotAligned
          ++ when (negb (in_heap st bp)) ListBlockOutOfHeap
          ++ when ((cur_size <? size_lo) || (cur_size >=? size_hi))
                  ListWrongSegregatedList in
        let next := OFFSET_REAL (GET_NEXT m bp) in
        if next =? 0 then
          match check_list_loop k st size_lo size_hi bp count with
          | None => None
          | Some (c, out') => Some (c, out ++ out')
          end
        else
          let out := out ++ when (negb (GET_PREV m next =? REAL_OFFSET bp))
                                 ListLinksInconsistent in
          match check_list_loop k st size_lo size_hi
                                (OFFSET_REAL (GET_NEXT m bp)) count with
          | None => None
          | Some (c, out') => Some (c, out ++ out')
          end
      else Some (count, [])
  end.

Definition check_list (fuel : nat) (st : state) (listp size_lo size_hi : Z)
  : option (Z * list diag) :=
  let first_free := GET64 (mem st) listp in
  if first_free =? 0 then Some (0, [])
  else
    match check_list_loop fuel st size_lo size_hi first_free 0 with
    | None => None
    | Some (count, out) => Some (count + 1, out)
    end.

(** The sweep of [mm_checkheap] over the blocks in address order; returns
    the number of free blocks seen and the lines printed. *)
Fixpoint check_heap_loop (fuel : nat) (st : state) (ptr count : Z)
  : option (Z * list diag) :=
  match fuel with
  | O => None
  | S k =>
      let m := mem st in
      if GET_SIZE m (HDRP ptr) >? 0 then
        let out := check_block st ptr in
        let count := if GET_ALLOC m (HDRP ptr) =? 0 then count + 1 else count in
        let out := out ++ when (negb (GET_ALLOC m (HDRP ptr)
                                      =? GET_PREV_ALLOC m (NEXT_BLKP m ptr) / 2))
                               (AllocateFlagError ptr) in
        let next := NEXT_BLKP m ptr in
        let out := out ++ when (Z.lor (GET_ALLOC m (HDRP ptr))
                                      (GET_ALLOC m (HDRP next)) =? 0)
                               ConsecutiveFreeBlocks in
        match check_heap_loop k st (NEXT_BLKP m ptr) count with
        | None => None
        | Some (c, out') => Some (c, out ++ out')
        end
      else Some (count, [])
  end.

Definition sizes : list Z :=
  [0; 16; 32; 64; 128; 256; 480; 960; 1920; 3840; 7680; 15360; 30720; 61440;
   INT_MAX].

(** The [for] loop over the segregated lists: [n] lists remain, [i] is the
    index of the next one. *)
Fixpoint check_lists_loop (fuel n : nat) (st : state) (i free_count : Z)
  : option (Z * list diag) :=
  match n with
  | O => Some (free_count, [])
  | S k =>
      let listp := seg_list_start st + i * DSIZE in
      match check_list fuel st listp (nth (Z.to_nat i) sizes 0)
                       (nth (Z.to_nat (i + 1)) sizes 0) with
      | None => None
      | Some (c, out) =>
          match check_lists_loop fuel k st (i + 1) (free_count + c) with
          | None => None
          | Some (fc, out') => Some (fc, out ++ out')
          end
      end
  end.

(** The prologue checks of [mm_checkheap]. *)
Definition check_prologue (st : state) : list diag :=
  let m := mem st in
  when (negb (aligned (heap_listp st))) PrologueAlignmentError
  ++ when (negb (GET_SIZE m (heap_listp st) =? DSIZE)) PrologueHeaderSizeError
  ++ when (negb (GET_ALLOC m (heap_listp st) =? 1)) PrologueHeaderAllocateError
  ++ when (negb (GET_SIZE m (heap_listp st - WSIZE) =? DSIZE)) PrologueHeaderSizeError
  ++ when (negb (GET_ALLOC m (heap_listp st - WSIZE) =? 1)) PrologueHeaderAllocateError.

(** The epilogue checks of [mm_checkheap]. *)
Definition check_epilogue (st : state) : list diag :=
  let m := mem st in
  when (negb (GET_SIZE m (mem_heap_hi st - 3) =? 0)) EpilogueSizeError
  ++ when (negb (GET_ALLOC m (mem_heap_hi st - 3) =? 1)) EpilogueAllocateError.

(** [mm_checkheap]: the lines it prints, in order. *)
Definition mm_checkheap (fuel : nat) (st : state) : option (list diag) :=
  let out := check_prologue st ++ check_epilogue st in
  match check_heap_loop fuel st (heap_listp st) 0 with
  | None => None
  | Some (count, out1) =>
      match check_lists_loop fuel (Z.to_nat SEG_NUM) st 0 0 with
      | None => None
      | Some (free_count, out2) =>
          Some (out ++ out1 ++ out2
                ++ when (negb (free_count =? count)) FreeCountMismatch)
      end
  end.

(* ================================================================== *)
(** * Concrete states used in examples *)

(** The state before the first call: nothing allocated from the raw heap,
    both globals zero, every byte of memory holding [fill]. *)
Definition fresh (fill room : Z) : state :=
  mkState (fun _ => fill) BASEADDR BASEADDR (BASEADDR + room) 0 0.

(** After [mm_init] on [fresh]: directory, prologue, one free block of
    [CHUNKSIZE] bytes, epilogue. *)
Definition initialized (fill room : Z) : state := snd (mm_init (fresh fill room)).

(* ================================================================== *)
(** * The abstract heap

    The blocks zone is described by the list of its blocks in address
    order, each a size and an allocated flag; the free lists by one list of
    block pointers per size class. *)

Definition block : Type := (Z * bool)%type.

(** The block pointer of the first block after the prologue. *)
Definition first_bp : Z := BASEADDR + SEG_NUM * DSIZE + 4 * WSIZE.

(** A header word: size, prev-alloc flag (value 2), this-alloc flag (value 1). *)
Definition hdr (sz : Z) (pa al : bool) : Z :=
  sz + (if pa then 2 else 0) + (if al then 1 else 0).

Fixpoint total (bs : list block) : Z :=
  match bs with
  | [] => 0
  | (sz, _) :: r => sz + total r
  end.

(** The allocated flag of the last block of [bs], or [pa] for no block. *)
Fixpoint last_alloc (pa : bool) (bs : list block) : bool :=
  match bs with
  | [] => pa
  | (_, al) :: r => last_alloc al r
  end.

(** The blocks [bs] are laid out from block pointer [bp] on, the block
    before [bp] having allocated flag [pa]: every header holds its size, the
    flag of its predecessor and its own flag; every free block has a footer
    holding its size. *)
Fixpoint seg_at (m : memory) (bp : Z) (pa : bool) (bs : list block) : Prop :=
  match bs with
  | [] => True
  | (sz, al) :: r =>
      16 <= sz /\ sz mod 8 = 0 /\
      GET m (HDRP bp) = hdr sz pa al /\
      (al = false -> GET m (bp + sz - DSIZE) = sz) /\
      seg_at m (bp + sz) al r
  end.

(** Block pointer, size and flag of every block of [bs] laid out from [bp]. *)
Fixpoint layout (bp : Z) (bs : list block) : list (Z * Z * bool) :=
  match bs with
  | [] => []
  | (sz, al) :: r => (bp, sz, al) :: layout (bp + sz) r
  end.

(** No free block follows a free block ([pa]: the flag of the block before). *)
Fixpoint no_adj_free (pa : bool) (bs : list block) : bool :=
  match bs with
  | [] => true
  | (_, al) :: r => (pa || al) && no_adj_free al r
  end.

(** The link words of a segment of a doubly-linked list: the first node has
    prev-link [prev], the last node has next-link [nx]; links are offsets from
    [BASEADDR]. *)
Fixpoint dlseg (m : memory) (prev : Z) (l : list Z) (nx : Z) : Prop :=
  match l with
  | [] => True
  | n :: r =>
      GET_PREV m n = prev /\
      GET_NEXT m n = match r with [] => nx | n' :: _ => n' - BASEADDR end /\
      dlseg m (n - BASEADDR) r nx
  end.

(** A whole list: the last next-link is 0, meaning none. *)
Definition dll (m : memory) (prev : Z) (l : list Z) : Prop := dlseg m prev l 0.

(** The list of class [c] holds exactly the nodes [l], in order. *)
Definition seg_list (m : memory) (c : Z) (l : list Z) : Prop :=
  GET64 m (BASEADDR + c * DSIZE) = match l with [] => 0 | n :: _ => n end
  /\ dll m 0 l.

(** The state [st] represents the blocks [bs] and the free lists [L]. *)
Record heap_rep (st : state) (bs : list block) (L : Z -> list Z) : Prop := {
  rep_seg_start : seg_list_start st = BASEADDR;
  rep_heap_listp : heap_listp st = BASEADDR + SEG_NUM * DSIZE + 2 * WSIZE;
  rep_start : mem_start_brk st = BASEADDR;
  rep_max : mem_max_addr st <= BASEADDR + 2 ^ 32;
  rep_brk_max : mem_brk st <= mem_max_addr st;
  rep_prologue_hdr : GET (mem st) (HDRP (heap_listp st)) = PACK DSIZE 1;
  rep_prologue_ftr : GET (mem st) (heap_listp st) = PACK DSIZE 1;
  rep_blocks : seg_at (mem st) first_bp true bs;
  rep_brk : mem_brk st = first_bp + total bs;
  rep_epilogue : GET (mem st) (HDRP (mem_brk st)) = hdr 0 (last_alloc true bs) true;
  rep_lists : forall c, 0 <= c < SEG_NUM -> seg_list (mem st) c (L c);
  rep_nodes : forall c n, 0 <= c < SEG_NUM -> In n (L c) ->
              exists sz, In (n, sz, false) (layout first_bp bs) /\ seg_index sz = c;
  rep_nodup : forall c, 0 <= c < SEG_NUM -> NoDup (L c)
}.

(** Every free block is in the list of its class. *)
Definition lists_complete (bs : list block) (L : Z -> list Z) : Prop :=
  forall n sz, In (n, sz, false) (layout first_bp bs) -> In n (L (seg_index sz)).

(** The heap invariant that holds between the calls of the exported
    operations. *)
Definition heap_inv (st : state) (bs : list block) (L : Z -> list Z) : Prop :=
  heap_rep st bs L /\ lists_complete bs L /\ no_adj_free true bs = true.

(** Replace the list of class [c]. *)
Definition upd (L : Z -> list Z) (c : Z) (l : list Z) : Z -> list Z :=
  fun i => if i =? c then l else L i.

(** The payload of an allocated block of size [sz]: everything after the
    4-byte header. *)
Definition payload_size (m : memory) (p : Z) : Z := GET_SIZE m (HDRP p) - WSIZE.

(* ================================================================== *)
(** * Auxiliary definitions of the verification *)

(** Every block has a size that is a multiple of 8 and at least 16. *)
Definition sizes_ok (bs : list block) : Prop :=
  Forall (fun b : block => 16 <= fst b /\ fst b mod 8 = 0) bs.

(** The offset stored in the next-link of the node before [l]. *)
Definition hdoff (l : list Z) (nx : Z) : Z :=
  match l with [] => nx | n :: _ => n - BASEADDR end.

(** The offset stored in the prev-link of the node after [l]. *)
Fixpoint lastoff (p : Z) (l : list Z) : Z :=
  match l with [] => p | n :: r => lastoff (n - BASEADDR) r end.

(** The payload bytes of the allocated blocks of [bs] are the same in [m]
    and [m']. *)
Definition meta_only (bs : list block) (m m' : memory) : Prop :=
  forall b sz x, In (b, sz, true) (layout first_bp bs) ->
    b <= x < b + sz - WSIZE -> load8 m' x = load8 m x.

(** [x] is a byte of the two link words of a node of [l]. *)
Definition linked (l : list Z) (x : Z) : Prop :=
  exists n, In n l /\ n <= x < n + 8.

(** The header word found where the blocks [l] start (the epilogue header
    for no block). *)
Definition first_hdr (pa : bool) (l : list block) : Z :=
  match l with
  | [] => hdr 0 pa true
  | (s, a) :: _ => hdr s pa a
  end.

(** The state in which [mem_sbrk] has just moved the break. *)
Definition grown (st : state) (size : Z) : state :=
  mkState (mem st) (mem_start_brk st) (mem_brk st + size) (mem_max_addr st)
          (heap_listp st) (seg_list_start st).

(** ** The placement policy, in the spec's words *)

(** A free list as the search sees it: the nodes in list order, each with
    the size in its header. *)
Definition sized (m : memory) (l : list Z) : list (Z * Z) :=
  map (fun n => (n, GET_SIZE m (HDRP n))) l.

(** First fit, in the spec's words: the first node with [size >= A]. *)
Definition spec_first_fit (A : Z) (l : list (Z * Z)) : option Z :=
  match find (fun ns => A <=? snd ns) l with
  | Some ns => Some (fst ns)
  | None => None
  end.

(** Best fit, in the spec's words: scan the entire list and keep the node
    with the smallest [size >= A], the first encountered among equals. *)
Fixpoint best_from (A : Z) (best : option (Z * Z)) (l : list (Z * Z))
  : option (Z * Z) :=
  match l with
  | [] => best
  | ns :: r =>
      if A <=? snd ns then
        match best with
        | None => best_from A (Some ns) r
        | Some b => if snd ns <? snd b then best_from A (Some ns) r
                    else best_from A best r
        end
      else best_from A best r
  end.

(** Best fit over a whole list. *)
Definition spec_best_fit (A : Z) (l : list (Z * Z)) : option Z :=
  match best_from A None l with
  | Some ns => Some (fst ns)
  | None => None
  end.

(** The per-list search: first fit for [A < 960], best fit otherwise. *)
Definition spec_seg_fit (A : Z) (l : list (Z * Z)) : option Z :=
  if A <? 960 then spec_first_fit A l else spec_best_fit A l.

(** Search class [c] and then the larger classes, [n] classes in all. *)
Fixpoint spec_find_fit_from (A : Z) (lists : Z -> list (Z * Z)) (c : Z) (n : nat)
  : option Z :=
  match n with
  | O => None
  | S k =>
      match spec_seg_fit A (lists c) with
      | Some r => Some r
      | None => spec_find_fit_from A lists (c + 1) k
      end
  end.

(** Find-fit, in the spec's words: start at list C(A), advance through the
    larger classes up to and including C13, none if no class has a fit. *)
Definition spec_find_fit (A : Z) (lists : Z -> list (Z * Z)) : option Z :=
  spec_find_fit_from A lists (seg_index A) (Z.to_nat (SEG_NUM - seg_index A)).

(** A result of the code for a result of the spec. *)
Definition ptr_of (o : option Z) : Z :=
  match o with Some p => p | None => NULL end.

(** ** Invariants of the search, fuel, and the heap after mm_init *)

(** The free-list invariants the search relies on: every directory slot
    heads a well-linked list, no node is at [BASEADDR] or null, and every
    node is in the list of the class of its size. *)
Definition free_lists_ok (st : state) (L : Z -> list Z) : Prop :=
  seg_list_start st = BASEADDR
  /\ forall c, 0 <= c < SEG_NUM ->
       seg_list (mem st) c (L c)
       /\ forall n, In n (L c) ->
            n <> BASEADDR /\ n <> NULL
            /\ seg_index (GET_SIZE (mem st) (HDRP n)) = c.

(** The fuel suffices for every loop over the free lists. *)
Definition enough_fuel (fuel : nat) (L : Z -> list Z) : Prop :=
  (Z.to_nat SEG_NUM <= fuel)%nat
  /\ forall c, 0 <= c < SEG_NUM -> (length (L c) <= fuel)%nat.

(** The free lists after [mm_init]: the first block alone, in class 5. *)
Definition init_lists : Z -> list Z :=
  upd (fun _ => []) (seg_index CHUNKSIZE) [first_bp].

(** The spec's [round_up x a]: the least multiple of [a] that is at least [x]. *)
Definition round_up (x a : Z) : Z := a * ((x + a - 1) / a).

(** ** Example heaps *)

(** The heap after [mm_init] and [malloc 12]: a 16-byte allocated block at
    [first_bp], then a free block of 448 bytes. *)
Definition one_block : state := place (initialized 0 4096) first_bp 16.

(** The free lists of [one_block]. *)
Definition one_block_lists : Z -> list Z :=
  upd (fun _ => []) (seg_index 448) [first_bp + 16].

(** Four 16-byte blocks are allocated, then the first and the third are
    freed: two free blocks in the list of class 1, one in that of class 5. *)
Definition scattered : state :=
  let st := place (initialized 0 4096) first_bp 16 in
  let st := place st (first_bp + 16) 16 in
  let st := place st (first_bp + 32) 16 in
  let st := place st (first_bp + 48) 16 in
  free (free st first_bp) (first_bp + 32).

(** The blocks of [scattered]. *)
Definition scattered_blocks : list block :=
  [(16, false); (16, true); (16, false); (16, true); (400, false)].

(** The free lists of [scattered]: the block freed last is at the head. *)
Definition scattered_lists : Z -> list Z :=
  upd (upd (fun _ => []) (seg_index 16) [first_bp + 32; first_bp])
      (seg_index 400) [first_bp + 64].

(** [scattered] with the block at [first_bp + 32] taken out of its list. *)
Definition unlisted : state := remove_free_block scattered (first_bp + 32).

(** The free lists of [unlisted]. *)
Definition unlisted_lists : Z -> list Z :=
  upd (upd (fun _ => []) (seg_index 16) [first_bp])
      (seg_index 400) [first_bp + 64].

(** ** Counting blocks and nodes, the lines of the checker, bounds, and one more example heap *)

(** The number of free blocks of [bs]. *)
Fixpoint count_free (bs : list block) : Z :=
  match bs with
  | [] => 0
  | (_, al) :: r => (if al then 0 else 1) + count_free r
  end.

(** The number of nodes of the lists of the [n] classes from [i] on. *)
Fixpoint count_listed (L : Z -> list Z) (i : Z) (n : nat) : Z :=
  match n with
  | O => 0
  | S k => Z.of_nat (length (L i)) + count_listed L (i + 1) k
  end.

(** The lines the sweep of [mm_checkheap] prints on well-formed blocks: one
    for every free block that is followed by a free block. *)
Fixpoint adj_diags (bs : list block) : list diag :=
  match bs with
  | [] => []
  | (_, al) :: r =>
      when (negb al && match r with (_, false) :: _ => true | _ => false end)
           ConsecutiveFreeBlocks
      ++ adj_diags r
  end.

(** The block pointers of the free blocks of [bs], laid out from [bp]. *)
Fixpoint free_ptrs (bp : Z) (bs : list block) : list Z :=
  match bs with
  | [] => []
  | (sz, al) :: r =>
      if al then free_ptrs (bp + sz) r else bp :: free_ptrs (bp + sz) r
  end.

(** The nodes of the lists of the [n] classes from [i] on. *)
Fixpoint nodes_from (L : Z -> list Z) (i : Z) (n : nat) : list Z :=
  match n with
  | O => []
  | S k => L i ++ nodes_from L (i + 1) k
  end.

(** [st'] differs from [st] in the memory only: the raw heap bounds and the
    two globals are the same. *)
Definition same_bounds (st st' : state) : Prop :=
  mem_start_brk st' = mem_start_brk st /\ mem_brk st' = mem_brk st
  /\ mem_max_addr st' = mem_max_addr st /\ heap_listp st' = heap_listp st
  /\ seg_list_start st' = seg_list_start st.

(** [scattered] with the block at [first_bp + 16] marked free and put in its
    list, as [free] leaves it before it calls [coalesce]: three free blocks in
    a row. *)
Definition uncoalesced : state :=
  let p := first_bp + 16 in
  let m := mem scattered in
  let m := PUT m (HDRP p) (PACK 16 (GET_PREV_ALLOC m p)) in
  let m := PUT m (FTRP m p) (PACK 16 0) in
  let m := PUT m (HDRP (p + 16)) (Z.land (GET m (HDRP (p + 16))) (wrap32 (Z.lnot 2))) in
  add_free_block (set_mem scattered m) p.

(** The blocks of [uncoalesced]. *)
Definition uncoalesced_blocks : list block :=
  [(16, false); (16, false); (16, false); (16, true); (400, false)].

(** The free lists of [uncoalesced]. *)
Definition uncoalesced_lists : Z -> list Z :=
  upd (upd (fun _ => []) (seg_index 16) [first_bp + 16; first_bp + 32; first_bp])
      (seg_index 400) [first_bp + 64].

(* ================================================================== *)
(** * Memory lemmas *)

Lemma bytes_join v :
  v mod 256 + 2 ^ 8 * ((v / 2 ^ 8) mod 256) + 2 ^ 16 * ((v / 2 ^ 16) mod 256)
  + 2 ^ 24 * ((v / 2 ^ 24) mod 256) = v mod 2 ^ 32.
Proof.
  change (2 ^ 8) with 256; change (2 ^ 16) with 65536;
  change (2 ^ 24) with 16777216; change (2 ^ 32) with 4294967296.
  Z.div_mod_to_equations; lia.
Qed.

Lemma load8_range m a : 0 <= load8 m a < 256.
Proof. unfold load8; apply Z.mod_pos_bound; lia. Qed.

Lemma load8_store8 m a v x :
  load8 (store8 m a v) x = if x =? a then v mod 256 else load8 m x.
Proof.
  unfold load8, store8. destruct (x =? a); [apply Z.mod_mod; lia | reflexivity].
Qed.

Lemma load8_PUT m p v x :
  load8 (PUT m p v) x =
  if (p <=? x) && (x <? p + 4) then (v / 2 ^ (8 * (x - p))) mod 256 else load8 m x.
Proof.
  unfold PUT. rewrite !load8_store8.
  destruct (Z.eqb_spec x (p + 3)) as [->|].
  { replace ((p <=? p + 3) && (p + 3 <? p + 4)) with true by lia.
    replace (p + 3 - p) with 3 by lia. reflexivity. }
  destruct (Z.eqb_spec x (p + 2)) as [->|].
  { replace ((p <=? p + 2) && (p + 2 <? p + 4)) with true by lia.
    replace (p + 2 - p) with 2 by lia. reflexivity. }
  destruct (Z.eqb_spec x (p + 1)) as [->|].
  { replace ((p <=? p + 1) && (p + 1 <? p + 4)) with true by lia.
    replace (p + 1 - p) with 1 by lia. reflexivity. }
  destruct (Z.eqb_spec x p) as [->|].
  { replace ((p <=? p) && (p <? p + 4)) with true by lia.
    replace (p - p) with 0 by lia. simpl. rewrite Z.div_1_r. reflexivity. }
  replace ((p <=? x) && (x <? p + 4)) with false by lia. reflexivity.
Qed.

Lemma GET_range m p : 0 <= GET m p < 2 ^ 32.
Proof.
  unfold GET.
  pose proof (load8_range m p). pose proof (load8_range m (p + 1)).
  pose proof (load8_range m (p + 2)). pose proof (load8_range m (p + 3)).
  change (2 ^ 8) with 256; change (2 ^ 16) with 65536;
  change (2 ^ 24) with 16777216; change (2 ^ 32) with 4294967296. lia.
Qed.

Lemma GET_PUT_same m p v : GET (PUT m p v) p = v mod 2 ^ 32.
Proof.
  unfold GET. rewrite !load8_PUT.
  replace ((p <=? p) && (p <? p + 4)) with true by lia.
  replace ((p <=? p + 1) && (p + 1 <? p + 4)) with true by lia.
  replace ((p <=? p + 2) && (p + 2 <? p + 4)) with true by lia.
  replace ((p <=? p + 3) && (p + 3 <? p + 4)) with true by lia.
  replace (p - p) with 0 by lia. replace (p + 1 - p) with 1 by lia.
  replace (p + 2 - p) with 2 by lia. replace (p + 3 - p) with 3 by lia.
  change (8 * 0) with 0. change (8 * 1) with 8. change (8 * 2) with 16.
  change (8 * 3) with 24. change (2 ^ 0) with 1. rewrite Z.div_1_r.
  apply bytes_join.
Qed.

Lemma GET_PUT_other m p v q :
  q + 4 <= p \/ p + 4 <= q -> GET (PUT m p v) q = GET m q.
Proof.
  intros H. unfold GET. rewrite !load8_PUT.
  replace ((p <=? q) && (q <? p + 4)) with false by lia.
  replace ((p <=? q + 1) && (q + 1 <? p + 4)) with false by lia.
  replace ((p <=? q + 2) && (q + 2 <? p + 4)) with false by lia.
  replace ((p <=? q + 3) && (q + 3 <? p + 4)) with false by lia.
  reflexivity.
Qed.

Lemma land_lnot7 x : Z.land x (Z.lnot 7) = 8 * (x / 8).
Proof.
  rewrite <- Z.ldiff_land. change 7 with (Z.ones 3).
  rewrite Z.ldiff_ones_r by lia.
  rewrite Z.shiftl_mul_pow2, Z.shiftr_div_pow2 by lia. change (2 ^ 3) with 8. lia.
Qed.

Lemma land_1 x : Z.land x 1 = x mod 2.
Proof. change 1 with (Z.ones 1) at 1. rewrite Z.land_ones by lia. reflexivity. Qed.

Lemma land_2 x : Z.land x 2 = 2 * ((x / 2) mod 2).
Proof.
  transitivity (Z.shiftl (Z.land (Z.shiftr x 1) 1) 1).
  - rewrite Z.shiftl_land. rewrite <- Z.ldiff_ones_r by lia.
    rewrite Z.ldiff_land, <- Z.land_assoc. reflexivity.
  - rewrite land_1, Z.shiftl_mul_pow2, Z.shiftr_div_pow2 by lia.
    change (2 ^ 1) with 2. lia.
Qed.

Lemma lor_2 x : Z.lor x 2 = x + 2 - 2 * ((x / 2) mod 2).
Proof. pose proof (Z.add_lor_land x 2). rewrite land_2 in H. lia. Qed.

Lemma land_not2 x : 0 <= x < 2 ^ 32 ->
  Z.land x (wrap32 (Z.lnot 2)) = x - 2 * ((x / 2) mod 2).
Proof.
  intros Hx. change (wrap32 (Z.lnot 2)) with (Z.ldiff (Z.ones 32) 2).
  rewrite Z.ldiff_land, Z.land_assoc, Z.land_ones by lia.
  rewrite Z.mod_small by lia. rewrite <- Z.ldiff_land.
  pose proof (Z.lor_ldiff_and x 2). pose proof (Z.add_lor_land (Z.ldiff x 2) (Z.land x 2)).
  rewrite H in H0. rewrite <- land_2.
  assert (Z.land (Z.ldiff x 2) (Z.land x 2) = 0).
  { rewrite Z.ldiff_land. rewrite (Z.land_comm x 2), <- Z.land_assoc, (Z.land_assoc (Z.lnot 2)).
    change (Z.land (Z.lnot 2) 2) with 0. rewrite Z.land_0_l, Z.land_0_r. reflexivity. }
  lia.
Qed.

Lemma lor_small sz f : sz mod 8 = 0 -> 0 <= f < 8 -> Z.lor sz f = sz + f.
Proof.
  intros Hs Hf. pose proof (Z.add_lor_land sz f).
  assert (Z.land sz f = 0).
  { replace f with (Z.land f 7).
    - rewrite (Z.land_comm f 7), Z.land_assoc. change 7 with (Z.ones 3).
      rewrite Z.land_ones by lia. change (2 ^ 3) with 8. rewrite Hs. apply Z.land_0_l.
    - change 7 with (Z.ones 3). rewrite Z.land_ones by lia. apply Z.mod_small. change (2^3) with 8. lia. }
  lia.
Qed.

Lemma GET64_range m p : 0 <= GET64 m p < 2 ^ 64.
Proof.
  unfold GET64. pose proof (GET_range m p). pose proof (GET_range m (p + 4)).
  change (2 ^ 32) with 4294967296 in *.
  change (2 ^ 64) with (4294967296 * 4294967296). nia.
Qed.

Lemma GET64_PUT64_same m p v : 0 <= v < 2 ^ 64 -> GET64 (PUT64 m p v) p = v.
Proof.
  intros Hv. unfold GET64, PUT64.
  rewrite GET_PUT_other, !GET_PUT_same by lia.
  change (2 ^ 64) with (4294967296 * 4294967296) in Hv.
  change (2 ^ 32) with 4294967296.
  Z.div_mod_to_equations; nia.
Qed.

Lemma GET64_PUT_other m p v q :
  q + 8 <= p \/ p + 4 <= q -> GET64 (PUT m p v) q = GET64 m q.
Proof. intros H. unfold GET64. rewrite !GET_PUT_other by lia. reflexivity. Qed.

Lemma GET_PUT64_other m p v q :
  q + 4 <= p \/ p + 8 <= q -> GET (PUT64 m p v) q = GET m q.
Proof. intros H. unfold PUT64. rewrite !GET_PUT_other by lia. reflexivity. Qed.

Lemma GET64_PUT64_other m p v q :
  q + 8 <= p \/ p + 8 <= q -> GET64 (PUT64 m p v) q = GET64 m q.
Proof. intros H. unfold GET64. rewrite !GET_PUT64_other by lia. reflexivity. Qed.

Lemma load8_PUT_other m p v x :
  x < p \/ p + 4 <= x -> load8 (PUT m p v) x = load8 m x.
Proof.
  intros H. rewrite load8_PUT.
  replace ((p <=? x) && (x <? p + 4)) with false by lia. reflexivity.
Qed.

Lemma load8_PUT64_other m p v x :
  x < p \/ p + 8 <= x -> load8 (PUT64 m p v) x = load8 m x.
Proof. intros H. unfold PUT64. rewrite !load8_PUT_other by lia. reflexivity. Qed.

(** A word made of unchanged bytes is unchanged. *)
Lemma GET_ext m m' p :
  (forall x, p <= x < p + 4 -> load8 m' x = load8 m x) -> GET m' p = GET m p.
Proof. intros H. unfold GET. rewrite !H by lia. reflexivity. Qed.

Lemma GET64_ext m m' p :
  (forall x, p <= x < p + 8 -> load8 m' x = load8 m x) -> GET64 m' p = GET64 m p.
Proof.
  intros H. unfold GET64.
  rewrite (GET_ext m m' p), (GET_ext m m' (p + 4)); auto; intros; apply H; lia.
Qed.

Lemma load8_memcpy m dst src n x :
  load8 (memcpy_mem m dst src n) x =
  if (dst <=? x) && (x <? dst + n) then load8 m (src + (x - dst)) else load8 m x.
Proof.
  unfold memcpy_mem, load8 at 1.
  destruct ((dst <=? x) && (x <? dst + n)); [|reflexivity].
  unfold load8. apply Z.mod_mod. lia.
Qed.

Lemma load8_memset m dst c n x :
  load8 (memset_mem m dst c n) x =
  if (dst <=? x) && (x <? dst + n) then c mod 256 else load8 m x.
Proof.
  unfold memset_mem, load8 at 1.
  destruct ((dst <=? x) && (x <? dst + n)); [|reflexivity].
  apply Z.mod_mod. lia.
Qed.

(** ** Header words *)

Lemma hdr_range sz pa al : 0 <= sz -> 0 <= hdr sz pa al <= sz + 3.
Proof. unfold hdr; destruct pa, al; lia. Qed.

Lemma size_hdr sz pa al : sz mod 8 = 0 -> Z.land (hdr sz pa al) (Z.lnot 7) = sz.
Proof.
  intros H. rewrite land_lnot7. unfold hdr.
  destruct pa, al; Z.div_mod_to_equations; lia.
Qed.

Lemma alloc_hdr sz pa al : sz mod 8 = 0 ->
  Z.land (hdr sz pa al) 1 = if al then 1 else 0.
Proof.
  intros H. rewrite land_1. unfold hdr.
  destruct pa, al; Z.div_mod_to_equations; lia.
Qed.

Lemma prev_alloc_hdr sz pa al : sz mod 8 = 0 ->
  Z.land (hdr sz pa al) 2 = if pa then 2 else 0.
Proof.
  intros H. rewrite land_2. unfold hdr.
  destruct pa, al; Z.div_mod_to_equations; lia.
Qed.

Lemma PACK_hdr sz (pa al : bool) : sz mod 8 = 0 ->
  PACK sz ((if pa then 2 else 0) + (if al then 1 else 0)) = hdr sz pa al.
Proof.
  intros H. unfold PACK. rewrite lor_small; [unfold hdr; lia | assumption |].
  destruct pa, al; lia.
Qed.

Lemma hdr_set_prev_alloc sz pa al : sz mod 8 = 0 ->
  Z.lor (hdr sz pa al) 2 = hdr sz true al.
Proof.
  intros H. rewrite lor_2. unfold hdr.
  destruct pa, al; Z.div_mod_to_equations; lia.
Qed.

Lemma hdr_clear_prev_alloc sz pa al : sz mod 8 = 0 -> 0 <= sz < 2 ^ 32 - 8 ->
  Z.land (hdr sz pa al) (wrap32 (Z.lnot 2)) = hdr sz false al.
Proof.
  intros H Hr. rewrite land_not2 by (pose proof (hdr_range sz pa al); lia).
  unfold hdr. destruct pa, al; Z.div_mod_to_equations; lia.
Qed.

(* ================================================================== *)
(** * The layout of the blocks *)

Lemma total_app l1 l2 : total (l1 ++ l2) = total l1 + total l2.
Proof. induction l1 as [|[sz al] r IH]; simpl; lia. Qed.

Lemma total_nonneg bs : sizes_ok bs -> 0 <= total bs.
Proof.
  induction 1 as [|[sz al] r [H1 H2] _ IH]; simpl in *; lia.
Qed.

Lemma total_mod8 bs : sizes_ok bs -> total bs mod 8 = 0.
Proof.
  induction 1 as [|[sz al] r [H1 H2] _ IH]; simpl in *; [reflexivity|].
  Z.div_mod_to_equations; lia.
Qed.

Lemma last_alloc_app pa l1 l2 :
  last_alloc pa (l1 ++ l2) = last_alloc (last_alloc pa l1) l2.
Proof. revert pa; induction l1 as [|[sz al] r IH]; simpl; auto. Qed.

Lemma layout_app bp l1 l2 :
  layout bp (l1 ++ l2) = layout bp l1 ++ layout (bp + total l1) l2.
Proof.
  revert bp; induction l1 as [|[sz al] r IH]; simpl; intros bp.
  - rewrite Z.add_0_r. reflexivity.
  - rewrite IH. rewrite Z.add_assoc. reflexivity.
Qed.

Lemma sizes_ok_app l1 l2 : sizes_ok (l1 ++ l2) <-> sizes_ok l1 /\ sizes_ok l2.
Proof. apply Forall_app. Qed.

Lemma seg_at_sizes m bp pa bs : seg_at m bp pa bs -> sizes_ok bs.
Proof.
  revert bp pa; induction bs as [|[sz al] r IH]; simpl; intros bp pa H.
  - constructor.
  - destruct H as (H1 & H2 & _ & _ & H5).
    apply Forall_cons; [simpl; auto | exact (IH _ _ H5)].
Qed.

Lemma seg_at_app m bp pa l1 l2 :
  seg_at m bp pa (l1 ++ l2) <->
  seg_at m bp pa l1 /\ seg_at m (bp + total l1) (last_alloc pa l1) l2.
Proof.
  revert bp pa; induction l1 as [|[sz al] r IH]; simpl; intros bp pa.
  - rewrite Z.add_0_r. tauto.
  - rewrite IH. replace (bp + sz + total r) with (bp + (sz + total r)) by lia. tauto.
Qed.

Lemma layout_in_split bp bs b sz al :
  In (b, sz, al) (layout bp bs) ->
  exists l1 l2, bs = l1 ++ (sz, al) :: l2 /\ b = bp + total l1.
Proof.
  revert bp; induction bs as [|[sz' al'] r IH]; simpl; intros bp H; [contradiction|].
  destruct H as [H|H].
  - inversion H; subst. exists [], r. simpl. split; [reflexivity | lia].
  - destruct (IH _ H) as (l1 & l2 & -> & ->).
    exists ((sz', al') :: l1), l2. simpl. split; [reflexivity | lia].
Qed.

Lemma layout_in_app bp l1 sz al l2 :
  In (bp + total l1, sz, al) (layout bp (l1 ++ (sz, al) :: l2)).
Proof. rewrite layout_app. apply in_or_app. right. simpl. auto. Qed.

Lemma layout_bounds bp bs b sz al :
  sizes_ok bs -> In (b, sz, al) (layout bp bs) ->
  bp <= b /\ b + sz <= bp + total bs /\ 16 <= sz /\ sz mod 8 = 0
  /\ (b - bp) mod 8 = 0.
Proof.
  intros Hok Hin. destruct (layout_in_split _ _ _ _ _ Hin) as (l1 & l2 & -> & ->).
  apply sizes_ok_app in Hok. destruct Hok as [H1 H2].
  inversion H2 as [|x r [Ha Hb] H3]; subst. simpl in Ha, Hb.
  pose proof (total_nonneg _ H1). pose proof (total_nonneg _ H3).
  pose proof (total_mod8 _ H1).
  rewrite total_app. simpl. repeat split; try lia.
  replace (bp + total l1 - bp) with (total l1) by lia. assumption.
Qed.

(** Two blocks of a layout are the same block or do not overlap. *)
Lemma layout_disjoint bp bs b1 s1 a1 b2 s2 a2 :
  sizes_ok bs ->
  In (b1, s1, a1) (layout bp bs) -> In (b2, s2, a2) (layout bp bs) ->
  (b1 = b2 /\ s1 = s2 /\ a1 = a2) \/ b1 + s1 <= b2 \/ b2 + s2 <= b1.
Proof.
  revert bp; induction bs as [|[sz al] r IH]; simpl; intros bp Hok H1 H2;
    [contradiction|].
  inversion Hok as [|x y [Ha Hb] Hr]; subst. simpl in Ha, Hb.
  destruct H1 as [H1|H1], H2 as [H2|H2].
  - inversion H1; inversion H2; subst. auto.
  - inversion H1; subst. pose proof (layout_bounds _ _ _ _ _ Hr H2) as Hb2. lia.
  - inversion H2; subst. pose proof (layout_bounds _ _ _ _ _ Hr H1) as Hb1. lia.
  - eauto.
Qed.

Lemma layout_functional bp bs b s1 a1 s2 a2 :
  sizes_ok bs ->
  In (b, s1, a1) (layout bp bs) -> In (b, s2, a2) (layout bp bs) ->
  s1 = s2 /\ a1 = a2.
Proof.
  intros Hok H1 H2.
  pose proof (layout_bounds _ _ _ _ _ Hok H1) as Hb1.
  pose proof (layout_bounds _ _ _ _ _ Hok H2) as Hb2.
  destruct (layout_disjoint _ _ _ _ _ _ _ _ Hok H1 H2) as [H|H]; [tauto | lia].
Qed.

Lemma layout_in_mid bp l1 b l2 x :
  In x (layout bp (l1 ++ b :: l2)) <->
  In x (layout bp l1) \/ x = (bp + total l1, fst b, snd b)
  \/ In x (layout (bp + total l1 + fst b) l2).
Proof.
  rewrite layout_app. destruct b as [sz al]. simpl. rewrite in_app_iff. simpl.
  intuition congruence.
Qed.

(* ================================================================== *)
(** * Doubly-linked list segments *)

Lemma lastoff_app p l1 l2 : lastoff p (l1 ++ l2) = lastoff (lastoff p l1) l2.
Proof. revert p; induction l1; simpl; auto. Qed.

Lemma dlseg_unfold m p n r nx :
  dlseg m p (n :: r) nx <->
  GET_PREV m n = p /\ GET_NEXT m n = hdoff r nx /\ dlseg m (n - BASEADDR) r nx.
Proof. reflexivity. Qed.

Lemma dlseg_app m p l1 l2 nx :
  dlseg m p (l1 ++ l2) nx <->
  dlseg m p l1 (hdoff l2 nx) /\ dlseg m (lastoff p l1) l2 nx.
Proof.
  revert p; induction l1 as [|n r IH]; intros p.
  - simpl. tauto.
  - change ((n :: r) ++ l2) with (n :: (r ++ l2)).
    rewrite !dlseg_unfold, IH. simpl lastoff.
    assert (E : hdoff (r ++ l2) nx = hdoff r (hdoff l2 nx)) by (destruct r; reflexivity).
    rewrite E. tauto.
Qed.

Lemma dlseg_frame m m' p l nx :
  (forall n, In n l -> GET_PREV m' n = GET_PREV m n /\ GET_NEXT m' n = GET_NEXT m n) ->
  dlseg m p l nx -> dlseg m' p l nx.
Proof.
  revert p; induction l as [|n r IH]; intros p Hf H; [exact I|].
  rewrite dlseg_unfold in *. destruct H as (H1 & H2 & H3).
  destruct (Hf n (or_introl eq_refl)) as [E1 E2].
  repeat split; [congruence | congruence |].
  apply IH; [|assumption]. intros n' Hn'. apply Hf. right; assumption.
Qed.

(** Changing the prev-link of the first node only. *)
Lemma dlseg_change_prev m m' p p' n r nx :
  ~ In n r ->
  GET_PREV m' n = p' -> GET_NEXT m' n = GET_NEXT m n ->
  (forall x, In x r -> GET_PREV m' x = GET_PREV m x /\ GET_NEXT m' x = GET_NEXT m x) ->
  dlseg m p (n :: r) nx -> dlseg m' p' (n :: r) nx.
Proof.
  intros Hn E1 E2 Hf H. rewrite dlseg_unfold in *. destruct H as (H1 & H2 & H3).
  repeat split; [assumption | congruence |].
  eapply dlseg_frame; eauto.
Qed.

(** Changing the next-link of the last node only. *)
Lemma dlseg_change_next m m' p l t nx nx' :
  ~ In t l ->
  GET_PREV m' t = GET_PREV m t -> GET_NEXT m' t = nx' ->
  (forall x, In x l -> GET_PREV m' x = GET_PREV m x /\ GET_NEXT m' x = GET_NEXT m x) ->
  dlseg m p (l ++ [t]) nx -> dlseg m' p (l ++ [t]) nx'.
Proof.
  intros Hn E1 E2 Hf H. rewrite dlseg_app in *. destruct H as (H1 & H2).
  split.
  - eapply dlseg_frame; eauto.
  - simpl in *. intuition congruence.
Qed.

(** ** Updating the family of lists *)

Lemma upd_same L c l : upd L c l c = l.
Proof. unfold upd. rewrite Z.eqb_refl. reflexivity. Qed.

Lemma upd_other L c l c' : c' <> c -> upd L c l c' = L c'.
Proof. unfold upd. intros H. destruct (Z.eqb_spec c' c); [contradiction|reflexivity]. Qed.

(** ** Size classes *)

Lemma seg_index_range sz : 0 <= seg_index sz < SEG_NUM.
Proof.
  unfold seg_index, SEG_NUM.
  repeat match goal with |- context [if ?b then _ else _] => destruct b end; lia.
Qed.

Ltac consts :=
  unfold first_bp, SEG_NUM, DSIZE, WSIZE, NULL, BASEADDR in *.

(* ================================================================== *)
(** * Consequences of the representation *)

Lemma seg_at_in m bp pa bs b sz al :
  seg_at m bp pa bs -> In (b, sz, al) (layout bp bs) ->
  (exists pa', GET m (HDRP b) = hdr sz pa' al)
  /\ (al = false -> GET m (b + sz - DSIZE) = sz).
Proof.
  revert bp pa; induction bs as [|[sz' al'] r IH]; simpl; intros bp pa H Hin;
    [contradiction|].
  destruct H as (_ & _ & H3 & H4 & H5). destruct Hin as [Hin|Hin].
  - inversion Hin; subst. eauto.
  - eauto.
Qed.

Lemma seg_at_frame m m' bp pa bs :
  (forall b sz al, In (b, sz, al) (layout bp bs) ->
     GET m' (HDRP b) = GET m (HDRP b)
     /\ (al = false -> GET m' (b + sz - DSIZE) = GET m (b + sz - DSIZE))) ->
  seg_at m bp pa bs -> seg_at m' bp pa bs.
Proof.
  revert bp pa; induction bs as [|[sz al] r IH]; simpl; intros bp pa Hf H;
    [exact I|].
  destruct H as (H1 & H2 & H3 & H4 & H5).
  destruct (Hf bp sz al (or_introl eq_refl)) as [E1 E2].
  repeat split; try assumption.
  - congruence.
  - intros Hal. rewrite E2 by assumption. auto.
  - apply IH; [|assumption]. intros. apply Hf. right; assumption.
Qed.

Section Rep.
Variables (st : state) (bs : list block) (L : Z -> list Z).
Hypothesis R : heap_rep st bs L.

Lemma rep_sizes_ok : sizes_ok bs.
Proof. exact (seg_at_sizes _ _ _ _ (rep_blocks _ _ _ R)). Qed.

Lemma rep_brk_bound : mem_brk st <= BASEADDR + 2 ^ 32.
Proof. pose proof (rep_max _ _ _ R). pose proof (rep_brk_max _ _ _ R). lia. Qed.

Lemma rep_block b sz al :
  In (b, sz, al) (layout first_bp bs) ->
  first_bp <= b /\ b + sz <= mem_brk st /\ 16 <= sz /\ sz mod 8 = 0
  /\ b mod 8 = 0 /\ sz <= 2 ^ 32 - 128.
Proof.
  intros Hin. pose proof (layout_bounds _ _ _ _ _ rep_sizes_ok Hin) as Hb.
  pose proof rep_brk_bound as Hbd. rewrite (rep_brk _ _ _ R) in *.
  destruct Hb as (Hb1 & Hb2 & Hb3 & Hb4 & Hb5).
  consts. repeat split; try lia.
  Z.div_mod_to_equations; lia.
Qed.

Lemma rep_block_words b sz al :
  In (b, sz, al) (layout first_bp bs) ->
  GET_SIZE (mem st) (HDRP b) = sz
  /\ GET_ALLOC (mem st) (HDRP b) = (if al then 1 else 0)
  /\ (al = false -> GET (mem st) (b + sz - DSIZE) = sz).
Proof.
  intros Hin. destruct (rep_block _ _ _ Hin) as (_ & _ & _ & Hm & _).
  destruct (seg_at_in _ _ _ _ _ _ _ (rep_blocks _ _ _ R) Hin) as [[pa' E] F].
  unfold GET_SIZE, GET_ALLOC. rewrite E, size_hdr, alloc_hdr by assumption. auto.
Qed.

Lemma rep_node c n :
  0 <= c < SEG_NUM -> In n (L c) ->
  exists sz, In (n, sz, false) (layout first_bp bs) /\ seg_index sz = c
    /\ GET_SIZE (mem st) (HDRP n) = sz
    /\ first_bp <= n /\ n + sz <= mem_brk st /\ 16 <= sz /\ n mod 8 = 0.
Proof.
  intros Hc Hin. destruct (rep_nodes _ _ _ R c n Hc Hin) as (sz & H1 & H2).
  exists sz. pose proof (rep_block _ _ _ H1). pose proof (rep_block_words _ _ _ H1).
  intuition.
Qed.

(** A tag word of a block and the link words of a free block are apart. *)
Lemma tag_vs_link b sz al n szn :
  In (b, sz, al) (layout first_bp bs) -> In (n, szn, false) (layout first_bp bs) ->
  (HDRP b + 4 <= n \/ n + 8 <= HDRP b)
  /\ (al = false -> b + sz - DSIZE + 4 <= n \/ n + 8 <= b + sz - DSIZE).
Proof.
  intros H1 H2. pose proof (rep_block _ _ _ H1). pose proof (rep_block _ _ _ H2).
  destruct (layout_disjoint _ _ _ _ _ _ _ _ rep_sizes_ok H1 H2) as [(-> & -> & ->)|Hd];
    unfold HDRP; consts; split; intros; lia.
Qed.

(** The payload of an allocated block and the link words of a free block
    are apart. *)
Lemma payload_vs_link b sz n szn :
  In (b, sz, true) (layout first_bp bs) -> In (n, szn, false) (layout first_bp bs) ->
  b + sz - WSIZE <= n \/ n + 8 <= b.
Proof.
  intros H1 H2. pose proof (rep_block _ _ _ H1). pose proof (rep_block _ _ _ H2).
  destruct (layout_disjoint _ _ _ _ _ _ _ _ rep_sizes_ok H1 H2) as [(_ & _ & E)|Hd];
    [discriminate | consts; lia].
Qed.

Lemma link_vs_link n1 s1 n2 s2 :
  In (n1, s1, false) (layout first_bp bs) -> In (n2, s2, false) (layout first_bp bs) ->
  n1 = n2 \/ n1 + 8 <= n2 \/ n2 + 8 <= n1.
Proof.
  intros H1 H2. pose proof (rep_block _ _ _ H1). pose proof (rep_block _ _ _ H2).
  destruct (layout_disjoint _ _ _ _ _ _ _ _ rep_sizes_ok H1 H2) as [(-> & _)|Hd]; lia.
Qed.

(** Nodes of lists of different classes are different blocks. *)
Lemma nodes_classes c1 c2 n1 n2 :
  0 <= c1 < SEG_NUM -> 0 <= c2 < SEG_NUM -> c1 <> c2 ->
  In n1 (L c1) -> In n2 (L c2) -> n1 + 8 <= n2 \/ n2 + 8 <= n1.
Proof.
  intros Hc1 Hc2 Hne H1 H2.
  destruct (rep_nodes _ _ _ R _ _ Hc1 H1) as (s1 & I1 & E1).
  destruct (rep_nodes _ _ _ R _ _ Hc2 H2) as (s2 & I2 & E2).
  destruct (link_vs_link _ _ _ _ I1 I2) as [->|Hd]; [|assumption].
  destruct (layout_functional _ _ _ _ _ _ _ rep_sizes_ok I1 I2) as [-> _].
  congruence.
Qed.
End Rep.

(* ================================================================== *)
(** * Changing one free list *)

(** If a store changes only the directory slot of class [c] and link words
    of free blocks of class [c], and the list of class [c] then holds [l'],
    the state represents the same blocks with that list replaced, and no
    payload byte of an allocated block has changed. *)
Lemma heap_rep_update_list st bs L c l' m' :
  heap_rep st bs L -> 0 <= c < SEG_NUM ->
  (forall x, ~ (BASEADDR + c * DSIZE <= x < BASEADDR + c * DSIZE + 8) ->
             ~ linked (L c ++ l') x -> load8 m' x = load8 (mem st) x) ->
  seg_list m' c l' ->
  (forall n, In n l' ->
     exists sz, In (n, sz, false) (layout first_bp bs) /\ seg_index sz = c) ->
  NoDup l' ->
  heap_rep (set_mem st m') bs (upd L c l') /\ meta_only bs (mem st) m'.
Proof.
  intros R Hc Hfr Hl Hn Hnd.
  assert (Hall : forall n, In n (L c ++ l') ->
            exists sz, In (n, sz, false) (layout first_bp bs) /\ seg_index sz = c).
  { intros n Hin. apply in_app_or in Hin. destruct Hin as [Hin|Hin]; [|auto].
    exact (rep_nodes _ _ _ R c n Hc Hin). }
  assert (Hw : forall a, (a + 4 <= BASEADDR + c * DSIZE \/ BASEADDR + c * DSIZE + 8 <= a) ->
            (forall n, In n (L c ++ l') -> a + 4 <= n \/ n + 8 <= a) ->
            GET m' a = GET (mem st) a).
  { intros a Ha Hb. apply GET_ext. intros x Hx. apply Hfr; [lia|].
    intros (n & Hin & Hr). specialize (Hb n Hin). lia. }
  assert (Hlow : forall a, a + 4 <= first_bp -> 
            (a + 4 <= BASEADDR + c * DSIZE \/ BASEADDR + c * DSIZE + 8 <= a) ->
            GET m' a = GET (mem st) a).
  { intros a Ha Hb. apply Hw; [assumption|]. intros n Hin.
    destruct (Hall n Hin) as (sz & Hi & _). pose proof (rep_block _ _ _ R _ _ _ Hi). lia. }
  split.
  - constructor; cbn [mem mem_brk mem_start_brk mem_max_addr heap_listp seg_list_start set_mem];
      try solve [apply R].
    + rewrite Hlow; [apply R | |]; rewrite (rep_heap_listp _ _ _ R);
        unfold HDRP; consts; lia.
    + rewrite Hlow; [apply R | |]; rewrite (rep_heap_listp _ _ _ R);
        unfold HDRP; consts; lia.
    + apply seg_at_frame with (m := mem st); [|apply R].
      intros b sz al Hin. pose proof (rep_block _ _ _ R _ _ _ Hin) as Hb. split.
      * apply Hw; [unfold HDRP; consts; lia|]. intros n Hn'.
        destruct (Hall n Hn') as (szn & Hi & _).
        pose proof (tag_vs_link _ _ _ R _ _ _ _ _ Hin Hi). lia.
      * intros Hal. apply Hw; [consts; lia|]. intros n Hn'.
        destruct (Hall n Hn') as (szn & Hi & _).
        pose proof (tag_vs_link _ _ _ R _ _ _ _ _ Hin Hi) as [_ Ht]. 
        specialize (Ht Hal). lia.
    + rewrite Hw; [apply R | |].
      * pose proof (rep_brk _ _ _ R). pose proof (total_nonneg _ (rep_sizes_ok _ _ _ R)).
        unfold HDRP; consts; lia.
      * intros n Hn'. destruct (Hall n Hn') as (szn & Hi & _).
        pose proof (rep_block _ _ _ R _ _ _ Hi). unfold HDRP; consts; lia.
    + intros c' Hc'. unfold upd. destruct (Z.eqb_spec c' c) as [->|Hne]; [assumption|].
      destruct (rep_lists _ _ _ R c' Hc') as [Hs Hd]. split.
      * rewrite <- Hs. apply GET64_ext. intros x Hx. apply Hfr; [consts; lia|].
        intros (n & Hin & Hr). destruct (Hall n Hin) as (szn & Hi & _).
        pose proof (rep_block _ _ _ R _ _ _ Hi). consts; lia.
      * unfold dll in *. apply dlseg_frame with (m := mem st); [|assumption].
        intros n Hin.
        assert (Hd' : forall n', In n' (L c ++ l') -> n + 8 <= n' \/ n' + 8 <= n).
        { intros n' Hin'. destruct (Hall n' Hin') as (s' & Hi' & Hc2).
          destruct (rep_nodes _ _ _ R _ _ Hc' Hin) as (s & Hi & Hc1).
          destruct (link_vs_link _ _ _ R _ _ _ _ Hi Hi') as [->|Hd']; [|lia].
          destruct (layout_functional _ _ _ _ _ _ _ (rep_sizes_ok _ _ _ R) Hi Hi') as [-> _].
          congruence. }
        destruct (rep_node _ _ _ R _ _ Hc' Hin) as (s & _ & _ & _ & Hge & _).
        unfold GET_PREV, GET_NEXT.
        split; apply Hw; try (consts; lia); intros n' Hin'; specialize (Hd' n' Hin'); consts; lia.
    + intros c' n Hc' Hin. unfold upd in Hin.
      destruct (Z.eqb_spec c' c) as [->|Hne]; [auto | apply (rep_nodes _ _ _ R); assumption].
    + intros c' Hc'. unfold upd.
      destruct (Z.eqb_spec c' c) as [->|Hne]; [auto | apply (rep_nodup _ _ _ R); assumption].
  - intros b sz x Hin Hx. pose proof (rep_block _ _ _ R _ _ _ Hin). apply Hfr; [consts; lia|].
    intros (n & Hn' & Hr). destruct (Hall n Hn') as (szn & Hi & _).
    pose proof (payload_vs_link _ _ _ R _ _ _ _ Hin Hi). consts; lia.
Qed.

Lemma wrap32_small x : 0 <= x < 2 ^ 32 -> x mod 2 ^ 32 = x.
Proof. apply Z.mod_small. Qed.

Lemma wrap64_small x : 0 <= x < 2 ^ 64 -> wrap64 x = x.
Proof. apply Z.mod_small. Qed.

Lemma hd_app_cons (l1 : list Z) n l2 : l1 <> [] -> hd 0 (l1 ++ n :: l2) = hd 0 l1.
Proof. destruct l1; [congruence | reflexivity]. Qed.

Lemma nodup_app_disjoint (l1 l2 : list Z) x :
  NoDup (l1 ++ l2) -> In x l1 -> In x l2 -> False.
Proof.
  induction l1 as [|a r IH]; simpl; intros Hnd H1 H2; [contradiction|].
  inversion Hnd as [|? ? Hn Hr]; subst. destruct H1 as [->|H1].
  - apply Hn. apply in_or_app. auto.
  - auto.
Qed.

Section Nodes.
Variables (st : state) (bs : list block) (L : Z -> list Z) (c : Z).
Hypothesis R : heap_rep st bs L.
Hypothesis Hc : 0 <= c < SEG_NUM.

Lemma node_range x : In x (L c) ->
  first_bp <= x /\ x + 16 <= BASEADDR + 2 ^ 32 /\ x mod 8 = 0.
Proof.
  intros Hin. destruct (rep_node _ _ _ R _ _ Hc Hin) as (s & _ & _ & _ & H1 & H2 & H3 & H4).
  pose proof (rep_brk_bound _ _ _ R). lia.
Qed.

Lemma node_apart x y : In x (L c) -> In y (L c) -> x = y \/ x + 8 <= y \/ y + 8 <= x.
Proof.
  intros Hx Hy.
  destruct (rep_nodes _ _ _ R _ _ Hc Hx) as (s1 & I1 & _).
  destruct (rep_nodes _ _ _ R _ _ Hc Hy) as (s2 & I2 & _).
  exact (link_vs_link _ _ _ R _ _ _ _ I1 I2).
Qed.

Lemma node_slot n :
  In n (L c) -> get_seg_listp st (GET_SIZE (mem st) (HDRP n)) = BASEADDR + c * DSIZE.
Proof.
  intros Hin. destruct (rep_node _ _ _ R _ _ Hc Hin) as (s & _ & E1 & E2 & _).
  unfold get_seg_listp. rewrite E2, E1, (rep_seg_start _ _ _ R). reflexivity.
Qed.
End Nodes.

(** [remove_free_block] unlinks a node of the list of its class. *)
Lemma remove_free_block_rep st bs L c l1 n l2 :
  heap_rep st bs L -> 0 <= c < SEG_NUM -> L c = l1 ++ n :: l2 ->
  heap_rep (remove_free_block st n) bs (upd L c (l1 ++ l2))
  /\ meta_only bs (mem st) (mem (remove_free_block st n)).
Proof.
  intros R Hc E.
  assert (Hin : forall x, In x (l1 ++ n :: l2) -> In x (L c)) by (rewrite E; auto).
  pose proof (node_range _ _ _ _ R Hc) as HR.
  pose proof (node_apart _ _ _ _ R Hc) as HA.
  pose proof (rep_nodup _ _ _ R c Hc) as Hnd. rewrite E in Hnd.
  destruct (rep_lists _ _ _ R c Hc) as [Hs Hd]. rewrite E in Hs, Hd.
  unfold dll in Hd. apply dlseg_app in Hd. destruct Hd as [Hd1 Hd2].
  rewrite dlseg_unfold in Hd2. destruct Hd2 as (Hp & Hnx & Hd2).
  assert (Hnin : In n (L c)) by (apply Hin, in_elt).
  unfold remove_free_block. cbv zeta. rewrite (node_slot _ _ _ _ R Hc n Hnin).
  assert (Hsub : forall x, In x (l1 ++ l2) -> In x (L c)).
  { intros x Hx. apply Hin. apply in_app_or in Hx. apply in_or_app. simpl. tauto. }
  assert (Hnd' : NoDup (l1 ++ l2)) by (apply NoDup_remove_1 in Hnd; assumption).
  assert (Hn' : forall x, In x (l1 ++ l2) ->
            exists sz, In (x, sz, false) (layout first_bp bs) /\ seg_index sz = c).
  { intros x Hx. apply (rep_nodes _ _ _ R c x Hc). auto. }
  assert (Hlk : forall x y, ~ linked (L c ++ l1 ++ l2) x -> In y (L c) -> x < y \/ y + 8 <= x).
  { intros x y Hx Hy. destruct (Z_lt_ge_dec x y); [auto|]. destruct (Z_le_gt_dec (y + 8) x); [auto|].
    exfalso. apply Hx. exists y. split; [apply in_or_app; auto | lia]. }
  rewrite Hp, Hnx.
  destruct l1 as [|a l1'] using rev_ind.
  - (* n is the first node *)
    simpl lastoff. rewrite Z.eqb_refl. simpl app in *.
    destruct l2 as [|n2 r].
    + simpl hdoff. rewrite Z.eqb_refl.
      apply heap_rep_update_list; auto; cbn [mem set_mem].
      * intros x Hx _. apply load8_PUT64_other. consts; lia.
      * split; [|exact I]. apply GET64_PUT64_same. lia.
    + simpl hdoff.
      assert (Hn2 : In n2 (L c)) by (apply Hin; simpl; auto).
      pose proof (HR n2 Hn2) as Hr2.
      destruct (Z.eqb_spec (n2 - BASEADDR) 0) as [Hz|Hz]; [consts; lia|].
      unfold OFFSET_REAL, SET_PREV.
      replace (n2 - BASEADDR + BASEADDR) with n2 by lia.
      rewrite wrap64_small by (consts; lia).
      apply heap_rep_update_list; auto; cbn [mem set_mem].
      * intros x Hx Hl. specialize (Hlk x n2 Hl Hn2).
        rewrite load8_PUT_other by lia. apply load8_PUT64_other. consts; lia.
      * split.
        -- rewrite GET64_PUT_other by (consts; lia). apply GET64_PUT64_same. consts; lia.
        -- unfold dll. eapply dlseg_change_prev; [| | | |exact Hd2].
           ++ inversion Hnd as [|? ? _ Hnd2]; subst. inversion Hnd2; subst. assumption.
           ++ unfold GET_PREV. rewrite GET_PUT_same. reflexivity.
           ++ unfold GET_NEXT. rewrite GET_PUT_other, GET_PUT64_other by (consts; lia).
              reflexivity.
           ++ intros x Hx. assert (Hxc : In x (L c)) by (apply Hin; simpl; auto).
              pose proof (HR x Hxc). destruct (HA x n2 Hxc Hn2) as [->|Hd].
              { exfalso. inversion Hnd as [|? ? _ Hnd2]; subst. inversion Hnd2; subst. contradiction. }
              unfold GET_PREV, GET_NEXT.
              rewrite !GET_PUT_other, !GET_PUT64_other by (consts; lia). auto.
  - (* n has a predecessor a *)
    try clear IHl1'. rewrite lastoff_app. simpl lastoff.
    assert (Ha : In a (L c)) by (apply Hin; rewrite !in_app_iff; simpl; auto).
    pose proof (HR a Ha) as Hra.
    destruct (Z.eqb_spec (a - BASEADDR) 0) as [Hz|Hz]; [consts; lia|].
    unfold OFFSET_REAL, SET_PREV, SET_NEXT.
    replace (a - BASEADDR + BASEADDR) with a by lia.
    assert (Hnda : ~ In a l1').
    { rewrite <- app_assoc in Hnd. apply NoDup_remove_2 in Hnd.
      intros Hx. apply Hnd. apply in_or_app. auto. }
    rewrite <- app_assoc in Hs. 
    destruct l2 as [|n2 r].
    + simpl hdoff. rewrite Z.eqb_refl. rewrite app_nil_r in *.
      apply heap_rep_update_list; auto; cbn [mem set_mem].
      * intros x Hx Hl. specialize (Hlk x a Hl Ha). apply load8_PUT_other. consts; lia.
      * split.
        -- rewrite GET64_PUT_other by (consts; lia). rewrite Hs.
           destruct l1'; reflexivity.
        -- unfold dll. eapply dlseg_change_next; [| | | |exact Hd1]; auto.
           ++ unfold GET_PREV. rewrite GET_PUT_other by (consts; lia). reflexivity.
           ++ unfold GET_NEXT. rewrite GET_PUT_same. reflexivity.
           ++ intros x Hx. assert (Hxc : In x (L c)) by (apply Hin; rewrite !in_app_iff; auto).
              pose proof (HR x Hxc). destruct (HA x a Hxc Ha) as [->|Hd]; [contradiction|].
              unfold GET_PREV, GET_NEXT.
              rewrite !GET_PUT_other by (consts; lia). auto.
    + simpl hdoff.
      assert (Hn2 : In n2 (L c)) by (apply Hin; rewrite !in_app_iff; simpl; auto).
      pose proof (HR n2 Hn2) as Hr2.
      destruct (Z.eqb_spec (n2 - BASEADDR) 0) as [Hz2|Hz2]; [consts; lia|].
      replace (n2 - BASEADDR + BASEADDR) with n2 by lia.
      assert (Han2 : a + 8 <= n2 \/ n2 + 8 <= a).
      { destruct (HA a n2 Ha Hn2) as [->|Hd]; [|assumption].
        exfalso. rewrite <- app_assoc in Hnd. apply NoDup_remove_2 in Hnd.
        apply Hnd. rewrite in_app_iff. simpl. auto. }
      apply heap_rep_update_list; auto; cbn [mem set_mem].
      * intros x Hx Hl. pose proof (Hlk x a Hl Ha). pose proof (Hlk x n2 Hl Hn2).
        rewrite !load8_PUT_other by (consts; lia). reflexivity.
      * split.
        -- rewrite !GET64_PUT_other by (consts; lia). rewrite Hs.
           rewrite <- app_assoc. destruct l1'; reflexivity.
        -- unfold dll. apply dlseg_app. split.
           ++ simpl hdoff. eapply dlseg_change_next; [| | | |exact Hd1]; auto.
              ** unfold GET_PREV. rewrite !GET_PUT_other by (consts; lia). reflexivity.
              ** unfold GET_NEXT. rewrite GET_PUT_same. apply wrap32_small. consts; lia.
              ** intros x Hx. assert (Hxc : In x (L c)) by (apply Hin; rewrite !in_app_iff; auto).
                 pose proof (HR x Hxc). destruct (HA x a Hxc Ha) as [->|Hd]; [contradiction|].
                 assert (x + 8 <= n2 \/ n2 + 8 <= x).
                 { destruct (HA x n2 Hxc Hn2) as [->|Hd3]; [|assumption].
                   exfalso. rewrite <- app_assoc in Hnd.
                   apply (nodup_app_disjoint _ _ n2 Hnd Hx). simpl. auto. }
                 unfold GET_PREV, GET_NEXT.
                 rewrite !GET_PUT_other by (consts; lia). auto.
           ++ rewrite lastoff_app. simpl lastoff.
              assert (Hnd2 : NoDup (n2 :: r)).
              { apply NoDup_app_remove_l in Hnd. inversion Hnd; assumption. }
              eapply dlseg_change_prev; [| | | |exact Hd2].
              ** inversion Hnd2; assumption.
              ** unfold GET_PREV. rewrite GET_PUT_other by (consts; lia).
                 rewrite GET_PUT_same. apply wrap32_small. consts; lia.
              ** unfold GET_NEXT. rewrite !GET_PUT_other by (consts; lia). reflexivity.
              ** intros x Hx. assert (Hxc : In x (L c)) by (apply Hin; rewrite !in_app_iff; simpl; auto).
                 pose proof (HR x Hxc). 
                 assert (x + 8 <= n2 \/ n2 + 8 <= x).
                 { destruct (HA x n2 Hxc Hn2) as [->|Hd]; [|assumption].
                   inversion Hnd2; contradiction. }
                 assert (x + 8 <= a \/ a + 8 <= x).
                 { destruct (HA x a Hxc Ha) as [->|Hd]; [|assumption].
                   exfalso. rewrite <- app_assoc in Hnd. apply NoDup_remove_2 in Hnd.
                   apply Hnd. rewrite !in_app_iff. simpl. auto. }
                 unfold GET_PREV, GET_NEXT.
                 rewrite !GET_PUT_other by (consts; lia). auto.
Qed.

(** [add_free_block] pushes a free block on the list of its class. *)
Lemma add_free_block_rep st bs L n sz :
  heap_rep st bs L -> In (n, sz, false) (layout first_bp bs) ->
  ~ In n (L (seg_index sz)) ->
  heap_rep (add_free_block st n) bs
           (upd L (seg_index sz) (n :: L (seg_index sz)))
  /\ meta_only bs (mem st) (mem (add_free_block st n)).
Proof.
  intros R Hi Hnin. set (c := seg_index sz) in *.
  assert (Hc : 0 <= c < SEG_NUM) by apply seg_index_range.
  pose proof (node_range _ _ _ _ R Hc) as HR.
  pose proof (rep_block _ _ _ R _ _ _ Hi) as Hb.
  pose proof (rep_brk_bound _ _ _ R) as Hbb.
  destruct (rep_block_words _ _ _ R _ _ _ Hi) as (Hsz & _).
  destruct (rep_lists _ _ _ R c Hc) as [Hs Hd].
  assert (HA : forall x, In x (L c) -> x + 8 <= n \/ n + 8 <= x).
  { intros x Hx. destruct (rep_nodes _ _ _ R _ _ Hc Hx) as (s1 & I1 & _).
    destruct (link_vs_link _ _ _ R _ _ _ _ I1 Hi) as [->|Hd']; [contradiction | assumption]. }
  assert (Hn' : forall x, In x (n :: L c) ->
            exists s, In (x, s, false) (layout first_bp bs) /\ seg_index s = c).
  { intros x [<-|Hx]; [eauto | apply (rep_nodes _ _ _ R c x Hc Hx)]. }
  assert (Hnd' : NoDup (n :: L c)) by (constructor; [assumption | apply (rep_nodup _ _ _ R c Hc)]).
  assert (Hlk : forall x y, ~ linked (L c ++ n :: L c) x -> In y (n :: L c) -> x < y \/ y + 8 <= x).
  { intros x y Hx Hy. destruct (Z_lt_ge_dec x y); [auto|]. destruct (Z_le_gt_dec (y + 8) x); [auto|].
    exfalso. apply Hx. exists y. split; [apply in_or_app; auto | lia]. }
  unfold add_free_block. cbv zeta. rewrite Hsz.
  unfold get_seg_listp. rewrite (rep_seg_start _ _ _ R). fold c. rewrite Hs.
  unfold SET_PREV, SET_NEXT.
  destruct (L c) as [|f r] eqn:EL.
  - rewrite Z.eqb_refl.
    apply heap_rep_update_list; auto; rewrite ?EL; cbn [mem set_mem]; auto.
    + intros x Hx Hl. specialize (Hlk x n Hl (or_introl eq_refl)).
      rewrite !load8_PUT_other by (consts; lia). apply load8_PUT64_other. consts; lia.
    + split.
      * rewrite !GET64_PUT_other by (consts; lia). apply GET64_PUT64_same. consts; lia.
      * unfold dll. rewrite dlseg_unfold. unfold GET_PREV, GET_NEXT. simpl hdoff.
        rewrite GET_PUT_same. rewrite GET_PUT_other, GET_PUT_same by (consts; lia).
        repeat split; reflexivity.
  - assert (Hf : In f (f :: r)) by (left; reflexivity).
    pose proof (HR f Hf) as Hrf. pose proof (HA f Hf) as Haf.
    destruct (Z.eqb_spec f 0) as [Hz|Hz]; [consts; lia|].
    apply heap_rep_update_list; auto; rewrite ?EL; cbn [mem set_mem]; auto.
    + intros x Hx Hl. pose proof (Hlk x n Hl (or_introl eq_refl)).
      pose proof (Hlk x f Hl (or_intror Hf)).
      rewrite load8_PUT_other, load8_PUT64_other, !load8_PUT_other by (consts; lia).
      reflexivity.
    + split.
      * rewrite !GET64_PUT_other by (consts; lia). apply GET64_PUT64_same. consts; lia.
      * unfold dll in *. rewrite dlseg_unfold. unfold GET_PREV at 1, GET_NEXT at 1.
        simpl hdoff. split; [|split].
        -- rewrite GET_PUT_other, GET_PUT64_other, GET_PUT_other, GET_PUT_same by (consts; lia).
           reflexivity.
        -- rewrite GET_PUT_other, GET_PUT64_other, GET_PUT_same by (consts; lia).
           rewrite wrap64_small by (consts; lia). apply wrap32_small. consts; lia.
        -- eapply dlseg_change_prev; [| | | |exact Hd].
           ++ pose proof (rep_nodup _ _ _ R c Hc) as Hnd. rewrite EL in Hnd.
              inversion Hnd; assumption.
           ++ unfold GET_PREV. rewrite GET_PUT_same.
              rewrite wrap64_small by (consts; lia). apply wrap32_small. consts; lia.
           ++ unfold GET_NEXT. 
              rewrite GET_PUT_other, GET_PUT64_other, !GET_PUT_other by (consts; lia).
              reflexivity.
           ++ intros x Hx. assert (Hxc : In x (f :: r)) by (right; assumption).
              pose proof (HR x Hxc). pose proof (HA x Hxc).
              assert (x + 8 <= f \/ f + 8 <= x).
              { rewrite <- EL in Hxc, Hf.
                destruct (node_apart _ _ _ _ R Hc x f Hxc Hf) as [->|Hd']; [|assumption].
                pose proof (rep_nodup _ _ _ R c Hc) as Hnd. rewrite EL in Hnd.
                inversion Hnd; contradiction. }
              unfold GET_PREV, GET_NEXT.
              rewrite !GET_PUT_other, !GET_PUT64_other, !GET_PUT_other by (consts; lia). auto.
Qed.

Lemma last_alloc_nonempty pa pa' l : l <> [] -> last_alloc pa l = last_alloc pa' l.
Proof. destruct l as [|[s a] r]; [congruence | reflexivity]. Qed.

(** Membership forms of the two list operations. *)
Lemma remove_free_block_mem st bs L n sz :
  heap_rep st bs L -> In (n, sz, false) (layout first_bp bs) ->
  In n (L (seg_index sz)) ->
  exists L', heap_rep (remove_free_block st n) bs L'
    /\ (forall c x, 0 <= c < SEG_NUM -> In x (L' c) <-> In x (L c) /\ x <> n)
    /\ meta_only bs (mem st) (mem (remove_free_block st n)).
Proof.
  intros R Hi Hin. set (c := seg_index sz) in *.
  assert (Hc : 0 <= c < SEG_NUM) by apply seg_index_range.
  destruct (in_split _ _ Hin) as (l1 & l2 & E).
  destruct (remove_free_block_rep _ _ _ _ _ _ _ R Hc E) as [R' M].
  exists (upd L c (l1 ++ l2)). split; [assumption|]. split; [|assumption].
  intros c' x Hc'. unfold upd. destruct (Z.eqb_spec c' c) as [->|Hne].
  - pose proof (rep_nodup _ _ _ R c Hc) as Hnd. rewrite E in *.
    pose proof (NoDup_remove_2 _ _ _ Hnd) as Hn2.
    rewrite !in_app_iff in *. simpl. split.
    + intros H. split; [tauto|]. intros ->. tauto.
    + intros [[H|[H|H]] Hx]; [tauto | congruence | tauto].
  - split; [|tauto]. intros H. split; [assumption|]. intros ->.
    destruct (nodes_classes _ _ _ R c' c n n Hc' Hc Hne H Hin); lia.
Qed.

Lemma add_free_block_mem st bs L n sz :
  heap_rep st bs L -> In (n, sz, false) (layout first_bp bs) ->
  ~ In n (L (seg_index sz)) ->
  exists L', heap_rep (add_free_block st n) bs L'
    /\ (forall c x, 0 <= c < SEG_NUM ->
          In x (L' c) <-> In x (L c) \/ (x = n /\ c = seg_index sz))
    /\ meta_only bs (mem st) (mem (add_free_block st n)).
Proof.
  intros R Hi Hin. destruct (add_free_block_rep _ _ _ _ _ R Hi Hin) as [R' M].
  eexists. split; [exact R'|]. split; [|assumption].
  intros c x Hc. unfold upd. destruct (Z.eqb_spec c (seg_index sz)) as [->|Hne].
  - simpl. intuition.
  - intuition.
Qed.

(* ================================================================== *)
(** * Rewriting the tags of a region of blocks *)

Lemma seg_at_below m m' bp pa l :
  sizes_ok l ->
  (forall x, bp - 4 <= x < bp + total l - 4 -> load8 m' x = load8 m x) ->
  seg_at m bp pa l -> seg_at m' bp pa l.
Proof.
  intros Hok Hf. apply seg_at_frame. intros b s a Hin.
  pose proof (layout_bounds _ _ _ _ _ Hok Hin) as Hb. unfold HDRP. consts.
  split; [|intros _]; apply GET_ext; intros x Hx; apply Hf; lia.
Qed.

Lemma seg_at_above m m' bp pa pa' l :
  sizes_ok l ->
  (forall x, bp <= x -> load8 m' x = load8 m x) ->
  GET m' (HDRP bp) = first_hdr pa' l ->
  seg_at m bp pa l -> seg_at m' bp pa' l.
Proof.
  intros Hok Hf Hh H. destruct l as [|[s a] r]; [exact I|].
  cbn [seg_at first_hdr] in H, Hh |- *. destruct H as (H1 & H2 & H3 & H4 & H5).
  inversion Hok as [|? ? _ Hok']; subst.
  repeat split; auto.
  - intros Ha. transitivity (GET m (bp + s - DSIZE)); [|auto].
    apply GET_ext. intros x Hx. apply Hf. consts; lia.
  - revert H5. apply seg_at_frame. intros b s' a' Hin.
    pose proof (layout_bounds _ _ _ _ _ Hok' Hin) as Hb. unfold HDRP. consts.
    split; [|intros _]; apply GET_ext; intros x Hx; apply Hf; lia.
Qed.

Lemma heap_rep_region st bs L l1 mid mid' l2 m' :
  heap_rep st bs L -> bs = l1 ++ mid ++ l2 -> total mid' = total mid ->
  (forall x, x < first_bp + total l1 - 4 \/ first_bp + total l1 + total mid <= x ->
             load8 m' x = load8 (mem st) x) ->
  seg_at m' (first_bp + total l1) (last_alloc true l1) mid' ->
  GET m' (HDRP (first_bp + total l1 + total mid))
    = first_hdr (last_alloc (last_alloc true l1) mid') l2 ->
  (forall c n s, 0 <= c < SEG_NUM -> In n (L c) ->
                 ~ In (n, s, false) (layout (first_bp + total l1) mid)) ->
  heap_rep (set_mem st m') (l1 ++ mid' ++ l2) L
  /\ (forall b s x, In (b, s, true) (layout first_bp bs) ->
        ~ In (b, s, true) (layout (first_bp + total l1) mid) ->
        b <= x < b + s - WSIZE -> load8 m' x = load8 (mem st) x).
Proof.
  intros R E Ht Hf Hmid Hnext Hnodes.
  pose proof (rep_sizes_ok _ _ _ R) as Hok. rewrite E in Hok.
  apply sizes_ok_app in Hok. destruct Hok as [Hok1 Hok]. 
  apply sizes_ok_app in Hok. destruct Hok as [Hokm Hok2].
  pose proof (seg_at_sizes _ _ _ _ Hmid) as Hokm'.
  pose proof (total_nonneg _ Hok1) as Hn1. pose proof (total_nonneg _ Hokm) as Hnm.
  pose proof (total_nonneg _ Hok2) as Hn2.
  pose proof (rep_blocks _ _ _ R) as Hb. rewrite E in Hb.
  apply seg_at_app in Hb. destruct Hb as [Hb1 Hb]. 
  apply seg_at_app in Hb. destruct Hb as [Hbm Hb2].
  pose proof (rep_brk _ _ _ R) as Hbrk. rewrite E, !total_app in Hbrk.
  set (lo := first_bp + total l1) in *. 
  (* where the nodes of the lists are *)
  assert (Hwhere : forall b s a, In (b, s, a) (layout first_bp bs) ->
            ~ In (b, s, a) (layout lo mid) ->
            (In (b, s, a) (layout first_bp l1) /\ b + s <= lo)
            \/ (In (b, s, a) (layout (lo + total mid) l2) /\ lo + total mid <= b)).
  { intros b s a Hin Hnm'. rewrite E, !layout_app, !in_app_iff in Hin. fold lo in Hin.
    destruct Hin as [Hin|[Hin|Hin]]; [left | contradiction | right]; split; auto.
    - pose proof (layout_bounds _ _ _ _ _ Hok1 Hin). unfold lo. lia.
    - pose proof (layout_bounds _ _ _ _ _ Hok2 Hin). lia. }
  assert (Hkeep : forall b s a, In (b, s, a) (layout first_bp bs) ->
            ~ In (b, s, a) (layout lo mid) ->
            In (b, s, a) (layout first_bp (l1 ++ mid' ++ l2))).
  { intros b s a Hin Hnm'. rewrite !layout_app, !in_app_iff. fold lo. rewrite Ht.
    destruct (Hwhere _ _ _ Hin Hnm') as [[H _]|[H _]]; auto. }
  split.
  - constructor; cbn [mem mem_brk mem_start_brk mem_max_addr heap_listp seg_list_start set_mem];
      try solve [apply R].
    + rewrite <- (rep_prologue_hdr _ _ _ R). apply GET_ext. intros x Hx. apply Hf.
      rewrite (rep_heap_listp _ _ _ R) in Hx. unfold HDRP in Hx. unfold lo. consts. lia.
    + rewrite <- (rep_prologue_ftr _ _ _ R). apply GET_ext. intros x Hx. apply Hf.
      rewrite (rep_heap_listp _ _ _ R) in Hx. unfold lo. consts. lia.
    + apply seg_at_app. split; [|apply seg_at_app; split].
      * revert Hb1. apply seg_at_below; [assumption|]. intros x Hx. apply Hf. fold lo. lia.
      * exact Hmid.
      * fold lo. rewrite Ht. revert Hb2. apply seg_at_above; [assumption| |].
        -- intros x Hx. apply Hf. fold lo. lia.
        -- exact Hnext.
    + rewrite !total_app, Ht. exact Hbrk.
    + rewrite Hbrk. rewrite !last_alloc_app. destruct l2 as [|b2 r2].
      * simpl total. rewrite Z.add_0_r, Z.add_assoc. fold lo. rewrite Hnext. reflexivity.
      * rewrite (last_alloc_nonempty _ (last_alloc (last_alloc true l1) mid) (b2 :: r2))
          by discriminate.
        rewrite <- !last_alloc_app, <- E. rewrite <- (rep_epilogue _ _ _ R).
        rewrite (rep_brk _ _ _ R), E, !total_app. apply GET_ext. intros x Hx. apply Hf.
        inversion Hok2 as [|? ? [Hs _] Hr]; subst. pose proof (total_nonneg _ Hr).
        destruct b2 as [s2 a2]. cbn [total fst] in *. unfold HDRP in Hx. fold lo. consts. lia.
    + intros c Hc. destruct (rep_lists _ _ _ R c Hc) as [Hs Hd]. split.
      * rewrite <- Hs. apply GET64_ext. intros x Hx. apply Hf. unfold lo. consts. lia.
      * unfold dll in *. revert Hd. apply dlseg_frame. intros n Hin.
        destruct (rep_nodes _ _ _ R c n Hc Hin) as (s & Hi & _).
        pose proof (rep_block _ _ _ R _ _ _ Hi) as Hbk.
        unfold GET_PREV, GET_NEXT.
        destruct (Hwhere _ _ _ Hi (Hnodes c n s Hc Hin)) as [[_ H]|[_ H]];
          split; apply GET_ext; intros x Hx; apply Hf; fold lo; consts; lia.
    + intros c n Hc Hin. destruct (rep_nodes _ _ _ R c n Hc Hin) as (s & Hi & Hcl).
      exists s. split; [|assumption]. apply Hkeep; [assumption | exact (Hnodes c n s Hc Hin)].
  - intros b s x Hin Hnm' Hx. apply Hf. fold lo.
    pose proof (rep_block _ _ _ R _ _ _ Hin) as Hbk.
    destruct (Hwhere _ _ _ Hin Hnm') as [[_ H]|[_ H]]; consts; lia.
Qed.

(* ================================================================== *)
(** * Reading the tags *)

Lemma GET_SIZE_hdr m a s pa al :
  GET m a = hdr s pa al -> s mod 8 = 0 -> GET_SIZE m a = s.
Proof. intros E H. unfold GET_SIZE. rewrite E. apply size_hdr; assumption. Qed.

Lemma GET_SIZE_word m a s : GET m a = s -> s mod 8 = 0 -> GET_SIZE m a = s.
Proof.
  intros E H. apply (GET_SIZE_hdr m a s false false); [|assumption].
  unfold hdr. lia.
Qed.

Lemma GET_ALLOC_hdr m a s pa al :
  GET m a = hdr s pa al -> s mod 8 = 0 -> GET_ALLOC m a = if al then 1 else 0.
Proof. intros E H. unfold GET_ALLOC. rewrite E. apply alloc_hdr; assumption. Qed.

Lemma GET_PREV_ALLOC_hdr m p s pa al :
  GET m (HDRP p) = hdr s pa al -> s mod 8 = 0 ->
  GET_PREV_ALLOC m p = if pa then 2 else 0.
Proof. intros E H. unfold GET_PREV_ALLOC. rewrite E. apply prev_alloc_hdr; assumption. Qed.

Lemma PACK_free s (pa : bool) : s mod 8 = 0 ->
  PACK s (if pa then 2 else 0) = hdr s pa false.
Proof.
  intros H. rewrite <- PACK_hdr by assumption. f_equal. destruct pa; reflexivity.
Qed.

Lemma PACK_alloc s (pa : bool) : s mod 8 = 0 ->
  PACK s (Z.lor (if pa then 2 else 0) 1) = hdr s pa true.
Proof.
  intros H. rewrite <- PACK_hdr by assumption. f_equal. destruct pa; reflexivity.
Qed.

Lemma PACK_0 s : s mod 8 = 0 -> PACK s 0 = s.
Proof. intros H. unfold PACK. apply Z.lor_0_r. Qed.

Lemma PACK_2 s : s mod 8 = 0 -> PACK s 2 = hdr s true false.
Proof. intros H. apply (PACK_free s true H). Qed.

Lemma first_hdr_shape (l : list block) : sizes_ok l ->
  exists s al, (forall pa', first_hdr pa' l = hdr s pa' al)
    /\ s mod 8 = 0 /\ 0 <= s <= total l.
Proof.
  intros Hok. destruct l as [|[s a] r].
  - exists 0, true. cbn [first_hdr total]. repeat split; try lia; reflexivity.
  - inversion Hok as [|? ? [H1 H2] Hr]; subst. cbn [fst] in H1, H2.
    pose proof (total_nonneg _ Hr).
    exists s, a. cbn [first_hdr total]. repeat split; try lia; reflexivity.
Qed.

(** What a state that represents [l1 ++ (sz, al) :: l2] holds around the
    block in the middle. *)
Lemma rep_mid st l1 sz al l2 L :
  heap_rep st (l1 ++ (sz, al) :: l2) L ->
  let p := first_bp + total l1 in
  GET (mem st) (HDRP p) = hdr sz (last_alloc true l1) al
  /\ (al = false -> GET (mem st) (p + sz - DSIZE) = sz)
  /\ GET (mem st) (HDRP (p + sz)) = first_hdr al l2
  /\ In (p, sz, al) (layout first_bp (l1 ++ (sz, al) :: l2))
  /\ first_bp <= p /\ 16 <= sz /\ sz mod 8 = 0 /\ p mod 8 = 0
  /\ sizes_ok l1 /\ sizes_ok l2
  /\ p + sz + total l2 = mem_brk st /\ mem_brk st <= BASEADDR + 2 ^ 32.
Proof.
  intros R p.
  pose proof (rep_sizes_ok _ _ _ R) as Hok. apply sizes_ok_app in Hok.
  destruct Hok as [Hok1 Hok2]. inversion Hok2 as [|? ? _ Hok3]; subst.
  pose proof (rep_blocks _ _ _ R) as Hb. apply seg_at_app in Hb.
  destruct Hb as [Hb1 Hb2]. cbn [seg_at] in Hb2. fold p in Hb2.
  destruct Hb2 as (H1 & H2 & H3 & H4 & H5).
  assert (Hin : In (p, sz, al) (layout first_bp (l1 ++ (sz, al) :: l2)))
    by apply layout_in_app.
  pose proof (rep_block _ _ _ R _ _ _ Hin) as Hbk.
  pose proof (rep_brk _ _ _ R) as Hbrk. rewrite total_app in Hbrk. cbn [total] in Hbrk.
  pose proof (rep_brk_bound _ _ _ R).
  repeat split; try assumption; try lia.
  destruct l2 as [|[s2 a2] r2].
  - cbn [first_hdr]. pose proof (rep_epilogue _ _ _ R) as He.
    rewrite last_alloc_app in He. cbn [last_alloc total] in *.
    replace (p + sz) with (mem_brk st) by (unfold p; lia). exact He.
  - cbn [first_hdr seg_at] in *. tauto.
Qed.

Lemma hdr_lt sz pa al : 0 <= sz <= 2 ^ 32 - 8 -> 0 <= hdr sz pa al < 2 ^ 32.
Proof. unfold hdr. destruct pa, al; lia. Qed.

Lemma GET_PUT_hdr m a sz pa al :
  0 <= sz <= 2 ^ 32 - 8 -> GET (PUT m a (hdr sz pa al)) a = hdr sz pa al.
Proof. intros H. rewrite GET_PUT_same. apply wrap32_small. apply hdr_lt. assumption. Qed.

Lemma GET_PUT_word m a v : 0 <= v < 2 ^ 32 -> GET (PUT m a v) a = v.
Proof. intros H. rewrite GET_PUT_same. apply wrap32_small. assumption. Qed.

Lemma GET_SIZE_PUT_other m a v q :
  q + 4 <= a \/ a + 4 <= q -> GET_SIZE (PUT m a v) q = GET_SIZE m q.
Proof. intros H. unfold GET_SIZE. rewrite GET_PUT_other by assumption. reflexivity. Qed.

(** The first part of [free]: the block is marked free, its footer is
    written and the prev-alloc bit of its successor is cleared. *)
Lemma free_mark st l1 sz l2 L :
  heap_rep st (l1 ++ (sz, true) :: l2) L ->
  let p := first_bp + total l1 in
  exists st1,
    free st p = snd (coalesce (add_free_block st1 p) p)
    /\ heap_rep st1 (l1 ++ (sz, false) :: l2) L
    /\ (forall b s x, In (b, s, true) (layout first_bp (l1 ++ (sz, true) :: l2)) ->
          b <> p -> b <= x < b + s - WSIZE -> load8 (mem st1) x = load8 (mem st) x).
Proof.
  intros R p.
  destruct (rep_mid _ _ _ _ _ _ R) as (Hh & _ & Hn & Hin & Hp1 & Hs1 & Hs2 & Hp2 & Hok1 & Hok2 & Hbrk & Hmax).
  fold p in Hh, Hn, Hin, Hp1, Hp2, Hbrk.
  pose proof (total_nonneg _ Hok2) as Ht2.
  destruct (first_hdr_shape l2 Hok2) as (s2 & a2 & Hfh & Hs2m & Hs2r).
  rewrite Hfh in Hn.
  unfold free.
  destruct (Z.eqb_spec p NULL) as [Hz|_]; [consts; lia|].
  unfold mem_heap_hi, mem_heap_lo. rewrite (rep_start _ _ _ R).
  assert (Hhi : p <= mem_brk st - 1) by (consts; lia).
  replace ((p >? mem_brk st - 1) || (p <? BASEADDR)) with false
    by (symmetry; apply orb_false_intro;
        [rewrite Z.gtb_ltb; apply Z.ltb_ge | apply Z.ltb_ge]; consts; lia).
  cbv zeta.
  rewrite (GET_SIZE_hdr _ _ _ _ _ Hh Hs2).
  rewrite (GET_PREV_ALLOC_hdr _ _ _ _ _ Hh Hs2).
  rewrite PACK_free, PACK_0 by assumption.
  set (m1 := PUT (mem st) (HDRP p) (hdr sz (last_alloc true l1) false)).
  assert (E1 : GET m1 (HDRP p) = hdr sz (last_alloc true l1) false)
    by (apply GET_PUT_hdr; consts; lia).
  unfold FTRP. rewrite (GET_SIZE_hdr _ _ _ _ _ E1 Hs2).
  set (m2 := PUT m1 (p + sz - DSIZE) sz).
  assert (E2 : GET m2 (HDRP p) = hdr sz (last_alloc true l1) false).
  { unfold m2. rewrite GET_PUT_other by (unfold HDRP; consts; lia). exact E1. }
  unfold NEXT_BLKP. fold (HDRP p). rewrite (GET_SIZE_hdr _ _ _ _ _ E2 Hs2).
  destruct (Z.eqb_spec (p + sz) NULL) as [Hz|_]; [consts; lia|].
  cbn [negb].
  assert (E3 : GET m2 (HDRP (p + sz)) = hdr s2 true a2).
  { unfold m2, m1. rewrite !GET_PUT_other by (unfold HDRP; consts; lia). exact Hn. }
  rewrite E3. rewrite hdr_clear_prev_alloc by (try assumption; consts; lia).
  set (m3 := PUT m2 (HDRP (p + sz)) (hdr s2 false a2)).
  eexists. split; [reflexivity|].
  change (l1 ++ (sz, false) :: l2) with (l1 ++ [(sz, false)] ++ l2).
  assert (Hreg := heap_rep_region st _ L l1 [(sz, true)] [(sz, false)] l2 m3 R eq_refl eq_refl).
  cbn [total] in Hreg. rewrite Z.add_0_r in Hreg. fold p in Hreg.
  destruct Hreg as [R' F].
  - intros x Hx. unfold m3, m2, m1.
    rewrite !load8_PUT_other by (unfold HDRP; consts; lia). reflexivity.
  - cbn [seg_at]. repeat split; try assumption.
    + unfold m3, m2. rewrite !GET_PUT_other by (unfold HDRP; consts; lia). exact E1.
    + intros _. unfold m3. rewrite GET_PUT_other by (unfold HDRP; consts; lia).
      unfold m2. apply GET_PUT_word. consts; lia.
  - cbn [last_alloc]. rewrite Hfh. unfold m3. apply GET_PUT_hdr. consts; lia.
  - intros c n s Hc Hn' [Hi|[]]. inversion Hi.
  - split; [exact R'|]. intros b s x Hb Hne Hx. apply (F b s x); auto.
    intros [Hi|[]]. inversion Hi. congruence.
Qed.

Lemma meta_only_refl bs m : meta_only bs m m.
Proof. intros b s x _ _. reflexivity. Qed.

Lemma meta_only_trans bs m1 m2 m3 :
  meta_only bs m1 m2 -> meta_only bs m2 m3 -> meta_only bs m1 m3.
Proof. intros H1 H2 b s x Hi Hx. rewrite (H2 b s x Hi Hx). exact (H1 b s x Hi Hx). Qed.

(** The allocated blocks are the same when a region is re-cut into other
    free blocks. *)
Lemma layout_alloc_region bp l1 mid mid' l2 b s :
  total mid' = total mid ->
  (forall x, In x mid -> snd x = false) -> (forall x, In x mid' -> snd x = false) ->
  In (b, s, true) (layout bp (l1 ++ mid ++ l2)) <->
  In (b, s, true) (layout bp (l1 ++ mid' ++ l2)).
Proof.
  intros Ht Hm Hm'.
  assert (Hno : forall q l, (forall x, In x l -> snd x = false) ->
            ~ In (b, s, true) (layout q l)).
  { intros q l Hl Hin. destruct (layout_in_split _ _ _ _ _ Hin) as (a1 & a2 & -> & _).
    specialize (Hl (s, true)). rewrite in_app_iff in Hl. simpl in Hl.
    assert (true = false) by auto. discriminate. }
  rewrite !layout_app, !in_app_iff, Ht.
  pose proof (Hno (bp + total l1) mid Hm). pose proof (Hno (bp + total l1) mid' Hm').
  tauto.
Qed.

Lemma meta_only_region bp l1 mid mid' l2 m m' :
  bp = first_bp -> total mid' = total mid ->
  (forall x, In x mid -> snd x = false) -> (forall x, In x mid' -> snd x = false) ->
  meta_only (l1 ++ mid ++ l2) m m' -> meta_only (l1 ++ mid' ++ l2) m m'.
Proof.
  intros -> Ht Hm Hm' H b s x Hi Hx. apply (H b s x); [|assumption].
  apply (layout_alloc_region first_bp l1 mid mid' l2 b s Ht Hm Hm'). assumption.
Qed.

Lemma no_adj_free_app pa l1 l2 :
  no_adj_free pa (l1 ++ l2) = no_adj_free pa l1 && no_adj_free (last_alloc pa l1) l2.
Proof.
  revert pa; induction l1 as [|[s a] r IH]; intros pa; [reflexivity|].
  cbn [app no_adj_free last_alloc]. rewrite IH. apply andb_assoc.
Qed.

Lemma last_alloc_snoc pa l s a : last_alloc pa (l ++ [(s, a)]) = a.
Proof. rewrite last_alloc_app. reflexivity. Qed.

Lemma list_last_cases (l : list block) :
  l = [] \/ exists l' s a, l = l' ++ [(s, a)].
Proof.
  destruct l as [|x r] using rev_ind; [left; reflexivity|].
  right. destruct x as [s a]. eauto.
Qed.

(** ** coalesce: both neighbours allocated *)

Lemma coalesce_none st l1 sz l2 L :
  heap_rep st (l1 ++ (sz, false) :: l2) L ->
  last_alloc true l1 = true ->
  (forall s a r, l2 = (s, a) :: r -> a = true) ->
  coalesce st (first_bp + total l1) = (first_bp + total l1, st).
Proof.
  intros R Hpa Hnext. set (p := first_bp + total l1).
  destruct (rep_mid _ _ _ _ _ _ R) as (Hh & _ & Hn & _ & _ & _ & Hs2 & _ & _ & Hok2 & _).
  fold p in Hh, Hn. rewrite Hpa in Hh.
  unfold coalesce. cbv zeta.
  rewrite (GET_PREV_ALLOC_hdr _ _ _ _ _ Hh Hs2).
  unfold NEXT_BLKP. fold (HDRP p). rewrite (GET_SIZE_hdr _ _ _ _ _ Hh Hs2).
  destruct l2 as [|[s2 a2] r2].
  - cbn [first_hdr] in Hn. rewrite (GET_ALLOC_hdr _ _ _ _ _ Hn eq_refl). reflexivity.
  - cbn [first_hdr] in Hn. rewrite (Hnext _ _ _ eq_refl) in Hn.
    inversion Hok2 as [|? ? [_ Hm] _]; subst. cbn [fst] in Hm.
    rewrite (GET_ALLOC_hdr _ _ _ _ _ Hn Hm). reflexivity.
Qed.

(** ** coalesce: the next block is free *)

Lemma coalesce_next st l1 sz s2 r2 L :
  heap_rep st (l1 ++ (sz, false) :: (s2, false) :: r2) L ->
  lists_complete (l1 ++ (sz, false) :: (s2, false) :: r2) L ->
  last_alloc true l1 = true ->
  exists st' L',
    coalesce st (first_bp + total l1) = (first_bp + total l1, st')
    /\ heap_rep st' (l1 ++ (sz + s2, false) :: r2) L'
    /\ lists_complete (l1 ++ (sz + s2, false) :: r2) L'
    /\ meta_only (l1 ++ (sz, false) :: (s2, false) :: r2) (mem st) (mem st').
Proof.
  intros R LC Hpa. set (p := first_bp + total l1).
  set (bs := l1 ++ (sz, false) :: (s2, false) :: r2) in *.
  destruct (rep_mid _ _ _ _ _ _ R) as (Hh & _ & Hn & Hin & Hp1 & Hs1 & Hs2 & Hp2 & Hok1 & Hok2 & Hbrk & Hmax).
  fold p in Hh, Hn, Hin, Hp1, Hp2, Hbrk. fold bs in Hin. rewrite Hpa in Hh.
  cbn [first_hdr] in Hn.
  inversion Hok2 as [|? ? [Hs3 Hs4] Hok3]; subst. cbn [fst] in Hs3, Hs4.
  cbn [total] in Hbrk. pose proof (total_nonneg _ Hok3) as Ht3.
  assert (Hin2 : In (p + sz, s2, false) (layout first_bp bs)).
  { unfold bs. rewrite layout_app. apply in_or_app. right. cbn [layout]. fold p.
    right. left. reflexivity. }
  assert (EN : NEXT_BLKP (mem st) p = p + sz).
  { unfold NEXT_BLKP. fold (HDRP p). rewrite (GET_SIZE_hdr _ _ _ _ _ Hh Hs2). reflexivity. }
  unfold coalesce. cbv zeta.
  rewrite (GET_PREV_ALLOC_hdr _ _ _ _ _ Hh Hs2), (GET_SIZE_hdr _ _ _ _ _ Hh Hs2).
  rewrite !EN, (GET_ALLOC_hdr _ _ _ _ _ Hn Hs4).
  change (negb (2 =? 0) && negb (0 =? 0)) with false.
  change (negb (2 =? 0) && (0 =? 0)) with true. cbv iota.
  (* remove p *)
  destruct (remove_free_block_mem _ _ _ _ _ R Hin (LC _ _ Hin)) as (L1 & R1 & M1 & F1).
  set (st1 := remove_free_block st p) in *.
  destruct (rep_block_words _ _ _ R1 _ _ _ Hin) as (Z1 & _).
  assert (EN1 : NEXT_BLKP (mem st1) p = p + sz).
  { unfold NEXT_BLKP. fold (HDRP p). rewrite Z1. reflexivity. }
  rewrite !EN1.
  (* remove the next block *)
  assert (Hin2' : In (p + sz) (L1 (seg_index s2))).
  { apply M1; [apply seg_index_range|]. split; [apply (LC _ _ Hin2) | lia]. }
  destruct (remove_free_block_mem _ _ _ _ _ R1 Hin2 Hin2') as (L2 & R2 & M2 & F2).
  set (st2 := remove_free_block st1 (p + sz)) in *.
  destruct (rep_block_words _ _ _ R2 _ _ _ Hin) as (Z2 & _).
  destruct (rep_block_words _ _ _ R2 _ _ _ Hin2) as (Z3 & _).
  assert (EN2 : NEXT_BLKP (mem st2) p = p + sz).
  { unfold NEXT_BLKP. fold (HDRP p). rewrite Z2. reflexivity. }
  rewrite !EN2, !Z3.
  rewrite wrap64_small by (consts; lia).
  assert (Hs5 : (sz + s2) mod 8 = 0) by (Z.div_mod_to_equations; lia).
  rewrite PACK_2, PACK_0 by assumption.
  set (m1 := PUT (mem st2) (HDRP p) (hdr (sz + s2) true false)).
  assert (E1 : GET m1 (HDRP p) = hdr (sz + s2) true false)
    by (apply GET_PUT_hdr; consts; lia).
  unfold FTRP. rewrite (GET_SIZE_hdr _ _ _ _ _ E1 Hs5).
  set (m2 := PUT m1 (p + (sz + s2) - DSIZE) (sz + s2)).
  (* the two blocks become one *)
  destruct (heap_rep_region st2 bs L2 l1 [(sz, false); (s2, false)] [(sz + s2, false)]
              r2 m2 R2 eq_refl) as [R3 F3].
  - cbn [total]. lia.
  - fold p. cbn [total]. intros x Hx. unfold m2, m1.
    rewrite !load8_PUT_other by (unfold HDRP; consts; lia). reflexivity.
  - fold p. rewrite Hpa. cbn [seg_at]. repeat split; try assumption; try lia.
    + unfold m2. rewrite GET_PUT_other by (unfold HDRP; consts; lia). exact E1.
    + intros _. unfold m2. apply GET_PUT_word. consts; lia.
  - fold p. cbn [total last_alloc]. rewrite Z.add_0_r.
    destruct (rep_mid st2 (l1 ++ [(sz, false)]) s2 false r2 L2) as (_ & _ & Hn2 & _).
    { rewrite <- app_assoc. exact R2. }
    rewrite total_app in Hn2. cbn [total] in Hn2. fold p in Hn2.
    rewrite Z.add_0_r, Z.add_assoc in Hn2. rewrite <- Hn2. rewrite Z.add_assoc.
    unfold m2, m1. rewrite !GET_PUT_other by (unfold HDRP; consts; lia). reflexivity.
  - fold p. intros c n s Hc Hn' Hi. cbn [layout In] in Hi.
    apply (M2 c n Hc) in Hn'. destruct Hn' as [Hn' Hne2].
    apply (M1 c n Hc) in Hn'. destruct Hn' as [Hn' Hne1].
    destruct Hi as [Hi|[Hi|[]]]; inversion Hi; congruence.
  - (* add the merged block *)
    set (st3 := set_mem st2 m2) in *. set (bs' := l1 ++ [(sz + s2, false)] ++ r2) in *.
    assert (Hin3 : In (p, sz + s2, false) (layout first_bp bs')) by apply layout_in_app.
    assert (Hnot : ~ In p (L2 (seg_index (sz + s2)))).
    { intros H. apply M2 in H; [|apply seg_index_range]. destruct H as [H _].
      apply M1 in H; [|apply seg_index_range]. destruct H as [_ H]. congruence. }
    destruct (add_free_block_mem _ _ _ _ _ R3 Hin3 Hnot) as (L3 & R4 & M3 & F4).
    exists (add_free_block st3 p), L3. split; [reflexivity|]. split; [exact R4|]. split.
    + (* every free block is in its list *)
      intros n s Hi. apply M3; [apply seg_index_range|].
      unfold bs' in Hi. rewrite !layout_app, !in_app_iff in Hi. cbn [layout In total] in Hi.
      fold p in Hi. destruct Hi as [Hi|[Hi|Hi]].
      * left. apply M2; [apply seg_index_range|]. 
        pose proof (layout_bounds _ _ _ _ _ Hok1 Hi) as Hb.
        split; [|fold p in Hb; lia].
        apply M1; [apply seg_index_range|]. split; [|fold p in Hb; lia].
        apply LC. unfold bs. rewrite layout_app, in_app_iff. auto.
      * inversion Hi; subst. right. auto.
      * left. pose proof (layout_bounds _ _ _ _ _ Hok3 Hi) as Hb.
        apply M2; [apply seg_index_range|]. split; [|lia].
        apply M1; [apply seg_index_range|]. split; [|lia].
        apply LC. unfold bs. rewrite layout_app, in_app_iff. right. cbn [layout In]. fold p.
        right. right. rewrite Z.add_assoc in Hi. exact Hi.
    + (* payloads *)
      apply (meta_only_trans _ _ (mem st1)); [exact F1|].
      apply (meta_only_trans _ _ (mem st2)); [exact F2|].
      apply (meta_only_trans _ _ (mem st3)).
      * intros b s x Hi Hx. apply (F3 b s x Hi); [|exact Hx].
        fold p. cbn [layout In]. intros [H|[H|[]]]; inversion H.
      * apply (meta_only_region first_bp l1 [(sz + s2, false)] [(sz, false); (s2, false)] r2);
          auto; try (cbn [total]; lia);
          intros x Hx; cbn [In] in Hx;
          repeat (destruct Hx as [<-|Hx]; [reflexivity|]); contradiction.
Qed.

(** ** coalesce: the previous block is free *)

Lemma coalesce_prev st l1 sp sz l2 L :
  heap_rep st (l1 ++ (sp, false) :: (sz, false) :: l2) L ->
  lists_complete (l1 ++ (sp, false) :: (sz, false) :: l2) L ->
  (forall s a r, l2 = (s, a) :: r -> a = true) ->
  exists st' L',
    coalesce st (first_bp + total l1 + sp) = (first_bp + total l1, st')
    /\ heap_rep st' (l1 ++ (sz + sp, false) :: l2) L'
    /\ lists_complete (l1 ++ (sz + sp, false) :: l2) L'
    /\ meta_only (l1 ++ (sp, false) :: (sz, false) :: l2) (mem st) (mem st').
Proof.
  intros R LC Hnext. set (q := first_bp + total l1). set (p := q + sp).
  set (bs := l1 ++ (sp, false) :: (sz, false) :: l2) in *.
  (* the block before *)
  destruct (rep_mid _ _ _ _ _ _ R) as (Hhq & _ & _ & Hinq & Hq1 & Hsp1 & Hsp2 & Hq2 & Hok1 & Hokq & Hbrkq & Hmax).
  fold q in Hhq, Hinq, Hq1, Hq2, Hbrkq. fold bs in Hinq.
  (* the block itself *)
  assert (Ebs : bs = (l1 ++ [(sp, false)]) ++ (sz, false) :: l2)
    by (unfold bs; rewrite <- app_assoc; reflexivity).
  assert (Etot : first_bp + total (l1 ++ [(sp, false)]) = p)
    by (rewrite total_app; cbn [total]; unfold p, q; lia).
  assert (Rp := R). rewrite Ebs in Rp.
  destruct (rep_mid _ _ _ _ _ _ Rp) as (Hh & _ & Hn & Hin & Hp1 & Hs1 & Hs2 & Hp2 & _ & Hok2 & Hbrk & _).
  rewrite Etot in Hh, Hn, Hin, Hp1, Hp2, Hbrk. rewrite <- Ebs in Hin.
  rewrite last_alloc_snoc in Hh. clear Rp.
  pose proof (total_nonneg _ Hok2) as Ht2.
  destruct (first_hdr_shape l2 Hok2) as (s2 & a2 & Hfh & Hs2m & Hs2r).
  assert (Ha2 : a2 = true).
  { destruct l2 as [|[s a] r].
    - specialize (Hfh true). cbn [first_hdr] in Hfh. unfold hdr in Hfh.
      destruct a2; [reflexivity|]. cbn [total] in Hs2r. lia.
    - specialize (Hfh true). cbn [first_hdr] in Hfh. rewrite (Hnext _ _ _ eq_refl) in Hfh.
      unfold hdr in Hfh. destruct a2; [reflexivity|].
      inversion Hok2 as [|? ? [_ Hm] _]; subst. cbn [fst] in Hm.
      Z.div_mod_to_equations; lia. }
  subst a2. rewrite Hfh in Hn.
  assert (EN : NEXT_BLKP (mem st) p = p + sz).
  { unfold NEXT_BLKP. fold (HDRP p). rewrite (GET_SIZE_hdr _ _ _ _ _ Hh Hs2). reflexivity. }
  unfold coalesce. cbv zeta. fold q. fold p.
  rewrite (GET_PREV_ALLOC_hdr _ _ _ _ _ Hh Hs2), (GET_SIZE_hdr _ _ _ _ _ Hh Hs2).
  rewrite !EN, (GET_ALLOC_hdr _ _ _ _ _ Hn Hs2m).
  change (negb (0 =? 0) && negb (1 =? 0)) with false.
  change (negb (0 =? 0) && (1 =? 0)) with false.
  change ((0 =? 0) && negb (1 =? 0)) with true. cbv iota.
  (* remove p *)
  destruct (remove_free_block_mem _ _ _ _ _ R Hin (LC _ _ Hin)) as (L1 & R1 & M1 & F1).
  set (st1 := remove_free_block st p) in *.
  assert (EP : forall st0 L0, heap_rep st0 bs L0 -> PREV_BLKP (mem st0) p = q).
  { intros st0 L0 R0. destruct (rep_block_words _ _ _ R0 _ _ _ Hinq) as (_ & _ & Hf).
    unfold PREV_BLKP. replace (p - DSIZE) with (q + sp - DSIZE) by (unfold p; lia).
    rewrite (GET_SIZE_word _ _ _ (Hf eq_refl) Hsp2). unfold p. lia. }
  rewrite !(EP _ _ R1).
  (* remove the previous block *)
  assert (Hinq' : In q (L1 (seg_index sp))).
  { apply M1; [apply seg_index_range|]. split; [apply (LC _ _ Hinq) | unfold p; lia]. }
  destruct (remove_free_block_mem _ _ _ _ _ R1 Hinq Hinq') as (L2 & R2 & M2 & F2).
  set (st2 := remove_free_block st1 q) in *.
  destruct (rep_block_words _ _ _ R2 _ _ _ Hin) as (Z2 & _).
  destruct (rep_block_words _ _ _ R2 _ _ _ Hinq) as (Z3 & _ & Z4).
  specialize (Z4 eq_refl).
  destruct (rep_mid _ _ _ _ _ _ R2) as (Hhq2 & _). fold q in Hhq2.
  rewrite !(EP _ _ R2), !Z3.
  rewrite wrap64_small by (consts; lia).
  assert (Hs5 : (sz + sp) mod 8 = 0) by (Z.div_mod_to_equations; lia).
  assert (EF : FTRP (mem st2) p = p + sz - DSIZE) by (unfold FTRP; rewrite Z2; reflexivity).
  rewrite !EF. rewrite !PACK_0 by assumption.
  set (m1 := PUT (mem st2) (p + sz - DSIZE) (sz + sp)).
  assert (E1 : PREV_BLKP m1 p = q).
  { unfold PREV_BLKP. replace (p - DSIZE) with (q + sp - DSIZE) by (unfold p; lia).
    unfold m1. rewrite GET_SIZE_PUT_other by (unfold p; consts; lia).
    rewrite (GET_SIZE_word _ _ _ Z4 Hsp2). unfold p. lia. }
  rewrite !E1.
  assert (E2 : GET m1 (HDRP q) = hdr sp (last_alloc true l1) false).
  { unfold m1. rewrite GET_PUT_other by (unfold HDRP, p; consts; lia). exact Hhq2. }
  rewrite (GET_PREV_ALLOC_hdr _ _ _ _ _ E2 Hsp2). rewrite PACK_free by assumption.
  set (m2 := PUT m1 (HDRP q) (hdr (sz + sp) (last_alloc true l1) false)).
  assert (E3 : PREV_BLKP m2 p = q).
  { unfold PREV_BLKP. unfold m2.
    rewrite GET_SIZE_PUT_other by (unfold HDRP, p; consts; lia). exact E1. }
  rewrite E3.
  (* the two blocks become one *)
  destruct (heap_rep_region st2 bs L2 l1 [(sp, false); (sz, false)] [(sz + sp, false)]
              l2 m2 R2 eq_refl) as [R3 F3].
  - cbn [total]. lia.
  - fold q. cbn [total]. intros x Hx. unfold m2, m1.
    rewrite !load8_PUT_other by (unfold HDRP, p; consts; lia). reflexivity.
  - fold q. cbn [seg_at]. repeat split; try assumption; try lia.
    + unfold m2. apply GET_PUT_hdr. consts; lia.
    + intros _. unfold m2. rewrite GET_PUT_other by (unfold HDRP; consts; lia).
      unfold m1. replace (q + (sz + sp) - DSIZE) with (p + sz - DSIZE) by (unfold p; lia).
      apply GET_PUT_word. consts; lia.
  - fold q. cbn [total last_alloc]. rewrite Z.add_0_r.
    destruct (rep_mid st2 (l1 ++ [(sp, false)]) sz false l2 L2) as (_ & _ & Hn2 & _).
    { rewrite <- Ebs. exact R2. }
    rewrite Etot in Hn2. rewrite <- Hn2.
    replace (q + (sp + sz)) with (p + sz) by (unfold p; lia).
    unfold m2, m1. rewrite !GET_PUT_other by (unfold HDRP, p; consts; lia). reflexivity.
  - fold q. intros c n s Hc Hn' Hi. cbn [layout In] in Hi.
    apply (M2 c n Hc) in Hn'. destruct Hn' as [Hn' Hne2].
    apply (M1 c n Hc) in Hn'. destruct Hn' as [Hn' Hne1].
    destruct Hi as [Hi|[Hi|[]]]; inversion Hi; unfold p in *; congruence.
  - (* add the merged block *)
    set (st3 := set_mem st2 m2) in *. set (bs' := l1 ++ [(sz + sp, false)] ++ l2) in *.
    assert (Hin3 : In (q, sz + sp, false) (layout first_bp bs')) by apply layout_in_app.
    assert (Hnot : ~ In q (L2 (seg_index (sz + sp)))).
    { intros H. apply M2 in H; [|apply seg_index_range]. destruct H as [_ H]. congruence. }
    destruct (add_free_block_mem _ _ _ _ _ R3 Hin3 Hnot) as (L3 & R4 & M3 & F4).
    exists (add_free_block st3 q), L3. split; [reflexivity|]. split; [exact R4|]. split.
    + intros n s Hi. apply M3; [apply seg_index_range|].
      unfold bs' in Hi. rewrite !layout_app, !in_app_iff in Hi. cbn [layout In total] in Hi.
      fold q in Hi. destruct Hi as [Hi|[Hi|Hi]].
      * left. pose proof (layout_bounds _ _ _ _ _ Hok1 Hi) as Hb. fold q in Hb.
        apply M2; [apply seg_index_range|]. split; [|lia].
        apply M1; [apply seg_index_range|]. split; [|unfold p; lia].
        apply LC. unfold bs. rewrite layout_app, in_app_iff. auto.
      * injection Hi as <- <-. right. auto.
      * left. pose proof (layout_bounds _ _ _ _ _ Hok2 Hi) as Hb.
        apply M2; [apply seg_index_range|]. split; [|lia].
        apply M1; [apply seg_index_range|]. split; [|unfold p; lia].
        apply LC. unfold bs. rewrite layout_app, in_app_iff. right. cbn [layout In]. fold q.
        right. right. replace (q + sp + sz) with (q + (sz + sp)) by lia. exact Hi.
    + apply (meta_only_trans _ _ (mem st1)); [exact F1|].
      apply (meta_only_trans _ _ (mem st2)); [exact F2|].
      apply (meta_only_trans _ _ (mem st3)).
      * intros b s x Hi Hx. apply (F3 b s x Hi); [|exact Hx].
        fold q. cbn [layout In]. intros [H|[H|[]]]; inversion H.
      * apply (meta_only_region first_bp l1 [(sz + sp, false)] [(sp, false); (sz, false)] l2);
          auto; try (cbn [total]; lia);
          intros x Hx; cbn [In] in Hx;
          repeat (destruct Hx as [<-|Hx]; [reflexivity|]); contradiction.
Qed.

(** Arithmetic side conditions that need no divisibility fact. *)
Ltac blia :=
  repeat match goal with H : _ mod _ = _ |- _ => clear H end; consts; lia.

(** ** coalesce: both neighbours are free *)

Lemma coalesce_both st l1 sp sz s2 r2 L :
  heap_rep st (l1 ++ (sp, false) :: (sz, false) :: (s2, false) :: r2) L ->
  lists_complete (l1 ++ (sp, false) :: (sz, false) :: (s2, false) :: r2) L ->
  exists st' L',
    coalesce st (first_bp + total l1 + sp) = (first_bp + total l1, st')
    /\ heap_rep st' (l1 ++ (sz + (s2 + sp), false) :: r2) L'
    /\ lists_complete (l1 ++ (sz + (s2 + sp), false) :: r2) L'
    /\ meta_only (l1 ++ (sp, false) :: (sz, false) :: (s2, false) :: r2)
                 (mem st) (mem st').
Proof.
  intros R LC. set (q := first_bp + total l1). set (p := q + sp).
  set (bs := l1 ++ (sp, false) :: (sz, false) :: (s2, false) :: r2) in *.
  destruct (rep_mid _ _ _ _ _ _ R) as (Hhq & _ & _ & Hinq & Hq1 & Hsp1 & Hsp2 & Hq2 & Hok1 & Hokq & Hbrkq & Hmax).
  fold q in Hhq, Hinq, Hq1, Hq2, Hbrkq. fold bs in Hinq.
  assert (Ebs : bs = (l1 ++ [(sp, false)]) ++ (sz, false) :: (s2, false) :: r2)
    by (unfold bs; rewrite <- app_assoc; reflexivity).
  assert (Etot : first_bp + total (l1 ++ [(sp, false)]) = p)
    by (rewrite total_app; cbn [total]; unfold p, q; lia).
  assert (Rp := R). rewrite Ebs in Rp.
  destruct (rep_mid _ _ _ _ _ _ Rp) as (Hh & _ & Hn & Hin & Hp1 & Hs1 & Hs2 & Hp2 & _ & Hok2 & Hbrk & _).
  rewrite Etot in Hh, Hn, Hin, Hp1, Hp2, Hbrk. rewrite <- Ebs in Hin.
  rewrite last_alloc_snoc in Hh. clear Rp. cbn [first_hdr] in Hn.
  inversion Hok2 as [|? ? [Hs3 Hs4] Hok3]; subst. cbn [fst] in Hs3, Hs4.
  cbn [total] in Hbrk. pose proof (total_nonneg _ Hok3) as Ht3.
  assert (Hin2 : In (p + sz, s2, false) (layout first_bp bs)).
  { rewrite Ebs, layout_app. apply in_or_app. right. rewrite Etot. cbn [layout].
    right. left. reflexivity. }
  assert (EN : forall st0 L0, heap_rep st0 bs L0 -> NEXT_BLKP (mem st0) p = p + sz).
  { intros st0 L0 R0. destruct (rep_block_words _ _ _ R0 _ _ _ Hin) as (Z0 & _).
    unfold NEXT_BLKP. fold (HDRP p). rewrite Z0. reflexivity. }
  assert (EP : forall st0 L0, heap_rep st0 bs L0 -> PREV_BLKP (mem st0) p = q).
  { intros st0 L0 R0. destruct (rep_block_words _ _ _ R0 _ _ _ Hinq) as (_ & _ & Hf).
    unfold PREV_BLKP. replace (p - DSIZE) with (q + sp - DSIZE) by (unfold p; lia).
    rewrite (GET_SIZE_word _ _ _ (Hf eq_refl) Hsp2). unfold p. lia. }
  unfold coalesce. cbv zeta. fold q. fold p.
  rewrite (GET_PREV_ALLOC_hdr _ _ _ _ _ Hh Hs2), (GET_SIZE_hdr _ _ _ _ _ Hh Hs2).
  rewrite !(EN _ _ R), (GET_ALLOC_hdr _ _ _ _ _ Hn Hs4).
  change (negb (0 =? 0) && negb (0 =? 0)) with false.
  change (negb (0 =? 0) && (0 =? 0)) with false.
  change ((0 =? 0) && negb (0 =? 0)) with false. cbv iota.
  (* remove p *)
  destruct (remove_free_block_mem _ _ _ _ _ R Hin (LC _ _ Hin)) as (L1 & R1 & M1 & F1).
  set (st1 := remove_free_block st p) in *.
  rewrite !(EP _ _ R1).
  (* remove the previous block *)
  assert (Hinq' : In q (L1 (seg_index sp))).
  { apply M1; [apply seg_index_range|]. split; [apply (LC _ _ Hinq) | unfold p; lia]. }
  destruct (remove_free_block_mem _ _ _ _ _ R1 Hinq Hinq') as (L2 & R2 & M2 & F2).
  set (st2 := remove_free_block st1 q) in *.
  rewrite !(EN _ _ R2).
  (* remove the next block *)
  assert (Hin2' : In (p + sz) (L2 (seg_index s2))).
  { apply M2; [apply seg_index_range|]. split; [|unfold p; lia].
    apply M1; [apply seg_index_range|]. split; [apply (LC _ _ Hin2) | lia]. }
  destruct (remove_free_block_mem _ _ _ _ _ R2 Hin2 Hin2') as (L3 & R3 & M3 & F3).
  set (st3 := remove_free_block st2 (p + sz)) in *.
  destruct (rep_block_words _ _ _ R3 _ _ _ Hin) as (Z2 & _).
  destruct (rep_block_words _ _ _ R3 _ _ _ Hinq) as (Z3 & _ & Z4).
  destruct (rep_block_words _ _ _ R3 _ _ _ Hin2) as (Z5 & _).
  specialize (Z4 eq_refl).
  destruct (rep_mid _ _ _ _ _ _ R3) as (Hhq3 & _). fold q in Hhq3.
  rewrite !(EP _ _ R3), !(EN _ _ R3), !Z3, !Z5.
  rewrite (wrap64_small (s2 + sp)) by blia.
  rewrite (wrap64_small (sz + (s2 + sp))) by blia.
  assert (Hs5 : (sz + (s2 + sp)) mod 8 = 0)
    by (clear - Hs2 Hs4 Hsp2; Z.div_mod_to_equations; lia).
  rewrite (GET_PREV_ALLOC_hdr _ _ _ _ _ Hhq3 Hsp2). rewrite PACK_free, PACK_0 by assumption.
  set (m1 := PUT (mem st3) (HDRP q) (hdr (sz + (s2 + sp)) (last_alloc true l1) false)).
  assert (E1 : NEXT_BLKP m1 p = p + sz).
  { unfold NEXT_BLKP, m1. fold (HDRP p).
    rewrite GET_SIZE_PUT_other by (unfold HDRP, p; consts; lia).
    rewrite Z2. reflexivity. }
  rewrite !E1.
  assert (E2 : FTRP m1 (p + sz) = p + sz + s2 - DSIZE).
  { unfold FTRP, m1. rewrite GET_SIZE_PUT_other by (unfold HDRP, p; consts; lia).
    rewrite Z5. reflexivity. }
  rewrite !E2.
  set (m2 := PUT m1 (p + sz + s2 - DSIZE) (sz + (s2 + sp))).
  assert (E3 : PREV_BLKP m2 p = q).
  { unfold PREV_BLKP, m2, m1.
    rewrite !GET_SIZE_PUT_other by (unfold HDRP, p; consts; lia).
    replace (p - DSIZE) with (q + sp - DSIZE) by (unfold p; lia).
    rewrite (GET_SIZE_word _ _ _ Z4 Hsp2). unfold p. lia. }
  rewrite E3.
  (* the three blocks become one *)
  destruct (heap_rep_region st3 bs L3 l1 [(sp, false); (sz, false); (s2, false)]
              [(sz + (s2 + sp), false)] r2 m2 R3 eq_refl) as [R4 F4].
  - cbn [total]. lia.
  - fold q. cbn [total]. intros x Hx. unfold m2, m1.
    rewrite !load8_PUT_other by (unfold HDRP, p; consts; lia). reflexivity.
  - fold q. cbn [seg_at]. repeat split; try assumption; try lia.
    + unfold m2. rewrite GET_PUT_other by (unfold HDRP, p; consts; lia).
      unfold m1. apply GET_PUT_hdr. consts; lia.
    + intros _. unfold m2.
      replace (q + (sz + (s2 + sp)) - DSIZE) with (p + sz + s2 - DSIZE) by (unfold p; lia).
      apply GET_PUT_word. consts; lia.
  - fold q. cbn [total last_alloc]. rewrite Z.add_0_r.
    destruct (rep_mid st3 (l1 ++ [(sp, false); (sz, false)]) s2 false r2 L3) as (_ & _ & Hn2 & _).
    { rewrite <- app_assoc. exact R3. }
    rewrite total_app in Hn2. cbn [total] in Hn2.
    replace (first_bp + (total l1 + (sp + (sz + 0))) + s2) with (p + sz + s2) in Hn2
      by (unfold p, q; lia).
    replace (q + (sp + (sz + s2))) with (p + sz + s2) by (unfold p; lia).
    rewrite <- Hn2.
    unfold m2, m1. rewrite !GET_PUT_other by (unfold HDRP, p; consts; lia). reflexivity.
  - fold q. intros c n s Hc Hn' Hi. cbn [layout In] in Hi.
    apply (M3 c n Hc) in Hn'. destruct Hn' as [Hn' Hne3].
    apply (M2 c n Hc) in Hn'. destruct Hn' as [Hn' Hne2].
    apply (M1 c n Hc) in Hn'. destruct Hn' as [Hn' Hne1].
    destruct Hi as [Hi|[Hi|[Hi|[]]]]; inversion Hi; unfold p in *; congruence.
  - (* add the merged block *)
    set (st4 := set_mem st3 m2) in *.
    set (bs' := l1 ++ [(sz + (s2 + sp), false)] ++ r2) in *.
    assert (Hin3 : In (q, sz + (s2 + sp), false) (layout first_bp bs')) by apply layout_in_app.
    assert (Hnot : ~ In q (L3 (seg_index (sz + (s2 + sp))))).
    { intros H. apply M3 in H; [|apply seg_index_range]. destruct H as [H _].
      apply M2 in H; [|apply seg_index_range]. destruct H as [_ H]. congruence. }
    destruct (add_free_block_mem _ _ _ _ _ R4 Hin3 Hnot) as (L4 & R5 & M4 & F5).
    exists (add_free_block st4 q), L4. split; [reflexivity|]. split; [exact R5|]. split.
    + intros n s Hi. apply M4; [apply seg_index_range|].
      unfold bs' in Hi. rewrite !layout_app, !in_app_iff in Hi. cbn [layout In total] in Hi.
      fold q in Hi. destruct Hi as [Hi|[Hi|Hi]].
      * left. pose proof (layout_bounds _ _ _ _ _ Hok1 Hi) as Hb. fold q in Hb.
        apply M3; [apply seg_index_range|]. split; [|unfold p; lia].
        apply M2; [apply seg_index_range|]. split; [|lia].
        apply M1; [apply seg_index_range|]. split; [|unfold p; lia].
        apply LC. unfold bs. rewrite layout_app, in_app_iff. auto.
      * injection Hi as <- <-. right. auto.
      * left. pose proof (layout_bounds _ _ _ _ _ Hok3 Hi) as Hb.
        apply M3; [apply seg_index_range|]. split; [|unfold p; lia].
        apply M2; [apply seg_index_range|]. split; [|lia].
        apply M1; [apply seg_index_range|]. split; [|unfold p; lia].
        apply LC. unfold bs. rewrite layout_app, in_app_iff. right. cbn [layout In]. fold q.
        right. right. right.
        replace (q + sp + sz + s2) with (q + (sz + (s2 + sp))) by lia. exact Hi.
    + apply (meta_only_trans _ _ (mem st1)); [exact F1|].
      apply (meta_only_trans _ _ (mem st2)); [exact F2|].
      apply (meta_only_trans _ _ (mem st3)); [exact F3|].
      apply (meta_only_trans _ _ (mem st4)).
      * intros b s x Hi Hx. apply (F4 b s x Hi); [|exact Hx].
        fold q. cbn [layout In]. intros [H|[H|[H|[]]]]; inversion H.
      * apply (meta_only_region first_bp l1 [(sz + (s2 + sp), false)]
                 [(sp, false); (sz, false); (s2, false)] r2);
          auto; try (cbn [total]; lia);
          intros x Hx; cbn [In] in Hx;
          repeat (destruct Hx as [<-|Hx]; [reflexivity|]); contradiction.
Qed.

Lemma no_adj_free_head_alloc pa pa' s r :
  no_adj_free pa ((s, true) :: r) = no_adj_free pa' ((s, true) :: r).
Proof. cbn [no_adj_free]. rewrite !orb_true_r. reflexivity. Qed.

(** What [coalesce] achieves on a free block that is in its list, when no
    other two free blocks are adjacent. *)
Lemma coalesce_inv st l1 sz l2 L :
  heap_rep st (l1 ++ (sz, false) :: l2) L ->
  lists_complete (l1 ++ (sz, false) :: l2) L ->
  no_adj_free true l1 = true -> no_adj_free true l2 = true ->
  exists r st' bs' L' szr,
    coalesce st (first_bp + total l1) = (r, st')
    /\ heap_inv st' bs' L'
    /\ In (r, szr, false) (layout first_bp bs') /\ sz <= szr
    /\ (forall b s, In (b, s, true) (layout first_bp (l1 ++ (sz, false) :: l2)) <->
                    In (b, s, true) (layout first_bp bs'))
    /\ meta_only (l1 ++ (sz, false) :: l2) (mem st) (mem st').
Proof.
  intros R LC N1 N2.
  pose proof (rep_sizes_ok _ _ _ R) as Hok. apply sizes_ok_app in Hok.
  destruct Hok as [Hok1 Hok2]. inversion Hok2 as [|? ? [Hs _] Hok3]; subst.
  cbn [fst] in Hs.
  destruct (list_last_cases l1) as [->|(l1' & sp & ap & ->)].
  - (* no block before: the prologue is allocated *)
    destruct l2 as [|[s2 [|]] r2].
    + exists (first_bp + total []), st, ([] ++ (sz, false) :: []), L, sz.
      split; [apply (coalesce_none _ _ _ _ _ R); [reflexivity | discriminate]|].
      split; [split; [exact R | split; [exact LC | reflexivity]]|].
      split; [apply layout_in_app|]. split; [lia|]. split; [tauto | apply meta_only_refl].
    + exists (first_bp + total []), st, ([] ++ (sz, false) :: (s2, true) :: r2), L, sz.
      split; [apply (coalesce_none _ _ _ _ _ R); [reflexivity | intros ? ? ? E; inversion E; reflexivity]|].
      split; [split; [exact R | split; [exact LC | exact N2]]|].
      split; [apply layout_in_app|]. split; [lia|]. split; [tauto | apply meta_only_refl].
    + destruct (coalesce_next _ _ _ _ _ _ R LC eq_refl) as (st' & L' & E & R' & LC' & M).
      inversion Hok3 as [|? ? [Hs2 _] _]; subst. cbn [fst] in Hs2.
      exists (first_bp + total []), st', ([] ++ (sz + s2, false) :: r2), L', (sz + s2).
      split; [exact E|]. split; [split; [exact R' | split; [exact LC' | exact N2]]|].
      split; [apply layout_in_app|]. split; [lia|]. split; [|exact M].
      intros b s.
      apply (layout_alloc_region first_bp [] [(sz, false); (s2, false)] [(sz + s2, false)] r2);
        [cbn [total]; lia | |]; intros x Hx; cbn [In] in Hx;
        repeat (destruct Hx as [<-|Hx]; [reflexivity|]); contradiction.
  - rewrite no_adj_free_app in N1. cbn [no_adj_free] in N1.
    apply andb_true_iff in N1. destruct N1 as [N1 N1'].
    rewrite andb_true_r in N1'.
    assert (Ep : first_bp + total (l1' ++ [(sp, ap)]) = first_bp + total l1' + sp)
      by (rewrite total_app; cbn [total]; lia).
    rewrite Ep. rewrite <- app_assoc in R, LC |- *.
    change ([(sp, ap)] ++ (sz, false) :: l2) with ((sp, ap) :: (sz, false) :: l2) in *.
    apply sizes_ok_app in Hok1. destruct Hok1 as [Hok1 Hokp].
    inversion Hokp as [|? ? [Hsp _] _]; subst. cbn [fst] in Hsp.
    destruct ap.
    + (* the block before is allocated *)
      assert (Rm : heap_rep st ((l1' ++ [(sp, true)]) ++ (sz, false) :: l2) L)
        by (rewrite <- app_assoc; exact R).
      assert (LCm : lists_complete ((l1' ++ [(sp, true)]) ++ (sz, false) :: l2) L)
        by (rewrite <- app_assoc; exact LC).
      assert (Em : first_bp + total (l1' ++ [(sp, true)]) = first_bp + total l1' + sp)
        by (rewrite total_app; cbn [total]; lia).
      assert (Nm : no_adj_free true (l1' ++ [(sp, true)]) = true).
      { rewrite no_adj_free_app, N1. cbn [no_adj_free andb]. rewrite N1'. reflexivity. }
      destruct l2 as [|[s2 [|]] r2].
      * exists (first_bp + total l1' + sp), st, (l1' ++ (sp, true) :: (sz, false) :: []), L, sz.
        split. { rewrite <- Em. apply (coalesce_none _ _ _ _ _ Rm); [apply last_alloc_snoc | discriminate]. }
        split. { split; [exact R | split; [exact LC|]]. rewrite no_adj_free_app, N1.
                 cbn [no_adj_free andb]. rewrite N1'. reflexivity. }
        split. { rewrite layout_app. apply in_or_app. right. cbn [layout]. right. left. reflexivity. }
        split; [lia|]. split; [tauto | apply meta_only_refl].
      * exists (first_bp + total l1' + sp), st, (l1' ++ (sp, true) :: (sz, false) :: (s2, true) :: r2), L, sz.
        split. { rewrite <- Em. apply (coalesce_none _ _ _ _ _ Rm); [apply last_alloc_snoc|].
                 intros ? ? ? E; inversion E; reflexivity. }
        split. { split; [exact R | split; [exact LC|]]. rewrite no_adj_free_app, N1.
                 cbn [no_adj_free andb] in N2 |- *. rewrite N1'.
                 rewrite orb_true_r in N2 |- *. exact N2. }
        split. { rewrite layout_app. apply in_or_app. right. cbn [layout]. right. left. reflexivity. }
        split; [lia|]. split; [tauto | apply meta_only_refl].
      * destruct (coalesce_next _ _ _ _ _ _ Rm LCm (last_alloc_snoc _ _ _ _))
          as (st' & L' & E & R' & LC' & M).
        inversion Hok3 as [|? ? [Hs2 _] _]; subst. cbn [fst] in Hs2.
        exists (first_bp + total l1' + sp), st',
          ((l1' ++ [(sp, true)]) ++ (sz + s2, false) :: r2), L', (sz + s2).
        split; [rewrite <- Em; exact E|].
        split. { split; [exact R' | split; [exact LC'|]]. rewrite no_adj_free_app, Nm.
                 rewrite last_alloc_snoc. exact N2. }
        split; [rewrite <- Em; apply layout_in_app|]. split; [lia|]. split.
        -- intros b s.
           replace (l1' ++ (sp, true) :: (sz, false) :: (s2, false) :: r2)
             with ((l1' ++ [(sp, true)]) ++ (sz, false) :: (s2, false) :: r2)
             by (rewrite <- app_assoc; reflexivity).
           apply (layout_alloc_region first_bp _ [(sz, false); (s2, false)] [(sz + s2, false)] r2);
             [cbn [total]; lia | |]; intros x Hx; cbn [In] in Hx;
             repeat (destruct Hx as [<-|Hx]; [reflexivity|]); contradiction.
        -- replace (l1' ++ (sp, true) :: (sz, false) :: (s2, false) :: r2)
             with ((l1' ++ [(sp, true)]) ++ (sz, false) :: (s2, false) :: r2)
             by (rewrite <- app_assoc; reflexivity).
           exact M.
    + (* the block before is free *)
      rewrite orb_false_r in N1'.
      destruct l2 as [|[s2 [|]] r2].
      * destruct (coalesce_prev _ _ _ _ _ _ R LC) as (st' & L' & E & R' & LC' & M);
          [discriminate|].
        exists (first_bp + total l1'), st', (l1' ++ (sz + sp, false) :: []), L', (sz + sp).
        split; [exact E|].
        split. { split; [exact R' | split; [exact LC'|]]. rewrite no_adj_free_app, N1.
                 cbn [no_adj_free andb]. rewrite N1'. reflexivity. }
        split; [apply layout_in_app|]. split; [lia|]. split; [|exact M].
        intros b s.
        apply (layout_alloc_region first_bp l1' [(sp, false); (sz, false)] [(sz + sp, false)] []);
          [cbn [total]; lia | |]; intros x Hx; cbn [In] in Hx;
          repeat (destruct Hx as [<-|Hx]; [reflexivity|]); contradiction.
      * destruct (coalesce_prev _ _ _ _ _ _ R LC) as (st' & L' & E & R' & LC' & M).
        { intros ? ? ? E; inversion E; reflexivity. }
        exists (first_bp + total l1'), st', (l1' ++ (sz + sp, false) :: (s2, true) :: r2), L', (sz + sp).
        split; [exact E|].
        split. { split; [exact R' | split; [exact LC'|]]. rewrite no_adj_free_app, N1.
                 cbn [no_adj_free andb] in N2 |- *. rewrite N1'.
                 rewrite orb_true_r in N2 |- *. exact N2. }
        split; [apply layout_in_app|]. split; [lia|]. split; [|exact M].
        intros b s.
        apply (layout_alloc_region first_bp l1' [(sp, false); (sz, false)] [(sz + sp, false)]
                 ((s2, true) :: r2));
          [cbn [total]; lia | |]; intros x Hx; cbn [In] in Hx;
          repeat (destruct Hx as [<-|Hx]; [reflexivity|]); contradiction.
      * destruct (coalesce_both _ _ _ _ _ _ _ R LC) as (st' & L' & E & R' & LC' & M).
        inversion Hok3 as [|? ? [Hs2 _] _]; subst. cbn [fst] in Hs2.
        exists (first_bp + total l1'), st', (l1' ++ (sz + (s2 + sp), false) :: r2), L',
          (sz + (s2 + sp)).
        split; [exact E|].
        split. { split; [exact R' | split; [exact LC'|]]. rewrite no_adj_free_app, N1.
                 cbn [no_adj_free andb] in N2 |- *. rewrite N1'. exact N2. }
        split; [apply layout_in_app|]. split; [lia|]. split; [|exact M].
        intros b s.
        apply (layout_alloc_region first_bp l1' [(sp, false); (sz, false); (s2, false)]
                 [(sz + (s2 + sp), false)] r2);
          [cbn [total]; lia | |]; intros x Hx; cbn [In] in Hx;
          repeat (destruct Hx as [<-|Hx]; [reflexivity|]); contradiction.
Qed.

(** [free] of an allocated block keeps the heap invariant, makes exactly
    that block free and leaves the payload of every other allocated block
    alone. *)
Theorem free_inv st bs L p sz :
  heap_inv st bs L -> In (p, sz, true) (layout first_bp bs) ->
  exists bs' L',
    heap_inv (free st p) bs' L'
    /\ (forall b s, In (b, s, true) (layout first_bp bs') <->
                    In (b, s, true) (layout first_bp bs) /\ b <> p)
    /\ (forall b s x, In (b, s, true) (layout first_bp bs) -> b <> p ->
          b <= x < b + s - WSIZE -> load8 (mem (free st p)) x = load8 (mem st) x).
Proof.
  intros (R & LC & NA) Hin.
  destruct (layout_in_split _ _ _ _ _ Hin) as (l1 & l2 & -> & ->).
  set (p := first_bp + total l1) in *.
  pose proof (rep_sizes_ok _ _ _ R) as Hok.
  destruct (free_mark _ _ _ _ _ R) as (st1 & E & R1 & F1). fold p in E, F1.
  assert (Hin1 : In (p, sz, false) (layout first_bp (l1 ++ (sz, false) :: l2)))
    by apply layout_in_app.
  assert (Hnot : ~ In p (L (seg_index sz))).
  { intros H. destruct (rep_nodes _ _ _ R _ _ (seg_index_range sz) H) as (s' & Hi & _).
    destruct (layout_functional _ _ _ _ _ _ _ Hok Hin Hi) as [_ Hx]. discriminate. }
  destruct (add_free_block_mem _ _ _ _ _ R1 Hin1 Hnot) as (L2 & R2 & M2 & F2).
  assert (LC2 : lists_complete (l1 ++ (sz, false) :: l2) L2).
  { intros n s Hi. apply M2; [apply seg_index_range|].
    rewrite layout_in_mid in Hi. cbn [fst snd] in Hi. fold p in Hi.
    destruct Hi as [Hi|[Hi|Hi]].
    - left. apply LC. rewrite layout_in_mid. auto.
    - injection Hi as -> ->. right. auto.
    - left. apply LC. rewrite layout_in_mid. cbn [fst snd]. auto. }
  rewrite no_adj_free_app in NA. apply andb_true_iff in NA. destruct NA as [N1 N2].
  cbn [no_adj_free] in N2. rewrite orb_true_r in N2. cbn [andb] in N2.
  destruct (coalesce_inv _ _ _ _ _ R2 LC2 N1 N2)
    as (r & st' & bs' & L' & szr & Ec & Inv' & _ & _ & Hal & Mc).
  fold p in Ec. rewrite E, Ec. cbn [snd].
  exists bs', L'. split; [exact Inv'|]. split.
  - intros b s. rewrite <- Hal. rewrite !layout_in_mid. cbn [fst snd]. fold p.
    split.
    + intros [H|[H|H]]; [| discriminate |].
      * split; [auto|]. pose proof (layout_bounds _ _ _ _ _ (proj1 (proj1 (sizes_ok_app _ _) Hok)) H).
        unfold p. lia.
      * split; [auto|]. apply sizes_ok_app in Hok. destruct Hok as [_ Hok2].
        inversion Hok2 as [|? ? [Hs _] Hok3]; subst. cbn [fst] in Hs.
        pose proof (layout_bounds _ _ _ _ _ Hok3 H). lia.
    + intros [[H|[H|H]] Hne]; [auto | | auto]. injection H as -> _ . congruence.
  - intros b s x Hb Hne Hx.
    assert (Hb1 : In (b, s, true) (layout first_bp (l1 ++ (sz, false) :: l2))).
    { rewrite layout_in_mid in Hb |- *. cbn [fst snd] in *. fold p in Hb |- *.
      destruct Hb as [H|[H|H]]; [auto | | auto]. injection H as -> _. congruence. }
    rewrite (Mc b s x Hb1 Hx). rewrite (F2 b s x Hb1 Hx). apply (F1 b s x Hb Hne Hx).
Qed.

Lemma lor_prev_alloc_1 (pa : bool) : Z.lor (if pa then 2 else 0) 1 = (if pa then 2 else 0) + 1.
Proof. destruct pa; reflexivity. Qed.

Lemma geb_true a b : b <= a -> (a >=? b) = true.
Proof. intros H. rewrite Z.geb_leb. apply Z.leb_le. assumption. Qed.

Lemma geb_false a b : a < b -> (a >=? b) = false.
Proof. intros H. rewrite Z.geb_leb. apply Z.leb_gt. assumption. Qed.

(** ** place: the block is split *)

Lemma place_split st l1 csize l2 L asize :
  heap_inv st (l1 ++ (csize, false) :: l2) L ->
  16 <= asize -> asize mod 8 = 0 -> 16 <= csize - asize ->
  let p := first_bp + total l1 in
  let rest := csize - asize in
  exists L1,
    heap_inv (place st p asize)
             (l1 ++ (asize, true) :: (rest, false) :: l2)
             (upd L1 (seg_index rest) ((p + asize) :: L1 (seg_index rest)))
    /\ (forall c x, 0 <= c < SEG_NUM -> In x (L1 c) <-> In x (L c) /\ x <> p)
    /\ (forall b s x, In (b, s, true) (layout first_bp (l1 ++ (csize, false) :: l2)) ->
          b <= x < b + s - WSIZE -> load8 (mem (place st p asize)) x = load8 (mem st) x).
Proof.
  intros (R & LC & NA) Ha1 Ha2 Hrest p rest.
  set (bs := l1 ++ (csize, false) :: l2) in *.
  destruct (rep_mid _ _ _ _ _ _ R) as (Hh & _ & Hn & Hin & Hp1 & Hs1 & Hs2 & Hp2 & Hok1 & Hok2 & Hbrk & Hmax).
  fold p in Hh, Hn, Hin, Hp1, Hp2, Hbrk. fold bs in Hin.
  pose proof (total_nonneg _ Hok2) as Ht2.
  assert (Hr2 : rest mod 8 = 0) by (unfold rest; clear - Hs2 Ha2; Z.div_mod_to_equations; lia).
  unfold place. cbv zeta.
  rewrite (GET_SIZE_hdr _ _ _ _ _ Hh Hs2), (GET_PREV_ALLOC_hdr _ _ _ _ _ Hh Hs2).
  destruct (remove_free_block_mem _ _ _ _ _ R Hin (LC _ _ Hin)) as (L1 & R1 & M1 & F1).
  set (st1 := remove_free_block st p) in *.
  rewrite (wrap64_small (csize - asize)) by blia. fold rest.
  rewrite (geb_true rest (2 * DSIZE)) by (unfold rest; consts; lia).
  rewrite PACK_alloc, PACK_2, PACK_0 by assumption.
  set (m1 := PUT (mem st1) (HDRP p) (hdr asize (last_alloc true l1) true)).
  assert (E1 : GET m1 (HDRP p) = hdr asize (last_alloc true l1) true)
    by (apply GET_PUT_hdr; unfold rest in *; blia).
  assert (EN : NEXT_BLKP m1 p = p + asize).
  { unfold NEXT_BLKP. fold (HDRP p). rewrite (GET_SIZE_hdr _ _ _ _ _ E1 Ha2). reflexivity. }
  rewrite !EN.
  set (m2 := PUT m1 (HDRP (p + asize)) (hdr rest true false)).
  assert (E2 : GET m2 (HDRP (p + asize)) = hdr rest true false)
    by (apply GET_PUT_hdr; unfold rest in *; blia).
  assert (EF : FTRP m2 (p + asize) = p + csize - DSIZE).
  { unfold FTRP. rewrite (GET_SIZE_hdr _ _ _ _ _ E2 Hr2). unfold rest. lia. }
  rewrite !EF.
  set (m3 := PUT m2 (p + csize - DSIZE) rest).
  destruct (heap_rep_region st1 bs L1 l1 [(csize, false)] [(asize, true); (rest, false)]
              l2 m3 R1 eq_refl) as [R3 F3].
  - cbn [total]. unfold rest. lia.
  - fold p. cbn [total]. intros x Hx. unfold m3, m2, m1.
    rewrite !load8_PUT_other by (unfold HDRP, rest in *; consts; lia). reflexivity.
  - fold p. cbn [seg_at]. repeat split; try assumption; try lia; try discriminate.
    + unfold m3, m2. rewrite !GET_PUT_other by (unfold HDRP, rest in *; consts; lia). exact E1.
    + unfold m3. rewrite GET_PUT_other by (unfold HDRP, rest in *; consts; lia). exact E2.
    + intros _. unfold m3. replace (p + asize + rest - DSIZE) with (p + csize - DSIZE)
        by (unfold rest; lia).
      apply GET_PUT_word. unfold rest in *; blia.
  - fold p. cbn [total last_alloc]. rewrite Z.add_0_r.
    destruct (rep_mid _ _ _ _ _ _ R1) as (_ & _ & Hn1 & _). fold p in Hn1.
    rewrite <- Hn1. unfold m3, m2, m1.
    rewrite !GET_PUT_other by (unfold HDRP, rest in *; consts; lia). reflexivity.
  - fold p. intros c n s Hc Hn' Hi. cbn [layout In] in Hi.
    apply (M1 c n Hc) in Hn'. destruct Hn' as [Hn' Hne1].
    destruct Hi as [Hi|[]]; inversion Hi; congruence.
  - set (st3 := set_mem st1 m3) in *.
    set (bs' := l1 ++ [(asize, true); (rest, false)] ++ l2) in *.
    assert (Hin3 : In (p + asize, rest, false) (layout first_bp bs')).
    { unfold bs'. rewrite layout_app. apply in_or_app. right. cbn [layout app]. fold p.
      right. left. reflexivity. }
    assert (Hnot : ~ In (p + asize) (L1 (seg_index rest))).
    { intros H. apply M1 in H; [|apply seg_index_range]. destruct H as [H _].
      destruct (rep_nodes _ _ _ R _ _ (seg_index_range rest) H) as (s' & Hi & _).
      destruct (layout_disjoint _ _ _ _ _ _ _ _ (rep_sizes_ok _ _ _ R) Hin Hi) as [[He _]|Hd];
        [lia|].
      pose proof (rep_block _ _ _ R _ _ _ Hi). unfold rest in *. lia. }
    destruct (add_free_block_rep _ _ _ _ _ R3 Hin3 Hnot) as (R4 & F4).
    exists L1. split; [|split; [exact M1|]].
    + split; [exact R4|]. split.
      * (* every free block is in its list *)
        intros n s Hi. unfold upd.
        unfold bs' in Hi. rewrite layout_app, in_app_iff in Hi. cbn [layout In app] in Hi.
        fold p in Hi. destruct Hi as [Hi|[Hi|[Hi|Hi]]].
        -- assert (Hne : n <> p).
           { pose proof (layout_bounds _ _ _ _ _ Hok1 Hi) as Hb. fold p in Hb. lia. }
           assert (In n (L1 (seg_index s))).
           { apply M1; [apply seg_index_range|]. split; [|exact Hne].
             apply LC. unfold bs. rewrite layout_app, in_app_iff. auto. }
           destruct (Z.eqb_spec (seg_index s) (seg_index rest)) as [Ee|Ee];
             [right; rewrite <- Ee|]; assumption.
        -- discriminate.
        -- injection Hi as <- <-. rewrite Z.eqb_refl. left. reflexivity.
        -- assert (Hne : n <> p).
           { pose proof (layout_bounds _ _ _ _ _ Hok2 Hi) as Hb. unfold rest in *. lia. }
           assert (In n (L1 (seg_index s))).
           { apply M1; [apply seg_index_range|]. split; [|exact Hne].
             apply LC. unfold bs. rewrite layout_app, in_app_iff. right. cbn [layout In].
             fold p. right. replace (p + csize) with (p + asize + rest) by (unfold rest; lia).
             exact Hi. }
           destruct (Z.eqb_spec (seg_index s) (seg_index rest)) as [Ee|Ee];
             [right; rewrite <- Ee|]; assumption.
      * (* no two adjacent free blocks *)
        unfold bs in NA. rewrite no_adj_free_app in NA |- *.
        apply andb_true_iff in NA. destruct NA as [N1 N2]. rewrite N1.
        cbn [no_adj_free andb] in N2 |- *. apply andb_true_iff in N2.
        destruct N2 as [N2 N3]. rewrite orb_true_r. cbn [andb orb]. exact N3.
    + intros b s x Hb Hx.
      assert (Hb' : In (b, s, true) (layout first_bp bs')).
      { unfold bs, bs' in *. rewrite layout_app, in_app_iff in Hb |- *.
        cbn [layout In app] in Hb |- *. fold p in Hb |- *.
        destruct Hb as [Hb|[Hb|Hb]]; [auto | discriminate |].
        right. right. right.
        replace (p + asize + rest) with (p + csize) by (unfold rest; lia). exact Hb. }
      rewrite (F4 b s x Hb' Hx). change (load8 m3 x = load8 (mem st) x).
      rewrite (F3 b s x Hb); [apply (F1 b s x Hb Hx) | | exact Hx].
      fold p. cbn [layout In]. intros [H|[]]. discriminate.
Qed.

Lemma no_adj_free_mono l : no_adj_free false l = true -> no_adj_free true l = true.
Proof.
  destruct l as [|[s a] r]; [reflexivity|]. cbn [no_adj_free].
  intros H. apply andb_true_iff in H. destruct H as [_ H]. rewrite H. reflexivity.
Qed.

(** ** place: the whole block is used *)

Lemma place_whole st l1 csize l2 L asize :
  heap_inv st (l1 ++ (csize, false) :: l2) L ->
  0 <= asize <= csize -> csize - asize < 16 ->
  let p := first_bp + total l1 in
  exists L1,
    heap_inv (place st p asize) (l1 ++ (csize, true) :: l2) L1
    /\ (forall c x, 0 <= c < SEG_NUM -> In x (L1 c) <-> In x (L c) /\ x <> p)
    /\ (forall b s x, In (b, s, true) (layout first_bp (l1 ++ (csize, false) :: l2)) ->
          b <= x < b + s - WSIZE -> load8 (mem (place st p asize)) x = load8 (mem st) x).
Proof.
  intros (R & LC & NA) Ha1 Hrest p.
  set (bs := l1 ++ (csize, false) :: l2) in *.
  destruct (rep_mid _ _ _ _ _ _ R) as (Hh & _ & Hn & Hin & Hp1 & Hs1 & Hs2 & Hp2 & Hok1 & Hok2 & Hbrk & Hmax).
  fold p in Hh, Hn, Hin, Hp1, Hp2, Hbrk. fold bs in Hin.
  pose proof (total_nonneg _ Hok2) as Ht2.
  destruct (first_hdr_shape l2 Hok2) as (s2 & a2 & Hfh & Hs2m & Hs2r).
  unfold place. cbv zeta.
  rewrite (GET_SIZE_hdr _ _ _ _ _ Hh Hs2), (GET_PREV_ALLOC_hdr _ _ _ _ _ Hh Hs2).
  destruct (remove_free_block_mem _ _ _ _ _ R Hin (LC _ _ Hin)) as (L1 & R1 & M1 & F1).
  set (st1 := remove_free_block st p) in *.
  rewrite (wrap64_small (csize - asize)) by blia.
  rewrite (geb_false (csize - asize) (2 * DSIZE)) by (consts; lia).
  rewrite PACK_alloc by assumption.
  set (m1 := PUT (mem st1) (HDRP p) (hdr csize (last_alloc true l1) true)).
  assert (E1 : GET m1 (HDRP p) = hdr csize (last_alloc true l1) true)
    by (apply GET_PUT_hdr; blia).
  assert (EN : NEXT_BLKP m1 p = p + csize).
  { unfold NEXT_BLKP. fold (HDRP p). rewrite (GET_SIZE_hdr _ _ _ _ _ E1 Hs2). reflexivity. }
  rewrite !EN.
  destruct (Z.eqb_spec (p + csize) NULL) as [Hz|_]; [consts; lia|]. cbn [negb].
  destruct (rep_mid _ _ _ _ _ _ R1) as (_ & _ & Hn1 & _). fold p in Hn1.
  assert (E2 : GET m1 (HDRP (p + csize)) = hdr s2 false a2).
  { unfold m1. rewrite GET_PUT_other by (unfold HDRP; consts; lia). rewrite Hn1. apply Hfh. }
  rewrite E2, hdr_set_prev_alloc by assumption.
  set (m2 := PUT m1 (HDRP (p + csize)) (hdr s2 true a2)).
  destruct (heap_rep_region st1 bs L1 l1 [(csize, false)] [(csize, true)]
              l2 m2 R1 eq_refl eq_refl) as [R3 F3].
  - fold p. cbn [total]. intros x Hx. unfold m2, m1.
    rewrite !load8_PUT_other by (unfold HDRP; consts; lia). reflexivity.
  - fold p. cbn [seg_at]. repeat split; try assumption; try lia; try discriminate.
    unfold m2. rewrite GET_PUT_other by (unfold HDRP; consts; lia). exact E1.
  - fold p. cbn [total last_alloc]. rewrite Z.add_0_r, Hfh.
    unfold m2. apply GET_PUT_hdr. blia.
  - fold p. intros c n s Hc Hn' Hi. cbn [layout In] in Hi.
    apply (M1 c n Hc) in Hn'. destruct Hn' as [Hn' Hne1].
    destruct Hi as [Hi|[]]; inversion Hi; congruence.
  - exists L1. split; [|split; [exact M1|]].
    + split; [exact R3|]. split.
      * intros n s Hi. rewrite layout_in_mid in Hi. cbn [fst snd] in Hi. fold p in Hi.
        destruct Hi as [Hi|[Hi|Hi]]; [| discriminate |].
        -- apply M1; [apply seg_index_range|]. split.
           ++ apply LC. unfold bs. rewrite layout_in_mid. auto.
           ++ pose proof (layout_bounds _ _ _ _ _ Hok1 Hi) as Hb. fold p in Hb. lia.
        -- apply M1; [apply seg_index_range|]. split.
           ++ apply LC. unfold bs. rewrite layout_in_mid. cbn [fst snd]. auto.
           ++ pose proof (layout_bounds _ _ _ _ _ Hok2 Hi) as Hb. lia.
      * unfold bs in NA. rewrite no_adj_free_app in NA |- *.
        apply andb_true_iff in NA. destruct NA as [N1 N2]. rewrite N1.
        cbn [no_adj_free andb] in N2 |- *. apply andb_true_iff in N2.
        destruct N2 as [N2 N3]. rewrite orb_true_r. cbn [andb].
        apply no_adj_free_mono. exact N3.
    + intros b s x Hb Hx. change (load8 m2 x = load8 (mem st) x).
      rewrite (F3 b s x Hb); [apply (F1 b s x Hb Hx) | | exact Hx].
      fold p. cbn [layout In]. intros [H|[]]. discriminate.
Qed.

(* ================================================================== *)
(** * Extending the heap *)

Lemma triple_eq (a a' b b' : Z) (c c' : bool) :
  (a, b, c) = (a', b', c') -> a = a' /\ b = b' /\ c = c'.
Proof. intros H. inversion H. auto. Qed.

Lemma mem_sbrk_ok st incr :
  0 <= incr -> mem_brk st + incr <= mem_max_addr st ->
  mem_sbrk st incr =
  Some (mem_brk st,
        mkState (mem st) (mem_start_brk st) (mem_brk st + incr) (mem_max_addr st)
                (heap_listp st) (seg_list_start st)).
Proof.
  intros H1 H2. unfold mem_sbrk.
  replace (incr <? 0) with false by (symmetry; apply Z.ltb_ge; lia).
  replace (mem_max_addr st <? mem_brk st + incr) with false
    by (symmetry; apply Z.ltb_ge; lia).
  reflexivity.
Qed.

Lemma mem_sbrk_fail st incr :
  mem_max_addr st < mem_brk st + incr -> mem_sbrk st incr = None.
Proof.
  intros H. unfold mem_sbrk.
  replace (mem_max_addr st <? mem_brk st + incr) with true
    by (symmetry; apply Z.ltb_lt; lia).
  rewrite orb_true_r. reflexivity.
Qed.

(** A new free block of [size] bytes in place of the old epilogue. *)
Lemma heap_rep_extend st bs L size m' :
  heap_rep st bs L ->
  mem_brk st + size <= mem_max_addr st ->
  (forall x, x < mem_brk st - 4 -> load8 m' x = load8 (mem st) x) ->
  seg_at m' (mem_brk st) (last_alloc true bs) [(size, false)] ->
  GET m' (HDRP (mem_brk st + size)) = hdr 0 false true ->
  heap_rep (mkState m' (mem_start_brk st) (mem_brk st + size) (mem_max_addr st)
                    (heap_listp st) (seg_list_start st))
           (bs ++ [(size, false)]) L
  /\ meta_only bs (mem st) m'.
Proof.
  intros R Hmax Hf Hnew Hepi.
  pose proof (rep_sizes_ok _ _ _ R) as Hok. pose proof (total_nonneg _ Hok) as Ht.
  pose proof (rep_brk _ _ _ R) as Hbrk.
  split.
  - constructor; cbn [mem mem_brk mem_start_brk mem_max_addr heap_listp seg_list_start];
      try solve [apply R].
    + exact Hmax.
    + rewrite <- (rep_prologue_hdr _ _ _ R). apply GET_ext. intros x Hx. apply Hf.
      rewrite (rep_heap_listp _ _ _ R) in Hx. unfold HDRP in Hx. consts. lia.
    + rewrite <- (rep_prologue_ftr _ _ _ R). apply GET_ext. intros x Hx. apply Hf.
      rewrite (rep_heap_listp _ _ _ R) in Hx. consts. lia.
    + apply seg_at_app. split.
      * generalize (rep_blocks _ _ _ R). apply seg_at_below; [assumption|].
        intros x Hx. apply Hf. lia.
      * rewrite <- Hbrk. exact Hnew.
    + rewrite total_app. cbn [total]. lia.
    + rewrite last_alloc_app. cbn [last_alloc]. exact Hepi.
    + intros c Hc. destruct (rep_lists _ _ _ R c Hc) as [Hs Hd]. split.
      * rewrite <- Hs. apply GET64_ext. intros x Hx. apply Hf. consts. lia.
      * unfold dll in *. revert Hd. apply dlseg_frame. intros n Hin.
        destruct (rep_node _ _ _ R _ _ Hc Hin) as (s & _ & _ & _ & H1 & H2 & H3 & _).
        unfold GET_PREV, GET_NEXT.
        split; apply GET_ext; intros x Hx; apply Hf; consts; lia.
    + intros c n Hc Hin. destruct (rep_nodes _ _ _ R c n Hc Hin) as (s & Hi & Hcl).
      exists s. split; [|assumption]. rewrite layout_app. apply in_or_app. auto.
  - intros b s x Hin Hx. apply Hf. pose proof (rep_block _ _ _ R _ _ _ Hin). consts. lia.
Qed.

(** The block [extend_heap] creates, before it is coalesced: a free block of
    [size] bytes after the old blocks, at the head of the list of its class. *)
Lemma extend_heap_block_rep st bs L size :
  heap_rep st bs L -> lists_complete bs L ->
  16 <= size -> size mod 8 = 0 -> mem_brk st + size <= mem_max_addr st ->
  let bp := mem_brk st in
  let st1 := extend_heap_block (grown st size) bp size in
  let c := seg_index size in
  heap_rep st1 (bs ++ [(size, false)]) (upd L c (bp :: L c))
  /\ lists_complete (bs ++ [(size, false)]) (upd L c (bp :: L c))
  /\ meta_only bs (mem st) (mem st1)
  /\ bp = first_bp + total bs.
Proof.
  intros R LC Hs1 Hs2 Hfit bp st1 c.
  pose proof (rep_sizes_ok _ _ _ R) as Hok. pose proof (total_nonneg _ Hok) as Ht.
  pose proof (rep_brk _ _ _ R) as Hbrk. pose proof (rep_max _ _ _ R) as Hmax.
  pose proof (rep_epilogue _ _ _ R) as He. fold bp in Hbrk, He.
  unfold st1, extend_heap_block, grown. cbv zeta. cbn [mem]. fold bp.
  rewrite (GET_PREV_ALLOC_hdr _ _ _ _ _ He eq_refl).
  rewrite PACK_free, PACK_0 by assumption.
  set (m1 := PUT (mem st) (HDRP bp) (hdr size (last_alloc true bs) false)).
  assert (E1 : GET m1 (HDRP bp) = hdr size (last_alloc true bs) false)
    by (apply GET_PUT_hdr; unfold bp in *; blia).
  assert (EF : FTRP m1 bp = bp + size - DSIZE).
  { unfold FTRP. rewrite (GET_SIZE_hdr _ _ _ _ _ E1 Hs2). reflexivity. }
  rewrite !EF.
  set (m2 := PUT m1 (bp + size - DSIZE) size).
  assert (EN : NEXT_BLKP m2 bp = bp + size).
  { unfold NEXT_BLKP, m2. fold (HDRP bp).
    rewrite GET_SIZE_PUT_other by (unfold HDRP; consts; lia).
    rewrite (GET_SIZE_hdr _ _ _ _ _ E1 Hs2). reflexivity. }
  rewrite !EN. change (PACK 0 1) with (hdr 0 false true).
  set (m3 := PUT m2 (HDRP (bp + size)) (hdr 0 false true)).
  rewrite (geb_true size (2 * DSIZE)) by (consts; lia).
  destruct (heap_rep_extend st bs L size m3 R Hfit) as [R1 F1].
  - intros x Hx. unfold m3, m2, m1. fold bp in Hx.
    rewrite !load8_PUT_other by (unfold HDRP; consts; lia). reflexivity.
  - fold bp. cbn [seg_at]. repeat split; try assumption.
    + unfold m3, m2. rewrite !GET_PUT_other by (unfold HDRP; consts; lia). exact E1.
    + intros _. unfold m3. rewrite GET_PUT_other by (unfold HDRP; consts; lia).
      unfold m2. apply GET_PUT_word. unfold bp in *. blia.
  - fold bp. unfold m3. rewrite GET_PUT_same. reflexivity.
  - fold bp in R1.
    set (st0 := mkState m3 (mem_start_brk st) (bp + size) (mem_max_addr st)
                        (heap_listp st) (seg_list_start st)) in *.
    change (set_mem _ m3) with st0.
    assert (Hin1 : In (bp, size, false) (layout first_bp (bs ++ [(size, false)]))).
    { rewrite Hbrk. apply layout_in_app. }
    assert (Hnot : ~ In bp (L (seg_index size))).
    { intros H. destruct (rep_node _ _ _ R _ _ (seg_index_range size) H)
        as (s & _ & _ & _ & H1 & H2 & H3 & _). fold bp in H2. lia. }
    destruct (add_free_block_rep _ _ _ _ _ R1 Hin1 Hnot) as (R2 & F2).
    split; [exact R2|]. split; [|split; [|exact Hbrk]].
    + intros n s Hi. unfold upd, c.
      rewrite layout_app, in_app_iff in Hi. cbn [layout In] in Hi.
      destruct Hi as [Hi|[Hi|[]]].
      * specialize (LC _ _ Hi).
        destruct (Z.eqb_spec (seg_index s) (seg_index size)) as [Ee|Ee];
          [right; rewrite <- Ee|]; assumption.
      * apply triple_eq in Hi. destruct Hi as (<- & <- & _).
        rewrite Z.eqb_refl. left. exact Hbrk.
    + intros b s x Hi Hx.
      assert (Hi' : In (b, s, true) (layout first_bp (bs ++ [(size, false)])))
        by (rewrite layout_app, in_app_iff; auto).
      rewrite (F2 b s x Hi' Hx). apply (F1 b s x Hi Hx).
Qed.

Lemma extend_heap_tail_inv st bs L size :
  heap_inv st bs L -> 16 <= size -> size mod 8 = 0 ->
  (mem_max_addr st < mem_brk st + size /\ extend_heap_tail st size = (NULL, st))
  \/ (mem_brk st + size <= mem_max_addr st /\
      exists r st' bs' L' szr,
        extend_heap_tail st size = (r, st')
        /\ heap_inv st' bs' L'
        /\ In (r, szr, false) (layout first_bp bs') /\ size <= szr
        /\ (forall b s, In (b, s, true) (layout first_bp bs) <->
                        In (b, s, true) (layout first_bp bs'))
        /\ meta_only bs (mem st) (mem st')).
Proof.
  intros (R & LC & NA) Hs1 Hs2.
  destruct (Z_lt_le_dec (mem_max_addr st) (mem_brk st + size)) as [Hfail|Hfit].
  - left. split; [assumption|]. unfold extend_heap_tail.
    rewrite mem_sbrk_fail by assumption. reflexivity.
  - right. split; [assumption|].
    unfold extend_heap_tail. rewrite mem_sbrk_ok by (assumption || lia).
    fold (grown st size).
    destruct (extend_heap_block_rep _ _ _ _ R LC Hs1 Hs2 Hfit) as (R2 & LC2 & F2 & Hbp).
    destruct (coalesce_inv _ _ _ _ _ R2 LC2 NA eq_refl)
      as (r & st' & bs' & L' & szr & Ec & Inv' & Hr & Hsz & Hal & Mc).
    rewrite <- Hbp in Ec.
    exists r, st', bs', L', szr. split; [exact Ec|]. split; [exact Inv'|].
    split; [exact Hr|]. split; [exact Hsz|]. split.
    + intros b s. rewrite <- Hal. rewrite layout_app, in_app_iff. cbn [layout In].
      split; [auto|]. intros [H|[H|[]]]; [assumption | discriminate].
    + intros b s x Hi Hx.
      assert (Hi' : In (b, s, true) (layout first_bp (bs ++ [(size, false)])))
        by (rewrite layout_app, in_app_iff; auto).
      rewrite (Mc b s x Hi' Hx). apply (F2 b s x Hi Hx).
Qed.

(** When the last block is allocated nothing is merged: the new block is the
    result. *)
Lemma extend_heap_tail_after_alloc st bs L size :
  heap_inv st bs L -> last_alloc true bs = true ->
  16 <= size -> size mod 8 = 0 -> mem_brk st + size <= mem_max_addr st ->
  extend_heap_tail st size
    = (mem_brk st, extend_heap_block (grown st size) (mem_brk st) size)
  /\ heap_inv (extend_heap_block (grown st size) (mem_brk st) size)
              (bs ++ [(size, false)])
              (upd L (seg_index size) (mem_brk st :: L (seg_index size))).
Proof.
  intros (R & LC & NA) Hla Hs1 Hs2 Hfit.
  destruct (extend_heap_block_rep _ _ _ _ R LC Hs1 Hs2 Hfit) as (R2 & LC2 & F2 & Hbp).
  split.
  - unfold extend_heap_tail. rewrite mem_sbrk_ok by (assumption || lia).
    fold (grown st size).
    assert (Ec := coalesce_none _ _ _ _ _ R2 Hla). rewrite <- Hbp in Ec.
    apply Ec. discriminate.
  - split; [exact R2|]. split; [exact LC2|].
    rewrite no_adj_free_app, NA, Hla. reflexivity.
Qed.

(* ================================================================== *)
(** * The searches of the code and of the placement policy *)

Lemma best_from_exact A n r : best_from A (Some (n, A)) r = Some (n, A).
Proof.
  induction r as [|[n' s'] r IH]; [reflexivity|]. cbn [best_from snd].
  destruct (Z.leb_spec A s'); [|exact IH].
  destruct (Z.ltb_spec s' A); [lia | exact IH].
Qed.

Lemma best_from_some A b l : exists b', best_from A (Some b) l = Some b'.
Proof.
  revert b; induction l as [|ns r IH]; intros b; [eexists; reflexivity|].
  cbn [best_from]. destruct (A <=? snd ns); [|apply IH].
  destruct (snd ns <? snd b); apply IH.
Qed.

(** The successors of a node in a list segment. *)
Lemma first_fit_loop_spec m A fuel p n r :
  dlseg m p (n :: r) 0 -> (forall x, In x r -> x <> BASEADDR) ->
  (length r < fuel)%nat ->
  first_fit_loop fuel m A n = Some (ptr_of (spec_first_fit A (sized m r))).
Proof.
  revert fuel p n; induction r as [|n' r IH]; intros fuel p n Hd Hnz Hf.
  - destruct fuel; [simpl in Hf; lia|]. rewrite dlseg_unfold in Hd.
    destruct Hd as (_ & Hnx & _). cbn [hdoff] in Hnx.
    cbn [first_fit_loop]. rewrite Hnx. reflexivity.
  - destruct fuel; [simpl in Hf; lia|]. rewrite dlseg_unfold in Hd.
    destruct Hd as (_ & Hnx & Hd). cbn [hdoff] in Hnx.
    cbn [first_fit_loop]. rewrite Hnx.
    destruct (Z.eqb_spec (n' - BASEADDR) 0) as [Hz|_].
    { exfalso. apply (Hnz n' (or_introl eq_refl)). lia. }
    cbn [negb]. unfold OFFSET_REAL. replace (n' - BASEADDR + BASEADDR) with n' by lia.
    unfold spec_first_fit. cbn [sized map find snd].
    destruct (A <=? GET_SIZE m (HDRP n')); [reflexivity|].
    apply (IH fuel _ n' Hd).
    + intros x Hx. apply Hnz. right. assumption.
    + simpl in Hf. lia.
Qed.

Lemma best_fit_loop_spec m A fuel p n r small result best :
  dlseg m p (n :: r) 0 -> (forall x, In x r -> x <> BASEADDR) ->
  (length r < fuel)%nat ->
  match best with
  | None => result = NULL
  | Some b => result = fst b /\ small = snd b /\ result <> NULL /\ A < snd b
  end ->
  (forall x, In x r -> x <> NULL) ->
  best_fit_loop fuel m A n small result =
  Some (ptr_of (match best_from A best (sized m r) with
                | Some ns => Some (fst ns) | None => None end)).
Proof.
  revert fuel p n small result best; induction r as [|n' r IH];
    intros fuel p n small result best Hd Hnz Hf Hb Hnn.
  - destruct fuel; [simpl in Hf; lia|]. rewrite dlseg_unfold in Hd.
    destruct Hd as (_ & Hnx & _). cbn [hdoff] in Hnx.
    cbn [best_fit_loop]. rewrite Hnx. cbn [Z.eqb negb sized map best_from].
    destruct best as [b|]; [destruct Hb as (-> & _); reflexivity | subst; reflexivity].
  - destruct fuel; [simpl in Hf; lia|]. rewrite dlseg_unfold in Hd.
    destruct Hd as (_ & Hnx & Hd). cbn [hdoff] in Hnx.
    cbn [best_fit_loop]. rewrite Hnx.
    destruct (Z.eqb_spec (n' - BASEADDR) 0) as [Hz|_].
    { exfalso. apply (Hnz n' (or_introl eq_refl)). lia. }
    cbn [negb]. unfold OFFSET_REAL. replace (n' - BASEADDR + BASEADDR) with n' by lia.
    cbn [sized map best_from snd]. fold (sized m r).
    set (s := GET_SIZE m (HDRP n')).
    assert (Hnz' : forall x, In x r -> x <> BASEADDR) by (intros; apply Hnz; right; assumption).
    assert (Hnn' : forall x, In x r -> x <> NULL) by (intros; apply Hnn; right; assumption).
    assert (Hf' : (length r < fuel)%nat) by (simpl in Hf; lia).
    assert (Hn0 : n' <> NULL) by (apply Hnn; left; reflexivity).
    destruct (Z.eqb_spec A s) as [Heq|Hne].
    + (* an exact match ends the search *)
      rewrite <- Heq. rewrite Z.leb_refl.
      destruct best as [[bn bs]|].
      * destruct Hb as (_ & _ & _ & Hlt). cbn [snd] in Hlt |- *.
        destruct (Z.ltb_spec A bs); [|lia].
        rewrite best_from_exact. reflexivity.
      * rewrite best_from_exact. reflexivity.
    + destruct (Z.ltb_spec A s) as [Hlt|Hge].
      * replace (A <=? s) with true by (symmetry; apply Z.leb_le; lia).
        destruct best as [[bn bs]|].
        -- destruct Hb as (Hr & Hsm & Hrn & Hb4). cbn [fst snd] in *. subst result small.
           destruct (Z.eqb_spec bn NULL) as [|_]; [contradiction|]. cbn [orb].
           destruct (s <? bs).
           ++ apply (IH fuel _ n' s n' (Some (n', s)) Hd Hnz' Hf'); [|exact Hnn'].
              cbn [fst snd]. auto.
           ++ apply (IH fuel _ n' bs bn (Some (bn, bs)) Hd Hnz' Hf'); [|exact Hnn'].
              cbn [fst snd]. auto.
        -- subst result. cbn [Z.eqb orb].
           apply (IH fuel _ n' s n' (Some (n', s)) Hd Hnz' Hf'); [|exact Hnn'].
           cbn [fst snd]. auto.
      * replace (A <=? s) with false by (symmetry; apply Z.leb_gt; lia).
        apply (IH fuel _ n' small result best Hd Hnz' Hf' Hb Hnn').
Qed.

(** The search of one list is the per-list search of the spec. *)
Lemma find_seg_fit_spec m A fuel c l :
  seg_list m c l -> (forall x, In x l -> x <> BASEADDR /\ x <> NULL) ->
  (length l <= fuel)%nat ->
  find_seg_fit fuel m A (BASEADDR + c * DSIZE)
  = Some (ptr_of (spec_seg_fit A (sized m l))).
Proof.
  intros [Hs Hd] Hn Hf. unfold find_seg_fit. cbv zeta. rewrite Hs.
  destruct l as [|n r]; [rewrite Z.eqb_refl; unfold spec_seg_fit; destruct (A <? 960); reflexivity|].
  destruct (Z.eqb_spec n 0) as [Hz|_].
  { exfalso. apply (proj2 (Hn n (or_introl eq_refl))). exact Hz. }
  assert (Hnz : forall x, In x r -> x <> BASEADDR) by (intros x Hx; apply Hn; right; assumption).
  assert (Hnn : forall x, In x r -> x <> NULL) by (intros x Hx; apply Hn; right; assumption).
  assert (Hf' : (length r < fuel)%nat) by (simpl in Hf; lia).
  unfold spec_seg_fit, SEG_SIZE7. destruct (A <? 960).
  - unfold spec_first_fit at 1. cbn [sized map find snd]. fold (sized m r).
    destruct (A <=? GET_SIZE m (HDRP n)); [reflexivity|].
    apply (first_fit_loop_spec m A fuel 0 n r Hd Hnz Hf').
  - unfold spec_best_fit. cbn [sized map best_from snd]. fold (sized m r).
    set (s := GET_SIZE m (HDRP n)).
    destruct (Z.eqb_spec A s) as [Heq|Hne].
    + rewrite <- Heq, Z.leb_refl, best_from_exact. reflexivity.
    + destruct (Z.ltb_spec A s) as [Hlt|Hge].
      * replace (A <=? s) with true by (symmetry; apply Z.leb_le; lia).
        apply (best_fit_loop_spec m A fuel 0 n r s n (Some (n, s)) Hd Hnz Hf'); [|exact Hnn].
        cbn [fst snd]. pose proof (proj2 (Hn n (or_introl eq_refl))). auto.
      * replace (A <=? s) with false by (symmetry; apply Z.leb_gt; lia).
        apply (best_fit_loop_spec m A fuel 0 n r 0 NULL None Hd Hnz Hf'); [reflexivity|exact Hnn].
Qed.

Lemma seg_index_mono a b : a <= b -> seg_index a <= seg_index b.
Proof.
  intros H. unfold seg_index, SEG_SIZE1, SEG_SIZE2, SEG_SIZE3, SEG_SIZE4, SEG_SIZE5,
    SEG_SIZE6, SEG_SIZE7, SEG_SIZE8, SEG_SIZE9, SEG_SIZE10, SEG_SIZE11, SEG_SIZE12,
    SEG_SIZE13.
  repeat match goal with
         | |- context [?x <? ?y] => destruct (Z.ltb_spec x y)
         end; lia.
Qed.

(** ** The per-list searches of the spec *)

Lemma best_from_in A best l b :
  best_from A best l = Some b -> best = Some b \/ (In b l /\ A <= snd b).
Proof.
  revert best; induction l as [|ns r IH]; intros best H; [left; exact H|].
  cbn [best_from] in H. destruct (Z.leb_spec A (snd ns)) as [Hle|Hgt].
  - destruct best as [b0|].
    + destruct (snd ns <? snd b0).
      * destruct (IH _ H) as [E|[E1 E2]]; [inversion E; subst; right; simpl; auto|].
        right. simpl. auto.
      * destruct (IH _ H) as [E|[E1 E2]]; [left; exact E | right; simpl; auto].
    + destruct (IH _ H) as [E|[E1 E2]]; [inversion E; subst; right; simpl; auto|].
      right. simpl. auto.
  - destruct (IH _ H) as [E|[E1 E2]]; [left; exact E | right; simpl; auto].
Qed.

(** The result of best fit is no larger than any candidate. *)
Lemma best_from_min A best l b :
  best_from A best l = Some b ->
  (forall b0, best = Some b0 -> snd b <= snd b0)
  /\ (forall ns, In ns l -> A <= snd ns -> snd b <= snd ns).
Proof.
  revert best; induction l as [|ns r IH]; intros best H.
  - cbn [best_from] in H. subst best. split.
    + intros b0 E. inversion E. lia.
    + intros ns [].
  - cbn [best_from] in H. destruct (Z.leb_spec A (snd ns)) as [Hle|Hgt].
    + destruct best as [b0|].
      * destruct (Z.ltb_spec (snd ns) (snd b0)) as [Hlt|Hge];
          destruct (IH _ H) as [I1 I2]; split.
        -- intros b1 E. inversion E; subst. specialize (I1 _ eq_refl). lia.
        -- intros ns' [<-|Hin] Hc; [apply (I1 _ eq_refl) | auto].
        -- exact I1.
        -- intros ns' [<-|Hin] Hc; [specialize (I1 _ eq_refl); lia | auto].
      * destruct (IH _ H) as [I1 I2]. split; [discriminate|].
        intros ns' [<-|Hin] Hc; [apply (I1 _ eq_refl) | auto].
    + destruct (IH _ H) as [I1 I2]. split; [exact I1|].
      intros ns' [<-|Hin] Hc; [lia | auto].
Qed.

(** Among the candidates of the same size the first encountered wins: every
    candidate before the result is strictly larger. *)
Lemma best_from_first A l b :
  best_from A None l = Some b ->
  exists l1 l2, l = l1 ++ b :: l2 /\ A <= snd b
    /\ (forall ns, In ns l1 -> A <= snd ns -> snd b < snd ns)
    /\ (forall ns, In ns l2 -> A <= snd ns -> snd b <= snd ns).
Proof.
  assert (G : forall l best b,
             best_from A best l = Some b ->
             best = Some b
             \/ exists l1 l2, l = l1 ++ b :: l2 /\ A <= snd b
                  /\ (forall b0, best = Some b0 -> snd b < snd b0)
                  /\ (forall ns, In ns l1 -> A <= snd ns -> snd b < snd ns)
                  /\ (forall ns, In ns l2 -> A <= snd ns -> snd b <= snd ns)).
  { clear l b. induction l as [|ns r IH]; intros best b H; [left; exact H|].
    cbn [best_from] in H.
    assert (Hnew : forall best0 : option (Z * Z),
              best_from A (Some ns) r = Some b -> A <= snd ns ->
              (forall b0, best0 = Some b0 -> snd ns < snd b0) ->
              exists l1 l2, ns :: r = l1 ++ b :: l2 /\ A <= snd b
                /\ (forall b0, best0 = Some b0 -> snd b < snd b0)
                /\ (forall x, In x l1 -> A <= snd x -> snd b < snd x)
                /\ (forall x, In x l2 -> A <= snd x -> snd b <= snd x)).
    { intros best0 H' Hle Hb0. destruct (IH _ _ H') as [E|(l1 & l2 & -> & Hc & I0 & I1 & I2)].
      - inversion E; subst b. exists [], r. split; [reflexivity|]. split; [assumption|].
        split; [exact Hb0|]. split; [intros x []|].
        destruct (best_from_min _ _ _ _ H') as [_ Hm]. exact Hm.
      - exists (ns :: l1), l2. split; [reflexivity|]. split; [assumption|].
        specialize (I0 _ eq_refl). split.
        + intros b0 E. specialize (Hb0 _ E). lia.
        + split; [|exact I2]. intros x [<-|Hx] Hcx; [exact I0 | auto]. }
    assert (Hold : best_from A best r = Some b ->
              (A <= snd ns -> exists b0, best = Some b0 /\ snd b0 <= snd ns) ->
              best = Some b
              \/ exists l1 l2, ns :: r = l1 ++ b :: l2 /\ A <= snd b
                /\ (forall b0, best = Some b0 -> snd b < snd b0)
                /\ (forall x, In x l1 -> A <= snd x -> snd b < snd x)
                /\ (forall x, In x l2 -> A <= snd x -> snd b <= snd x)).
    { intros H' Hk. destruct (IH _ _ H') as [E|(l1 & l2 & -> & Hc & I0 & I1 & I2)];
        [left; exact E|].
      right. exists (ns :: l1), l2. split; [reflexivity|]. split; [assumption|].
      split; [exact I0|]. split; [|exact I2].
      intros x [<-|Hx] Hcx; [|auto].
      destruct (Hk Hcx) as (b0 & E0 & Hb0). specialize (I0 _ E0). lia. }
    destruct (Z.leb_spec A (snd ns)) as [Hle|Hgt].
    - destruct best as [b0|].
      + destruct (Z.ltb_spec (snd ns) (snd b0)) as [Hlt|Hge].
        * right. apply (Hnew (Some b0) H Hle). intros b1 E. inversion E; subst. exact Hlt.
        * apply (Hold H). intros _. exists b0. auto.
      + right. apply (Hnew None H Hle). discriminate.
    - apply (Hold H). intros Hc. lia. }
  intros H. destruct (G l None b H) as [E|(l1 & l2 & E & Hc & _ & I1 & I2)]; [discriminate|].
  exists l1, l2. auto.
Qed.

Lemma heap_rep_free_lists_ok st bs L : heap_rep st bs L -> free_lists_ok st L.
Proof.
  intros R. split; [apply R|]. intros c Hc. split; [apply (rep_lists _ _ _ R c Hc)|].
  intros n Hin. destruct (rep_node _ _ _ R _ _ Hc Hin) as (s & _ & E1 & E2 & H1 & _).
  rewrite E2. repeat split; try assumption; consts; lia.
Qed.

Lemma sized_in m l x s :
  In (x, s) (sized m l) <-> In x l /\ s = GET_SIZE m (HDRP x).
Proof.
  unfold sized. rewrite in_map_iff. split.
  - intros (n & E & Hin). inversion E; subst. auto.
  - intros [Hin ->]. exists x. auto.
Qed.

Lemma spec_seg_fit_some A l x :
  spec_seg_fit A l = Some x -> exists s, In (x, s) l /\ A <= s.
Proof.
  unfold spec_seg_fit, spec_first_fit, spec_best_fit. destruct (A <? 960).
  - destruct (find (fun ns => A <=? snd ns) l) as [[n s]|] eqn:E; [|discriminate].
    intros H. inversion H; subst. apply find_some in E. destruct E as [E1 E2].
    exists s. split; [assumption|]. apply Z.leb_le. exact E2.
  - destruct (best_from A None l) as [[n s]|] eqn:E; [|discriminate].
    intros H. inversion H; subst.
    destruct (best_from_in _ _ _ _ E) as [E1|[E1 E2]]; [discriminate|]. eauto.
Qed.

Lemma best_from_none A l :
  best_from A None l = None -> forall ns, In ns l -> snd ns < A.
Proof.
  induction l as [|ns r IH]; intros H x Hin; [contradiction|].
  cbn [best_from] in H. destruct (Z.leb_spec A (snd ns)) as [Hle|Hgt].
  - destruct (best_from_some A ns r) as (b' & E). congruence.
  - destruct Hin as [<-|Hin]; [assumption | auto].
Qed.

Lemma spec_seg_fit_none A l :
  spec_seg_fit A l = None -> forall ns, In ns l -> snd ns < A.
Proof.
  unfold spec_seg_fit, spec_first_fit, spec_best_fit. destruct (A <? 960).
  - destruct (find (fun ns => A <=? snd ns) l) eqn:E; [discriminate|].
    intros _ ns Hin. pose proof (find_none _ _ E ns Hin) as H. cbn beta in H.
    apply Z.leb_gt in H. exact H.
  - destruct (best_from A None l) eqn:E; [discriminate|].
    intros _. apply best_from_none. exact E.
Qed.

Lemma spec_seg_fit_no_fit A l :
  (forall ns, In ns l -> snd ns < A) -> spec_seg_fit A l = None.
Proof.
  intros H. destruct (spec_seg_fit A l) as [x|] eqn:E; [|reflexivity].
  destruct (spec_seg_fit_some _ _ _ E) as (s & Hin & Hs). specialize (H _ Hin).
  cbn [snd] in H. lia.
Qed.

Section FindFit.
Variables (st : state) (L : Z -> list Z) (fuel : nat) (A : Z).
Hypothesis OK : free_lists_ok st L.
Hypothesis Hfuel : forall c, 0 <= c < SEG_NUM -> (length (L c) <= fuel)%nat.

Let lists := fun c => sized (mem st) (L c).

Lemma search_class c :
  0 <= c < SEG_NUM ->
  find_seg_fit fuel (mem st) A (BASEADDR + c * DSIZE)
  = Some (ptr_of (spec_seg_fit A (lists c))).
Proof.
  intros Hc. destruct OK as [_ H]. destruct (H c Hc) as [Hl Hn].
  apply find_seg_fit_spec; [assumption | | auto].
  intros x Hx. destruct (Hn x Hx) as (H1 & H2 & _). auto.
Qed.

Lemma spec_seg_fit_nonnull c x :
  0 <= c < SEG_NUM -> spec_seg_fit A (lists c) = Some x -> x <> NULL.
Proof.
  intros Hc E. destruct (spec_seg_fit_some _ _ _ E) as (s & Hin & _).
  apply sized_in in Hin. destruct Hin as [Hin _].
  destruct OK as [_ H]. destruct (H c Hc) as [_ Hn]. apply (Hn x Hin).
Qed.

(** The loop over the larger classes, entered after class [c] gave no fit. *)
Lemma find_fit_loop_spec k : forall c n,
  0 <= c < SEG_NUM -> Z.of_nat k = SEG_NUM - 1 - c -> (k < n)%nat ->
  spec_seg_fit A (lists c) = None ->
  find_fit_loop fuel n st A (BASEADDR + c * DSIZE)
  = Some (ptr_of (spec_find_fit_from A lists (c + 1) k)).
Proof.
  induction k as [|k IH]; intros c n Hc Hk Hn Hnone.
  - destruct n; [lia|]. cbn [find_fit_loop].
    rewrite (proj1 OK).
    replace (BASEADDR + c * DSIZE <? BASEADDR + (SEG_NUM - 1) * DSIZE) with false
      by (symmetry; apply Z.ltb_ge; consts; lia).
    rewrite (search_class c Hc), Hnone. reflexivity.
  - destruct n; [lia|]. cbn [find_fit_loop].
    rewrite (proj1 OK).
    replace (BASEADDR + c * DSIZE <? BASEADDR + (SEG_NUM - 1) * DSIZE) with true
      by (symmetry; apply Z.ltb_lt; consts; lia).
    replace (BASEADDR + c * DSIZE + DSIZE) with (BASEADDR + (c + 1) * DSIZE)
      by (consts; lia).
    assert (Hc' : 0 <= c + 1 < SEG_NUM) by (consts; lia).
    rewrite (search_class (c + 1) Hc'). cbn [spec_find_fit_from].
    destruct (spec_seg_fit A (lists (c + 1))) as [x|] eqn:E.
    + cbn [ptr_of].
      destruct (Z.eqb_spec x NULL) as [Hz|_];
        [exfalso; exact (spec_seg_fit_nonnull _ _ Hc' E Hz) | reflexivity].
    + cbn [ptr_of]. rewrite Z.eqb_refl. cbn [negb].
      apply IH; [assumption | lia | lia | assumption].
Qed.

Lemma spec_find_fit_from_some k : forall c x,
  0 <= c -> c + Z.of_nat k <= SEG_NUM ->
  spec_find_fit_from A lists c k = Some x ->
  exists c' s, c <= c' < SEG_NUM /\ In x (L c')
               /\ s = GET_SIZE (mem st) (HDRP x) /\ A <= s.
Proof.
  induction k as [|k IH]; intros c x Hc Hk H; [discriminate|].
  cbn [spec_find_fit_from] in H.
  destruct (spec_seg_fit A (lists c)) as [y|] eqn:E.
  - inversion H; subst y. destruct (spec_seg_fit_some _ _ _ E) as (s & Hin & Hs).
    apply sized_in in Hin. destruct Hin as [Hin ->].
    exists c, (GET_SIZE (mem st) (HDRP x)). repeat split; try assumption; lia.
  - destruct (IH (c + 1) x) as (c' & s & H1 & H2); [lia | lia | assumption|].
    exists c', s. split; [lia | exact H2].
Qed.

Lemma spec_find_fit_from_none k : forall c,
  spec_find_fit_from A lists c k = None ->
  forall c' n, c <= c' < c + Z.of_nat k -> In n (L c') ->
               GET_SIZE (mem st) (HDRP n) < A.
Proof.
  induction k as [|k IH]; intros c H c' n Hc' Hin; [lia|].
  cbn [spec_find_fit_from] in H.
  destruct (spec_seg_fit A (lists c)) as [y|] eqn:E; [discriminate|].
  destruct (Z.eq_dec c' c) as [->|Hne].
  - apply (spec_seg_fit_none _ _ E (n, GET_SIZE (mem st) (HDRP n))).
    apply sized_in. auto.
  - apply (IH (c + 1) H c' n); [lia | assumption].
Qed.

Lemma spec_find_fit_from_no_fit k : forall c,
  (forall c' n, c <= c' < c + Z.of_nat k -> In n (L c') ->
                GET_SIZE (mem st) (HDRP n) < A) ->
  spec_find_fit_from A lists c k = None.
Proof.
  induction k as [|k IH]; intros c H; [reflexivity|].
  cbn [spec_find_fit_from]. rewrite spec_seg_fit_no_fit.
  - apply IH. intros c' n Hc' Hin. apply (H c' n); [lia | assumption].
  - intros [n s] Hin. apply sized_in in Hin. destruct Hin as [Hin ->].
    apply (H c n); [lia | assumption].
Qed.

(** [find_fit] computes the search of the spec. *)
Lemma find_fit_spec :
  (Z.to_nat SEG_NUM <= fuel)%nat ->
  find_fit fuel st A = Some (ptr_of (spec_find_fit A lists)).
Proof.
  intros Hf. pose proof (seg_index_range A) as Hc.
  unfold find_fit, get_seg_listp. cbv zeta. rewrite (proj1 OK).
  rewrite (search_class _ Hc). unfold spec_find_fit.
  destruct (Z.to_nat (SEG_NUM - seg_index A)) as [|k] eqn:Ek; [consts; lia|].
  cbn [spec_find_fit_from].
  destruct (spec_seg_fit A (lists (seg_index A))) as [x|] eqn:E.
  - cbn [ptr_of].
    destruct (Z.eqb_spec x NULL) as [Hz|_];
      [exfalso; exact (spec_seg_fit_nonnull _ _ Hc E Hz) | reflexivity].
  - cbn [ptr_of]. rewrite Z.eqb_refl. cbn [negb].
    apply find_fit_loop_spec; [assumption | consts; lia | consts; lia | assumption].
Qed.

(** A hit is a node of some list, of size at least [A]. *)
Lemma spec_find_fit_some x :
  spec_find_fit A lists = Some x ->
  exists c, 0 <= c < SEG_NUM /\ In x (L c) /\ A <= GET_SIZE (mem st) (HDRP x).
Proof.
  intros H. pose proof (seg_index_range A) as Hc. unfold spec_find_fit in H.
  assert (Hk : seg_index A + Z.of_nat (Z.to_nat (SEG_NUM - seg_index A)) <= SEG_NUM)
    by (consts; lia).
  destruct (spec_find_fit_from_some _ _ _ (proj1 Hc) Hk H)
    as (c' & s & H1 & H2 & -> & H4).
  exists c'. repeat split; try assumption; lia.
Qed.

(** No hit: no list holds a block of size at least [A]. *)
Lemma spec_find_fit_none :
  spec_find_fit A lists = None <->
  forall c n, 0 <= c < SEG_NUM -> In n (L c) -> GET_SIZE (mem st) (HDRP n) < A.
Proof.
  pose proof (seg_index_range A) as Hc. unfold spec_find_fit. split.
  - intros H c n Hcr Hin.
    destruct (Z_lt_le_dec c (seg_index A)) as [Hlow|Hhigh].
    + destruct OK as [_ H']. destruct (H' c Hcr) as [_ Hn].
      destruct (Hn n Hin) as (_ & _ & Hcl).
      destruct (Z_lt_le_dec (GET_SIZE (mem st) (HDRP n)) A) as [|Hge]; [assumption|].
      pose proof (seg_index_mono _ _ Hge). lia.
    + apply (spec_find_fit_from_none _ _ H c n); [consts; lia | assumption].
  - intros H. apply spec_find_fit_from_no_fit. intros c' n Hc' Hin.
    apply (H c' n); [consts; lia | assumption].
Qed.
End FindFit.

(* ================================================================== *)
(** * malloc *)

Lemma adjust_size_spec size :
  0 < size -> size + 11 < 2 ^ 64 ->
  16 <= adjust_size size /\ adjust_size size mod 8 = 0
  /\ size + 4 <= adjust_size size /\ adjust_size size < 2 ^ 64.
Proof.
  intros H1 H2. unfold adjust_size, wrap64. consts.
  destruct (Z.leb_spec size 8).
  - repeat split; lia.
  - rewrite (Z.mod_small (size + 4)) by lia.
    rewrite (Z.mod_small (size + 4 + (8 - 1))) by lia.
    repeat split; Z.div_mod_to_equations; lia.
Qed.

(** [place] on a free block that is in its list. *)
Lemma place_inv st l1 csize l2 L asize :
  heap_inv st (l1 ++ (csize, false) :: l2) L ->
  16 <= asize <= csize -> asize mod 8 = 0 ->
  let p := first_bp + total l1 in
  exists bs' L' szq,
    heap_inv (place st p asize) bs' L'
    /\ In (p, szq, true) (layout first_bp bs') /\ asize <= szq
    /\ (forall b s, In (b, s, true) (layout first_bp bs') <->
          (b = p /\ s = szq)
          \/ In (b, s, true) (layout first_bp (l1 ++ (csize, false) :: l2)))
    /\ (forall b s x, In (b, s, true) (layout first_bp (l1 ++ (csize, false) :: l2)) ->
          b <= x < b + s - WSIZE -> load8 (mem (place st p asize)) x = load8 (mem st) x).
Proof.
  intros Inv Ha1 Ha2 p.
  destruct (Z_le_gt_dec 16 (csize - asize)) as [Hsplit|Hwhole].
  - destruct (place_split _ _ _ _ _ _ Inv (proj1 Ha1) Ha2 Hsplit) as (L1 & Inv' & _ & F).
    fold p in Inv', F.
    eexists _, _, asize. split; [exact Inv'|]. split; [apply layout_in_app|].
    split; [lia|]. split; [|exact F].
    intros b s. rewrite !layout_app, !in_app_iff. cbn [layout In]. fold p.
    replace (p + asize + (csize - asize)) with (p + csize) by lia.
    split.
    + intros [H|[H|[H|H]]]; [auto | | discriminate | auto].
      apply triple_eq in H. destruct H as (<- & <- & _). auto.
    + intros [[-> ->]|[H|[H|H]]]; [auto | auto | discriminate | auto].
  - assert (Hr : 0 <= asize <= csize) by lia.
    assert (Hw : csize - asize < 16) by lia.
    destruct (place_whole _ _ _ _ _ _ Inv Hr Hw) as (L1 & Inv' & _ & F).
    fold p in Inv', F.
    eexists _, _, csize. split; [exact Inv'|]. split; [apply layout_in_app|].
    split; [lia|]. split; [|exact F].
    intros b s. rewrite !layout_app, !in_app_iff. cbn [layout In]. fold p.
    split.
    + intros [H|[H|H]]; [auto | | auto].
      apply triple_eq in H. destruct H as (<- & <- & _). auto.
    + intros [[-> ->]|[H|[H|H]]]; [auto | auto | discriminate | auto].
Qed.

Lemma extend_size_even w :
  0 <= w -> w mod 2 = 0 -> 4 * w < 2 ^ 64 -> 8 <= 4 * w -> extend_size w = 4 * w.
Proof.
  intros H1 H2 H3 H4. unfold extend_size. rewrite H2. cbn [Z.eqb negb].
  unfold MAX, wrap64. consts. rewrite Z.mod_small by lia.
  replace (w * 4 >? 8) with (8 <? w * 4) by (symmetry; apply Z.gtb_ltb).
  destruct (Z.ltb_spec 8 (w * 4)); lia.
Qed.

(** [malloc] of a positive size whose adjustment does not wrap around either
    fails without touching the state, or returns a fresh allocated block
    large enough, keeps the invariant and leaves the payload of every block
    that was allocated alone. *)
Theorem malloc_inv st bs L fuel size :
  heap_inv st bs L -> enough_fuel fuel L ->
  0 < size -> size + 11 < 2 ^ 64 ->
  malloc fuel st size = Ret (NULL, st)
  \/ exists q st' bs' L' szq,
       malloc fuel st size = Ret (q, st') /\ q <> NULL
       /\ heap_inv st' bs' L'
       /\ In (q, szq, true) (layout first_bp bs') /\ size + 4 <= szq
       /\ (forall b s, In (b, s, true) (layout first_bp bs') <->
             (b = q /\ s = szq) \/ In (b, s, true) (layout first_bp bs))
       /\ (forall s, ~ In (q, s, true) (layout first_bp bs))
       /\ meta_only bs (mem st) (mem st').
Proof.
  intros Inv [Hf1 Hf2] Hpos Hsmall.
  destruct (adjust_size_spec size Hpos Hsmall) as (Ha1 & Ha2 & Ha3 & Ha4).
  set (asize := adjust_size size) in *.
  assert (R := proj1 Inv).
  unfold malloc. rewrite (rep_heap_listp _ _ _ R).
  change (BASEADDR + SEG_NUM * DSIZE + 2 * WSIZE =? 0) with false. cbv iota.
  destruct (Z.eqb_spec size 0) as [Hz|_]; [lia|]. cbv zeta. fold asize.
  pose proof (heap_rep_free_lists_ok _ _ _ R) as OK.
  rewrite (find_fit_spec st L fuel asize OK Hf2 Hf1).
  destruct (spec_find_fit asize (fun c => sized (mem st) (L c))) as [q|] eqn:E.
  - (* a free block fits *)
    right. cbn [ptr_of].
    destruct (spec_find_fit_some st L asize q E) as (c & Hc & Hin & Hsz).
    destruct (rep_node _ _ _ R _ _ Hc Hin) as (csize & Hi & _ & Es & Hq1 & _).
    rewrite Es in Hsz.
    destruct (Z.eqb_spec q NULL) as [Hz|Hnz]; [consts; lia|]. cbn [negb].
    destruct (layout_in_split _ _ _ _ _ Hi) as (l1 & l2 & -> & ->).
    destruct (place_inv _ _ _ _ _ _ Inv (conj Ha1 Hsz) Ha2)
      as (bs' & L' & szq & Inv' & Hq & Hsq & Hal & F).
    exists (first_bp + total l1), (place st (first_bp + total l1) asize), bs', L', szq.
    split; [reflexivity|]. split; [assumption|]. split; [assumption|].
    split; [assumption|]. split; [lia|]. split; [exact Hal|]. split; [|exact F].
    intros s Hs.
    destruct (layout_functional _ _ _ _ _ _ _ (rep_sizes_ok _ _ _ R) Hi Hs) as [_ Hx].
    discriminate.
  - (* no fit: extend the heap *)
    cbn [ptr_of]. rewrite Z.eqb_refl. cbn [negb].
    set (extendsize := MAX asize CHUNKSIZE).
    assert (He : 16 <= extendsize /\ extendsize mod 8 = 0 /\ asize <= extendsize
                 /\ extendsize < 2 ^ 64).
    { unfold extendsize, MAX, CHUNKSIZE.
      replace (asize >? 464) with (464 <? asize) by (symmetry; apply Z.gtb_ltb).
      destruct (Z.ltb_spec 464 asize); repeat split; try lia; try assumption; reflexivity. }
    destruct He as (He1 & He2 & He3 & He4).
    assert (Ew : extend_heap st (extendsize / WSIZE) = extend_heap_tail st extendsize).
    { unfold extend_heap, extend_heap_raw. cbv zeta. fold (extend_size (extendsize / WSIZE)).
      rewrite extend_size_even; unfold WSIZE;
        try (clear - He1 He2 He4; Z.div_mod_to_equations; lia).
      f_equal. clear - He2. Z.div_mod_to_equations; lia. }
    rewrite Ew.
    destruct (extend_heap_tail_inv _ _ _ _ Inv He1 He2)
      as [[_ Efail]|[_ (r & st1 & bs1 & L1 & szr & Ext & Inv1 & Hr & Hszr & Hal1 & M1)]].
    + left. rewrite Efail. rewrite Z.eqb_refl. reflexivity.
    + right. rewrite Ext.
      assert (R1 := proj1 Inv1).
      pose proof (rep_block _ _ _ R1 _ _ _ Hr) as Hrb.
      destruct (Z.eqb_spec r NULL) as [Hz|Hnz]; [consts; lia|].
      destruct (layout_in_split _ _ _ _ _ Hr) as (l1 & l2 & -> & ->).
      assert (Has : 16 <= asize <= szr) by lia.
      destruct (place_inv _ _ _ _ _ _ Inv1 Has Ha2)
        as (bs' & L' & szq & Inv' & Hq & Hsq & Hal & F).
      exists (first_bp + total l1), (place st1 (first_bp + total l1) asize), bs', L', szq.
      split; [reflexivity|]. split; [assumption|]. split; [assumption|].
      split; [assumption|]. split; [lia|]. split; [|split].
      * intros b s. rewrite Hal, <- Hal1. reflexivity.
      * intros s Hs. apply Hal1 in Hs.
        destruct (layout_functional _ _ _ _ _ _ _ (rep_sizes_ok _ _ _ R1) Hr Hs) as [_ Hx].
        discriminate.
      * intros b s x Hb Hx. rewrite (F b s x (proj1 (Hal1 b s) Hb) Hx).
        apply (M1 b s x Hb Hx).
Qed.

(* ================================================================== *)
(** * realloc *)

(** Writing into the payload of an allocated block changes nothing of what
    the invariant describes. *)
Lemma heap_inv_payload_write st bs L q szq m' :
  heap_inv st bs L -> In (q, szq, true) (layout first_bp bs) ->
  (forall x, ~ (q <= x < q + szq - WSIZE) -> load8 m' x = load8 (mem st) x) ->
  heap_inv (set_mem st m') bs L.
Proof.
  intros (R & LC & NA) Hin Hf.
  destruct (layout_in_split _ _ _ _ _ Hin) as (l1 & l2 & -> & ->).
  set (q := first_bp + total l1) in *.
  destruct (rep_mid _ _ _ _ _ _ R) as (Hh & _ & Hn & _ & Hp1 & Hs1 & Hs2 & Hp2 & Hok1 & Hok2 & Hbrk & Hmax).
  fold q in Hh, Hn, Hp1, Hp2, Hbrk.
  destruct (heap_rep_region st _ L l1 [(szq, true)] [(szq, true)] l2 m' R eq_refl eq_refl)
    as [R' _].
  - fold q. cbn [total]. intros x Hx. apply Hf. consts. lia.
  - fold q. cbn [seg_at]. repeat split; try assumption; try discriminate.
    rewrite <- Hh. apply GET_ext. intros x Hx. apply Hf. unfold HDRP in Hx. consts. lia.
  - fold q. cbn [total last_alloc]. rewrite Z.add_0_r. rewrite <- Hn.
    apply GET_ext. intros x Hx. apply Hf. unfold HDRP in Hx. consts. lia.
  - fold q. intros c n s Hc Hn' [Hi|[]]. inversion Hi.
  - split; [exact R'|]. split; assumption.
Qed.

Lemma range_in_heap_ok st a n :
  mem_start_brk st <= a -> a + n <= mem_brk st -> range_in_heap st a n = true.
Proof.
  intros H1 H2. unfold range_in_heap, mem_heap_lo, mem_heap_hi.
  apply orb_true_iff. right. apply andb_true_iff. split; apply Z.leb_le; lia.
Qed.

(** C4 (amended): for an allocated block [p] and a request of [n > 0] bytes
    whose adjusted size does not wrap around, [realloc] allocates a new block
    [q]; if that fails it returns none and the state is unchanged; otherwise
    it copies exactly [min n (block size of p)] bytes, the block size being
    the payload size plus the 4 bytes of the header, frees [p] and returns
    [q], and the first [min n (payload size of p)] bytes at [q] are the bytes
    [p] held before the call.  The heap invariant holds again afterwards. *)
Theorem realloc_copies_block_size :
  forall st bs L fuel p sz n,
    heap_inv st bs L -> enough_fuel fuel L ->
    In (p, sz, true) (layout first_bp bs) ->
    0 < n -> n + 11 < 2 ^ 64 ->
    GET_SIZE (mem st) (HDRP p) = sz /\ payload_size (mem st) p = sz - WSIZE /\
    ((malloc fuel st n = Ret (NULL, st) /\ realloc fuel st p n = Ret (NULL, st))
     \/ exists q st1,
          malloc fuel st n = Ret (q, st1) /\ q <> NULL /\ q <> p
          /\ realloc_copy_len (mem st1) p n = Z.min n sz
          /\ realloc fuel st p n
             = Ret (q, free (set_mem st1 (memcpy_mem (mem st1) q p (Z.min n sz))) p)
          /\ (forall st', realloc fuel st p n = Ret (q, st') ->
                (forall i, 0 <= i < Z.min n (payload_size (mem st) p) ->
                           load8 (mem st') (q + i) = load8 (mem st) (p + i))
                /\ exists bs' L' szq,
                     heap_inv st' bs' L'
                     /\ In (q, szq, true) (layout first_bp bs') /\ n + 4 <= szq
                     /\ forall s, ~ In (p, s, true) (layout first_bp bs'))).
Proof.
  intros st bs L fuel p sz n Inv Hfuel Hp Hn1 Hn2.
  assert (R := proj1 Inv).
  destruct (rep_block_words _ _ _ R _ _ _ Hp) as (Esz & _).
  pose proof (rep_block _ _ _ R _ _ _ Hp) as Hpb.
  split; [exact Esz|]. split; [unfold payload_size; rewrite Esz; reflexivity|].
  assert (Hre : realloc fuel st p n =
            match malloc fuel st n with
            | Ret (newptr, st0) =>
                if newptr =? NULL then Ret (NULL, st0)
                else
                  let oldsize := realloc_copy_len (mem st0) p n in
                  if range_in_heap st0 newptr oldsize && range_in_heap st0 p oldsize
                  then Ret (newptr,
                            free (set_mem st0 (memcpy_mem (mem st0) newptr p oldsize)) p)
                  else Fault
            | Fault => Fault
            | OutOfFuel => OutOfFuel
            end).
  { unfold realloc.
    destruct (Z.eqb_spec p NULL) as [Hz|_]; [consts; lia|].
    destruct (Z.eqb_spec n 0) as [Hz|_]; [lia|]. reflexivity. }
  destruct (malloc_inv _ _ _ _ _ Inv Hfuel Hn1 Hn2)
    as [Efail|(q & st1 & bs1 & L1 & szq & Em & Hq & Inv1 & Hqin & Hszq & Hal & Hfresh & M1)].
  - left. split; [exact Efail|]. rewrite Hre, Efail. reflexivity.
  - right. exists q, st1.
    assert (R1 := proj1 Inv1).
    assert (Hp1 : In (p, sz, true) (layout first_bp bs1)) by (apply Hal; auto).
    assert (Hqp : q <> p) by (intros ->; exact (Hfresh sz Hp)).
    destruct (rep_block_words _ _ _ R1 _ _ _ Hp1) as (Esz1 & _).
    pose proof (rep_block _ _ _ R1 _ _ _ Hp1) as Hpb1.
    pose proof (rep_block _ _ _ R1 _ _ _ Hqin) as Hqb1.
    assert (Elen : realloc_copy_len (mem st1) p n = Z.min n sz).
    { unfold realloc_copy_len. cbv zeta. rewrite Esz1.
      destruct (Z.ltb_spec n sz); lia. }
    assert (Efin : realloc fuel st p n
              = Ret (q, free (set_mem st1 (memcpy_mem (mem st1) q p (Z.min n sz))) p)).
    { rewrite Hre, Em. destruct (Z.eqb_spec q NULL) as [|_]; [contradiction|].
      cbv zeta. rewrite Elen.
      rewrite !range_in_heap_ok; [reflexivity | | | |];
        rewrite ?(rep_start _ _ _ R1); consts; lia. }
    split; [exact Em|]. split; [exact Hq|]. split; [exact Hqp|]. split; [exact Elen|].
    split; [exact Efin|].
    intros st' Est'. rewrite Efin in Est'. inversion Est' as [Est2]. clear Est'.
    set (len := Z.min n sz) in *.
    set (st2 := set_mem st1 (memcpy_mem (mem st1) q p len)) in *.
    assert (Inv2 : heap_inv st2 bs1 L1).
    { apply (heap_inv_payload_write _ _ _ q szq _ Inv1 Hqin).
      intros x Hx. rewrite load8_memcpy.
      replace ((q <=? x) && (x <? q + len)) with false; [reflexivity|].
      symmetry. apply andb_false_iff.
      destruct (Z_le_gt_dec q x); [right; apply Z.ltb_ge | left; apply Z.leb_gt];
        unfold len in *; consts; lia. }
    destruct (free_inv _ _ _ _ _ Inv2 Hp1) as (bs' & L' & Inv' & Hal' & F').
    split.
    + intros i Hi. unfold payload_size in Hi. rewrite Esz in Hi.
      rewrite (F' q szq (q + i) Hqin Hqp) by (unfold WSIZE in *; lia).
      unfold st2. cbn [mem set_mem]. rewrite load8_memcpy.
      replace ((q <=? q + i) && (q + i <? q + len)) with true
        by (symmetry; apply andb_true_iff; split;
            [apply Z.leb_le | apply Z.ltb_lt]; unfold len, WSIZE in *; lia).
      replace (p + (q + i - q)) with (p + i) by lia.
      apply (M1 p sz (p + i) Hp). lia.
    + exists bs', L', szq. split; [exact Inv'|]. split; [apply Hal'; auto|].
      split; [lia|]. intros s Hs. apply Hal' in Hs. destruct Hs as [_ Hs]. congruence.
Qed.

(* ================================================================== *)
(** * place *)

(** C8: [place] on a free block of size [C] with an adjusted request
    [A <= C] splits exactly when [C - A >= 16].  Then the first [A] bytes are
    an allocated block whose header keeps the prev-alloc bit, and the other
    [C - A] bytes are a free block with header and footer of size [C - A] and
    prev-alloc set, at the head of the free list of its class.  Otherwise the
    whole block of size [C] is allocated and the prev-alloc bit of its
    successor is set. *)
Theorem place_splits_when_remainder_fits :
  forall st l1 C l2 L A,
    heap_inv st (l1 ++ (C, false) :: l2) L ->
    16 <= A <= C -> A mod 8 = 0 ->
    let p := first_bp + total l1 in
    let st' := place st p A in
    let m' := mem st' in
    GET_SIZE (mem st) (HDRP p) = C /\ GET_ALLOC (mem st) (HDRP p) = 0 /\
    (C - A >= 16 ->
       GET_SIZE m' (HDRP p) = A /\ GET_ALLOC m' (HDRP p) = 1
       /\ GET_PREV_ALLOC m' p = GET_PREV_ALLOC (mem st) p
       /\ NEXT_BLKP m' p = p + A
       /\ GET m' (HDRP (p + A)) = PACK (C - A) 2
       /\ GET_SIZE m' (HDRP (p + A)) = C - A /\ GET_ALLOC m' (HDRP (p + A)) = 0
       /\ GET_PREV_ALLOC m' (p + A) = 2
       /\ FTRP m' (p + A) = p + C - DSIZE
       /\ GET m' (FTRP m' (p + A)) = PACK (C - A) 0
       /\ GET64 m' (get_seg_listp st' (C - A)) = p + A
       /\ GET_PREV m' (p + A) = 0
       /\ exists L1,
            heap_inv st' (l1 ++ (A, true) :: (C - A, false) :: l2)
                     (upd L1 (seg_index (C - A)) ((p + A) :: L1 (seg_index (C - A))))
            /\ forall c x, 0 <= c < SEG_NUM -> In x (L1 c) <-> In x (L c) /\ x <> p)
    /\ (C - A < 16 ->
          GET_SIZE m' (HDRP p) = C /\ GET_ALLOC m' (HDRP p) = 1
          /\ GET_PREV_ALLOC m' p = GET_PREV_ALLOC (mem st) p
          /\ GET_PREV_ALLOC m' (NEXT_BLKP m' p) = 2
          /\ NEXT_BLKP m' p = p + C
          /\ exists L1,
               heap_inv st' (l1 ++ (C, true) :: l2) L1
               /\ forall c x, 0 <= c < SEG_NUM -> In x (L1 c) <-> In x (L c) /\ x <> p).
Proof.
  intros st l1 C l2 L A Inv HA1 HA2 p st' m'.
  assert (R := proj1 Inv).
  destruct (rep_mid _ _ _ _ _ _ R) as (Hh & _ & _ & _ & _ & Hs1 & Hs2 & _).
  fold p in Hh.
  split; [exact (GET_SIZE_hdr _ _ _ _ _ Hh Hs2)|].
  split; [exact (GET_ALLOC_hdr _ _ _ _ _ Hh Hs2)|].
  rewrite (GET_PREV_ALLOC_hdr _ _ _ _ _ Hh Hs2).
  split.
  - intros Hsplit. assert (Hsp : 16 <= C - A) by lia.
    destruct (place_split _ _ _ _ _ _ Inv (proj1 HA1) HA2 Hsp) as (L1 & Inv' & M1 & _).
    fold p st' in Inv'. assert (R' := proj1 Inv').
    destruct (rep_mid _ _ _ _ _ _ R') as (Hh' & _ & Hn' & _).
    fold p m' in Hh', Hn'. cbn [first_hdr] in Hn'.
    assert (Hr2 : (C - A) mod 8 = 0) by (clear - Hs2 HA2; Z.div_mod_to_equations; lia).
    assert (R2 : heap_rep st' ((l1 ++ [(A, true)]) ++ (C - A, false) :: l2)
                          (upd L1 (seg_index (C - A)) ((p + A) :: L1 (seg_index (C - A)))))
      by (rewrite <- app_assoc; exact R').
    destruct (rep_mid _ _ _ _ _ _ R2) as (_ & Hf' & _).
    rewrite total_app in Hf'. cbn [total] in Hf'. rewrite Z.add_0_r, Z.add_assoc in Hf'.
    fold p m' in Hf'. specialize (Hf' eq_refl).
    assert (ES : GET_SIZE m' (HDRP (p + A)) = C - A) by exact (GET_SIZE_hdr _ _ _ _ _ Hn' Hr2).
    assert (EF : FTRP m' (p + A) = p + C - DSIZE) by (unfold FTRP; rewrite ES; lia).
    destruct (rep_lists _ _ _ R' (seg_index (C - A)) (seg_index_range _)) as [Hslot Hdll].
    rewrite upd_same in Hslot, Hdll. fold m' in Hslot, Hdll.
    split; [exact (GET_SIZE_hdr _ _ _ _ _ Hh' HA2)|].
    split; [exact (GET_ALLOC_hdr _ _ _ _ _ Hh' HA2)|].
    split; [exact (GET_PREV_ALLOC_hdr _ _ _ _ _ Hh' HA2)|].
    split; [unfold NEXT_BLKP; fold (HDRP p); rewrite (GET_SIZE_hdr _ _ _ _ _ Hh' HA2); reflexivity|].
    split; [rewrite PACK_2 by assumption; exact Hn'|].
    split; [exact ES|].
    split; [exact (GET_ALLOC_hdr _ _ _ _ _ Hn' Hr2)|].
    split; [exact (GET_PREV_ALLOC_hdr _ _ _ _ _ Hn' Hr2)|].
    split; [exact EF|].
    split. { rewrite EF, PACK_0 by assumption.
             replace (p + C - DSIZE) with (p + A + (C - A) - DSIZE) by lia. exact Hf'. }
    split. { unfold get_seg_listp. rewrite (rep_seg_start _ _ _ R'). exact Hslot. }
    split. { unfold dll in Hdll. rewrite dlseg_unfold in Hdll. apply Hdll. }
    exists L1. split; assumption.
  - intros Hwhole.
    assert (Hr : 0 <= A <= C) by lia.
    destruct (place_whole _ _ _ _ _ _ Inv Hr Hwhole) as (L1 & Inv' & M1 & _).
    fold p st' in Inv'. assert (R' := proj1 Inv').
    destruct (rep_mid _ _ _ _ _ _ R') as (Hh' & _ & Hn' & _ & _ & _ & _ & _ & _ & Hok2 & _).
    fold p m' in Hh', Hn'.
    destruct (first_hdr_shape l2 Hok2) as (s2 & a2 & Hfh & Hs2m & _).
    rewrite Hfh in Hn'.
    assert (EN : NEXT_BLKP m' p = p + C).
    { unfold NEXT_BLKP. fold (HDRP p). rewrite (GET_SIZE_hdr _ _ _ _ _ Hh' Hs2). reflexivity. }
    split; [exact (GET_SIZE_hdr _ _ _ _ _ Hh' Hs2)|].
    split; [exact (GET_ALLOC_hdr _ _ _ _ _ Hh' Hs2)|].
    split; [exact (GET_PREV_ALLOC_hdr _ _ _ _ _ Hh' Hs2)|].
    split; [rewrite EN; exact (GET_PREV_ALLOC_hdr _ _ _ _ _ Hn' Hs2m)|].
    split; [exact EN|].
    exists L1. split; assumption.
Qed.

(* ================================================================== *)
(** * mm_init *)

Lemma mem_sbrk_some st incr p st' :
  mem_sbrk st incr = Some (p, st') ->
  p = mem_brk st /\ mem_brk st + incr <= mem_max_addr st
  /\ st' = mkState (mem st) (mem_start_brk st) (mem_brk st + incr) (mem_max_addr st)
                   (heap_listp st) (seg_list_start st).
Proof.
  unfold mem_sbrk. destruct (incr <? 0); [discriminate|].
  destruct (Z.ltb_spec (mem_max_addr st) (mem_brk st + incr)); [discriminate|].
  cbn [orb]. intros H0. injection H0 as <- <-. repeat split. lia.
Qed.

Lemma load8_PUT_zero m p x : p <= x < p + 4 -> load8 (PUT m p 0) x = 0.
Proof.
  intros H. rewrite load8_PUT.
  replace ((p <=? x) && (x <? p + 4)) with true by lia.
  rewrite Z.div_0_l; [reflexivity|]. apply Z.pow_nonzero; lia.
Qed.

(** The loop of [mm_init] zeroes [n] directory slots of 8 bytes. *)
Lemma init_seg_lists_spec n : forall st st',
  init_seg_lists n st = (st', true) ->
  mem_brk st' = mem_brk st + 8 * Z.of_nat n
  /\ mem_start_brk st' = mem_start_brk st /\ mem_max_addr st' = mem_max_addr st
  /\ heap_listp st' = heap_listp st /\ seg_list_start st' = seg_list_start st
  /\ (forall x, x < mem_brk st -> load8 (mem st') x = load8 (mem st) x)
  /\ (forall x, mem_brk st <= x < mem_brk st + 8 * Z.of_nat n -> load8 (mem st') x = 0).
Proof.
  induction n as [|n IH]; intros st st' H.
  - cbn [init_seg_lists] in H. inversion H; subst.
    repeat split; try lia; intros x Hx; try reflexivity; lia.
  - cbn [init_seg_lists] in H.
    destruct (mem_sbrk st (2 * WSIZE)) as [[p st1]|] eqn:E; [|discriminate].
    destruct (mem_sbrk_some _ _ _ _ E) as (-> & Hfit & ->). cbn [mem] in H.
    apply IH in H. cbn [mem mem_brk mem_start_brk mem_max_addr heap_listp seg_list_start set_mem] in H.
    destruct H as (H1 & H3 & H4 & H5 & H6 & H7 & H8).
    unfold WSIZE in *. repeat split; try assumption; try lia.
    + intros x Hx. rewrite H7 by lia. rewrite !load8_PUT_other by lia. reflexivity.
    + intros x Hx. destruct (Z_lt_le_dec x (mem_brk st + 2 * 4)).
      * rewrite H7 by lia. destruct (Z_lt_le_dec x (mem_brk st + 4)).
        -- rewrite load8_PUT_other by lia. apply load8_PUT_zero. lia.
        -- apply load8_PUT_zero. lia.
      * apply H8. lia.
Qed.

Lemma GET_zero m p : (forall x, p <= x < p + 4 -> load8 m x = 0) -> GET m p = 0.
Proof. intros H. unfold GET. rewrite !H by lia. reflexivity. Qed.

Lemma GET64_zero m p : (forall x, p <= x < p + 8 -> load8 m x = 0) -> GET64 m p = 0.
Proof.
  intros H. unfold GET64. rewrite !GET_zero; [reflexivity | |]; intros; apply H; lia.
Qed.

(** A successful [mm_init] on an empty raw heap that starts at [BASEADDR]
    establishes the heap invariant: one free block of [CHUNKSIZE] bytes. *)
Theorem mm_init_inv st st' :
  mem_start_brk st = BASEADDR -> mem_brk st = BASEADDR ->
  mem_max_addr st <= BASEADDR + 2 ^ 32 ->
  mm_init st = (0, st') ->
  heap_inv st' [(CHUNKSIZE, false)] init_lists.
Proof.
  intros Hstart Hbrk Hmax H. unfold mm_init in H.
  destruct (init_seg_lists (Z.to_nat SEG_NUM) (set_seg_list_start st BASEADDR))
    as [st1 [|]] eqn:E1; [|inversion H].
  apply init_seg_lists_spec in E1.
  cbn [mem mem_brk mem_start_brk mem_max_addr heap_listp seg_list_start set_seg_list_start] in E1.
  destruct E1 as (B1 & B3 & B4 & B5 & B6 & B7 & B8).
  change (8 * Z.of_nat (Z.to_nat SEG_NUM)) with 112 in *.
  destruct (mem_sbrk st1 (4 * WSIZE)) as [[p st2]|] eqn:E2; [|inversion H].
  destruct (mem_sbrk_some _ _ _ _ E2) as (-> & Hfit & ->). cbn [mem] in H.
  set (m4 := PUT (PUT (PUT (PUT (mem st1) (mem_brk st1) 0)
                           (mem_brk st1 + 1 * WSIZE) (PACK DSIZE 1))
                      (mem_brk st1 + 2 * WSIZE) (PACK DSIZE 1))
                 (mem_brk st1 + 3 * WSIZE) (PACK 0 3)) in *.
  set (st3 := set_heap_listp _ _) in H.
  assert (Inv3 : heap_inv st3 [] (fun _ => [])).
  { split; [|split; [intros n s []|reflexivity]].
    unfold st3. constructor;
      cbn [mem mem_brk mem_start_brk mem_max_addr heap_listp seg_list_start
           set_heap_listp set_mem seg_at total last_alloc].
    - assumption.
    - consts. lia.
    - lia.
    - lia.
    - unfold WSIZE in *. lia.
    - unfold HDRP, m4.
      replace (mem_brk st1 + 2 * WSIZE - WSIZE) with (mem_brk st1 + 1 * WSIZE)
        by (unfold WSIZE; lia).
      rewrite GET_PUT_other, GET_PUT_other by (unfold WSIZE; lia).
      apply GET_PUT_same.
    - unfold m4. rewrite GET_PUT_other by (unfold WSIZE; lia). apply GET_PUT_same.
    - exact I.
    - consts. lia.
    - unfold HDRP, m4.
      replace (mem_brk st1 + 4 * WSIZE - WSIZE) with (mem_brk st1 + 3 * WSIZE)
        by (unfold WSIZE; lia).
      apply GET_PUT_same.
    - intros c Hc. split; [|reflexivity]. unfold m4.
      rewrite !GET64_PUT_other by (consts; lia).
      apply GET64_zero. intros x Hx. apply B8. consts. lia.
    - intros c n Hc [].
    - intros c Hc. constructor. }
  assert (Ew : extend_heap st3 (CHUNKSIZE / WSIZE) = extend_heap_tail st3 CHUNKSIZE)
    by reflexivity.
  rewrite Ew in H.
  assert (Hb3 : mem_brk st3 = first_bp).
  { unfold st3. cbn [mem_brk set_heap_listp set_mem]. rewrite B1, Hbrk. reflexivity. }
  assert (Hm3 : mem_max_addr st3 = mem_max_addr st).
  { unfold st3. cbn [mem_max_addr set_heap_listp set_mem]. exact B4. }
  destruct (Z_lt_le_dec (mem_max_addr st3) (mem_brk st3 + CHUNKSIZE)) as [Hfail|Hok].
  - unfold extend_heap_tail in H. rewrite mem_sbrk_fail in H by assumption.
    cbn [NULL] in H. rewrite Z.eqb_refl in H. inversion H.
  - destruct (extend_heap_tail_after_alloc _ _ _ CHUNKSIZE Inv3 eq_refl) as [Ee Inv'];
      [unfold CHUNKSIZE; lia | reflexivity | assumption|].
    rewrite Ee in H.
    destruct (Z.eqb_spec (mem_brk st3) NULL) as [Hz|_]; [rewrite Hb3 in Hz; consts; lia|].
    apply (f_equal snd) in H. cbn [snd] in H. rewrite <- H.
    unfold init_lists. rewrite <- Hb3. exact Inv'.
Qed.

(** What [mm_checkheap] asks of the prologue sizes: both words hold [DSIZE]. *)
Lemma check_prologue_size s :
  In PrologueHeaderSizeError (check_prologue s) <->
  GET_SIZE (mem s) (heap_listp s) <> DSIZE
  \/ GET_SIZE (mem s) (heap_listp s - WSIZE) <> DSIZE.
Proof.
  unfold check_prologue, when. cbv zeta.
  destruct (aligned (heap_listp s));
    destruct (Z.eqb_spec (GET_SIZE (mem s) (heap_listp s)) DSIZE);
    destruct (Z.eqb_spec (GET_ALLOC (mem s) (heap_listp s)) 1);
    destruct (Z.eqb_spec (GET_SIZE (mem s) (heap_listp s - WSIZE)) DSIZE);
    destruct (Z.eqb_spec (GET_ALLOC (mem s) (heap_listp s - WSIZE)) 1);
    cbn [negb app In]; split; intros H;
    repeat match goal with
           | H : _ \/ _ |- _ => destruct H
           | H : False |- _ => destruct H
           end; try discriminate; try contradiction; auto.
Qed.

(** C6 (amended): after a successful [mm_init] the prologue header and footer
    both hold [PACK DSIZE 1]: size 8 with the allocated bit set.  The blocks
    after the prologue are one free block of [CHUNKSIZE] bytes, so every block
    other than the prologue has size at least 16.  [mm_checkheap] accepts this
    prologue, and it reports a prologue size error exactly when one of the two
    prologue words holds a size other than [DSIZE = 8]. *)
Theorem mm_init_prologue_has_size_8 :
  forall st st',
    mem_start_brk st = BASEADDR -> mem_brk st = BASEADDR ->
    mem_max_addr st <= BASEADDR + 2 ^ 32 ->
    mm_init st = (0, st') ->
    let m := mem st' in
    let pro := heap_listp st' in
    GET m (HDRP pro) = PACK DSIZE 1 /\ GET m (FTRP m pro) = PACK DSIZE 1
    /\ GET_SIZE m (HDRP pro) = 8 /\ GET_ALLOC m (HDRP pro) = 1
    /\ GET_SIZE m (FTRP m pro) = 8 /\ GET_ALLOC m (FTRP m pro) = 1
    /\ NEXT_BLKP m pro = first_bp
    /\ heap_inv st' [(CHUNKSIZE, false)] init_lists
    /\ (forall b sz al, In (b, sz, al) (layout first_bp [(CHUNKSIZE, false)]) ->
          GET_SIZE m (HDRP b) = sz /\ 16 <= sz)
    /\ check_prologue st' = []
    /\ (forall s, In PrologueHeaderSizeError (check_prologue s) <->
          GET_SIZE (mem s) (heap_listp s) <> DSIZE
          \/ GET_SIZE (mem s) (heap_listp s - WSIZE) <> DSIZE).
Proof.
  intros st st' H1 H2 H3 H4 m pro.
  pose proof (mm_init_inv _ _ H1 H2 H3 H4) as Inv. assert (R := proj1 Inv).
  pose proof (rep_prologue_hdr _ _ _ R) as Hh. pose proof (rep_prologue_ftr _ _ _ R) as Hf.
  pose proof (rep_heap_listp _ _ _ R) as Hl. fold m pro in Hh, Hf, Hl.
  assert (Es : GET_SIZE m (HDRP pro) = 8) by (unfold GET_SIZE; rewrite Hh; reflexivity).
  assert (EF : FTRP m pro = pro) by (unfold FTRP; rewrite Es; unfold DSIZE; lia).
  rewrite !EF.
  assert (Es' : GET_SIZE m pro = 8) by (unfold GET_SIZE; rewrite Hf; reflexivity).
  assert (Ea : GET_ALLOC m (HDRP pro) = 1) by (unfold GET_ALLOC; rewrite Hh; reflexivity).
  assert (Ea' : GET_ALLOC m pro = 1) by (unfold GET_ALLOC; rewrite Hf; reflexivity).
  do 6 (split; [assumption|]).
  split; [unfold NEXT_BLKP; fold (HDRP pro); rewrite Es, Hl; reflexivity|].
  split; [exact Inv|].
  split.
  { intros b sz al H. split; [apply (rep_block_words _ _ _ R _ _ _ H)|].
    apply (rep_block _ _ _ R _ _ _ H). }
  split; [|exact check_prologue_size].
  unfold check_prologue. cbv zeta. fold m pro. fold (HDRP pro).
  rewrite Es, Es', Ea, Ea', Hl. reflexivity.
Qed.

(* ================================================================== *)
(** * The block extend_heap creates *)

Lemma extend_size_spec words :
  0 <= words -> 4 * (words + 1) < 2 ^ 64 ->
  extend_size words = Z.max 8 (round_up (words * 4) 8)
  /\ extend_size words mod 8 = 0 /\ 8 <= extend_size words.
Proof.
  intros H1 H2. unfold extend_size, round_up, MAX, wrap64. consts.
  rewrite (Z.mod_small (words + 1)) by lia.
  rewrite !(Z.mod_small _ (2 ^ 64)) by lia.
  assert (Hm : words mod 2 = 0 \/ words mod 2 = 1) by (pose proof (Z.mod_pos_bound words 2); lia).
  assert (Hq : words = 2 * (words / 2) + words mod 2) by (apply Z.div_mod; lia).
  set (k := words / 2) in *.
  destruct Hm as [Hm|Hm]; rewrite Hm in *; cbn [Z.eqb negb].
  - replace (words * 4 + 8 - 1) with (7 + k * 8) by lia.
    rewrite Z.div_add by lia. change (7 / 8) with 0.
    replace (words * 4) with (k * 8) by lia.
    rewrite Z.gtb_ltb. destruct (Z.ltb_spec 8 (k * 8)).
    + split; [lia|]. split; [apply Z.mod_mul; lia | lia].
    + split; [lia|]. split; [reflexivity | lia].
  - replace (words * 4 + 8 - 1) with (3 + (k + 1) * 8) by lia.
    rewrite Z.div_add by lia. change (3 / 8) with 0.
    replace ((words + 1) * 4) with ((k + 1) * 8) by lia.
    rewrite Z.gtb_ltb. destruct (Z.ltb_spec 8 ((k + 1) * 8)).
    + split; [lia|]. split; [apply Z.mod_mul; lia | lia].
    + split; [lia|]. split; [reflexivity | lia].
Qed.

(** Writes at the old epilogue and above leave every free list alone. *)
Lemma seg_list_frame st bs L m' :
  heap_rep st bs L ->
  (forall x, x < mem_brk st - 4 -> load8 m' x = load8 (mem st) x) ->
  forall c, 0 <= c < SEG_NUM -> seg_list m' c (L c).
Proof.
  intros R Hf c Hc.
  pose proof (rep_sizes_ok _ _ _ R) as Hok. pose proof (total_nonneg _ Hok) as Ht.
  pose proof (rep_brk _ _ _ R) as Hbrk.
  destruct (rep_lists _ _ _ R c Hc) as [Hs Hd]. split.
  - rewrite <- Hs. apply GET64_ext. intros x Hx. apply Hf. consts. lia.
  - unfold dll in *. revert Hd. apply dlseg_frame. intros n Hin.
    destruct (rep_node _ _ _ R _ _ Hc Hin) as (s & _ & _ & _ & H1 & H2 & H3 & _).
    unfold GET_PREV, GET_NEXT.
    split; apply GET_ext; intros x Hx; apply Hf; consts; lia.
Qed.

(** A new block below the minimum size: header, footer and epilogue are
    written, no free list changes. *)
Lemma extend_heap_block_small st bs L size :
  heap_rep st bs L -> 8 <= size < 16 -> size mod 8 = 0 ->
  mem_brk st + size <= mem_max_addr st ->
  let bp := mem_brk st in
  let st1 := extend_heap_block (grown st size) bp size in
  GET (mem st1) (HDRP bp) = hdr size (last_alloc true bs) false
  /\ GET (mem st1) (bp + size - DSIZE) = size
  /\ GET (mem st1) (HDRP (bp + size)) = hdr 0 false true
  /\ forall x, x < bp - 4 -> load8 (mem st1) x = load8 (mem st) x.
Proof.
  intros R Hs1 Hs2 Hfit bp st1.
  pose proof (rep_sizes_ok _ _ _ R) as Hok. pose proof (total_nonneg _ Hok) as Ht.
  pose proof (rep_brk _ _ _ R) as Hbrk. pose proof (rep_max _ _ _ R) as Hmax.
  pose proof (rep_epilogue _ _ _ R) as He. fold bp in Hbrk, He.
  unfold st1, extend_heap_block, grown. cbv zeta. cbn [mem]. fold bp.
  rewrite (GET_PREV_ALLOC_hdr _ _ _ _ _ He eq_refl).
  rewrite PACK_free, PACK_0 by assumption.
  set (m1 := PUT (mem st) (HDRP bp) (hdr size (last_alloc true bs) false)).
  assert (E1 : GET m1 (HDRP bp) = hdr size (last_alloc true bs) false)
    by (apply GET_PUT_hdr; unfold bp in *; blia).
  assert (EF : FTRP m1 bp = bp + size - DSIZE).
  { unfold FTRP. rewrite (GET_SIZE_hdr _ _ _ _ _ E1 Hs2). reflexivity. }
  rewrite !EF.
  set (m2 := PUT m1 (bp + size - DSIZE) size).
  assert (EN : NEXT_BLKP m2 bp = bp + size).
  { unfold NEXT_BLKP, m2. fold (HDRP bp).
    rewrite GET_SIZE_PUT_other by (unfold HDRP; consts; lia).
    rewrite (GET_SIZE_hdr _ _ _ _ _ E1 Hs2). reflexivity. }
  rewrite !EN. change (PACK 0 1) with (hdr 0 false true).
  rewrite (geb_false size (2 * DSIZE)) by (consts; lia).
  cbn [mem set_mem]. repeat split.
  - unfold m2. rewrite !GET_PUT_other by (unfold HDRP; consts; lia). exact E1.
  - rewrite GET_PUT_other by (unfold HDRP; consts; lia).
    unfold m2. apply GET_PUT_word. lia.
  - apply GET_PUT_same.
  - intros x Hx. unfold m2, m1.
    rewrite !load8_PUT_other by (unfold HDRP; consts; lia). reflexivity.
Qed.

(** The steps of [extend_heap] before it coalesces.  For [words] whose byte
    count does not wrap around the size it computes is
    [max 8 (round_up (words*4) 8)], which is [max 16 (round_up (words*4) 8)]
    from 3 words on.  When [mem_sbrk] succeeds, the state [st1] handed to
    [coalesce] has the block written at the old break with that size and the
    allocated bit clear; for a size of at least 16 the block is at the head
    of the free list of its class in [st1], and for a smaller size every free
    list of [st1] is as it was. *)
Lemma extend_heap_steps :
  forall st bs L words,
    heap_inv st bs L -> 0 <= words -> 4 * (words + 1) < 2 ^ 64 ->
    let size := extend_size words in
    let bp := mem_brk st in
    size = Z.max 8 (round_up (words * 4) 8)
    /\ (3 <= words -> size = Z.max 16 (round_up (words * 4) 8))
    /\ (mem_max_addr st < bp + size -> extend_heap st words = (NULL, st))
    /\ (bp + size <= mem_max_addr st ->
        let st1 := extend_heap_block (grown st size) bp size in
        extend_heap st words = coalesce st1 bp
        /\ GET_SIZE (mem st1) (HDRP bp) = size
        /\ GET_ALLOC (mem st1) (HDRP bp) = 0
        /\ (forall c, 0 <= c < SEG_NUM -> ~ In bp (L c))
        /\ (16 <= size ->
              GET64 (mem st1) (get_seg_listp st1 size) = bp
              /\ heap_rep st1 (bs ++ [(size, false)])
                          (upd L (seg_index size) (bp :: L (seg_index size))))
        /\ (size < 16 -> forall c, 0 <= c < SEG_NUM -> seg_list (mem st1) c (L c))).
Proof.
  intros st bs L words Inv Hw1 Hw2 size bp.
  destruct Inv as (R & LC & NA).
  destruct (extend_size_spec words Hw1 Hw2) as (E & Hm & H8). fold size in E, Hm, H8.
  assert (Ee : extend_heap st words = extend_heap_tail st size) by reflexivity.
  split; [exact E|]. split.
  { intros H3. rewrite E. unfold round_up.
    assert (16 <= 8 * ((words * 4 + 8 - 1) / 8)); [|lia].
    assert (2 <= (words * 4 + 8 - 1) / 8); [|lia].
    apply Z.div_le_lower_bound; lia. }
  split.
  { intros Hfail. rewrite Ee. unfold extend_heap_tail.
    rewrite mem_sbrk_fail by assumption. reflexivity. }
  intros Hfit st1.
  split.
  { rewrite Ee. unfold extend_heap_tail. rewrite mem_sbrk_ok by (assumption || lia).
    reflexivity. }
  assert (Hnot : forall c, 0 <= c < SEG_NUM -> ~ In bp (L c)).
  { intros c Hc H. destruct (rep_node _ _ _ R _ _ Hc H) as (s & _ & _ & _ & H1 & H2 & H3 & _).
    fold bp in H2. lia. }
  destruct (Z_lt_le_dec size 16) as [Hsmall|Hbig].
  - destruct (extend_heap_block_small _ _ _ size R (conj H8 Hsmall) Hm Hfit)
      as (Hh & _ & _ & Hf).
    fold bp st1 in Hh, Hf.
    split; [exact (GET_SIZE_hdr _ _ _ _ _ Hh Hm)|].
    split; [exact (GET_ALLOC_hdr _ _ _ _ _ Hh Hm)|].
    split; [exact Hnot|]. split; [intros; lia|].
    intros _. apply (seg_list_frame _ _ _ _ R Hf).
  - destruct (extend_heap_block_rep _ _ _ _ R LC Hbig Hm Hfit) as (R2 & _ & _ & Hbp).
    fold bp st1 in R2, Hbp.
    destruct (rep_mid _ _ _ _ _ _ R2) as (Hh & _). rewrite <- Hbp in Hh.
    split; [exact (GET_SIZE_hdr _ _ _ _ _ Hh Hm)|].
    split; [exact (GET_ALLOC_hdr _ _ _ _ _ Hh Hm)|].
    split; [exact Hnot|]. split; [|intros; lia].
    intros _. split; [|exact R2].
    unfold get_seg_listp. rewrite (rep_seg_start _ _ _ R2).
    destruct (rep_lists _ _ _ R2 _ (seg_index_range size)) as [Hs _].
    rewrite Hs. unfold upd. rewrite Z.eqb_refl. reflexivity.
Qed.

(* ================================================================== *)
(** * add_free_block then remove_free_block *)

Lemma heap_rep_ext st bs L L' :
  (forall c, L' c = L c) -> heap_rep st bs L -> heap_rep st bs L'.
Proof.
  intros E R. constructor; try solve [apply R].
  - intros c Hc. rewrite E. apply (rep_lists _ _ _ R c Hc).
  - intros c n Hc. rewrite E. apply (rep_nodes _ _ _ R c n Hc).
  - intros c Hc. rewrite E. apply (rep_nodup _ _ _ R c Hc).
Qed.

(** The links of the nodes of a list are determined by the list. *)
Lemma dlseg_links m m' l : forall p nx,
  dlseg m p l nx -> dlseg m' p l nx ->
  forall n, In n l -> GET_PREV m' n = GET_PREV m n /\ GET_NEXT m' n = GET_NEXT m n.
Proof.
  induction l as [|a r IH]; intros p nx H H' n Hin; [destruct Hin|].
  rewrite dlseg_unfold in H, H'.
  destruct H as (H1 & H2 & H3). destruct H' as (H1' & H2' & H3').
  destruct Hin as [<-|Hin]; [split; congruence|].
  exact (IH _ _ H3 H3' n Hin).
Qed.

(** C10: on a state that satisfies the free-list invariants, for a free block
    [b] that is in no list, [add_free_block b] followed by
    [remove_free_block b] restores every one of the 14 directory slots and the
    prev- and next-link of every other free block; the lists are again [L]. *)
Theorem add_then_remove_free_block_restores_lists :
  forall st bs L b sz,
    heap_rep st bs L ->
    In (b, sz, false) (layout first_bp bs) ->
    (forall c, 0 <= c < SEG_NUM -> ~ In b (L c)) ->
    let st2 := remove_free_block (add_free_block st b) b in
    (forall c, 0 <= c < SEG_NUM ->
       GET64 (mem st2) (seg_list_start st2 + c * DSIZE)
       = GET64 (mem st) (seg_list_start st + c * DSIZE))
    /\ (forall c f, 0 <= c < SEG_NUM -> In f (L c) ->
          f <> b
          /\ GET_PREV (mem st2) f = GET_PREV (mem st) f
          /\ GET_NEXT (mem st2) f = GET_NEXT (mem st) f)
    /\ heap_rep st2 bs L.
Proof.
  intros st bs L b sz R Hb Hnot st2.
  pose proof (seg_index_range sz) as Hc0.
  destruct (add_free_block_rep _ _ _ _ _ R Hb (Hnot _ Hc0)) as [R1 _].
  set (c0 := seg_index sz) in *.
  assert (E1 : upd L c0 (b :: L c0) c0 = [] ++ b :: L c0)
    by (unfold upd; rewrite Z.eqb_refl; reflexivity).
  destruct (remove_free_block_rep _ _ _ _ _ _ _ R1 Hc0 E1) as [R2 _].
  fold st2 in R2. cbn [app] in R2.
  assert (R3 : heap_rep st2 bs L).
  { revert R2. apply heap_rep_ext. intros c. unfold upd.
    destruct (Z.eqb_spec c c0); [subst; reflexivity | reflexivity]. }
  split; [|split; [|exact R3]].
  - intros c Hc. rewrite (rep_seg_start _ _ _ R3), (rep_seg_start _ _ _ R).
    rewrite (proj1 (rep_lists _ _ _ R3 c Hc)), (proj1 (rep_lists _ _ _ R c Hc)).
    reflexivity.
  - intros c f Hc Hin. split; [intros ->; exact (Hnot c Hc Hin)|].
    apply (dlseg_links (mem st) (mem st2) (L c) 0 0);
      [apply (rep_lists _ _ _ R c Hc) | apply (rep_lists _ _ _ R3 c Hc) | exact Hin].
Qed.

(* ================================================================== *)
(** * find_fit against the placement policy *)

Lemma spec_first_fit_char A l x :
  spec_first_fit A l = Some x ->
  exists l1 s l2, l = l1 ++ (x, s) :: l2 /\ A <= s
                  /\ forall ns, In ns l1 -> snd ns < A.
Proof.
  unfold spec_first_fit. induction l as [|[n s] r IH]; [discriminate|].
  cbn [find snd]. destruct (Z.leb_spec A s) as [Hle|Hgt].
  - intros H. inversion H; subst. exists [], s, r.
    split; [reflexivity|]. split; [assumption|]. intros ns [].
  - intros H. destruct (IH H) as (l1 & s' & l2 & -> & Hs & Hl).
    exists ((n, s) :: l1), s', l2. split; [reflexivity|]. split; [assumption|].
    intros ns [<-|Hin]; [assumption | auto].
Qed.

Lemma sized_split m l l1 x s l2 :
  sized m l = l1 ++ (x, s) :: l2 ->
  exists k1 k2, l = k1 ++ x :: k2 /\ sized m k1 = l1 /\ sized m k2 = l2
                /\ s = GET_SIZE m (HDRP x).
Proof.
  revert l1; induction l as [|n r IH]; intros l1 H.
  - destruct l1; discriminate.
  - destruct l1 as [|a l1].
    + cbn [sized map app] in H. inversion H; subst.
      exists [], r. repeat split; reflexivity.
    + cbn [sized map app] in H. inversion H as [[Ha Hr]].
      destruct (IH l1 Hr) as (k1 & k2 & -> & E1 & E2 & Es).
      exists (n :: k1), k2. cbn [sized map app]. fold (sized m k1).
      rewrite E1. repeat split; assumption.
Qed.

(** What the per-list search of the spec returns: for [A < 960] the first
    node that is large enough, otherwise a node of the least sufficient size,
    the first among those of that size. *)
Lemma spec_seg_fit_char m A l x :
  spec_seg_fit A (sized m l) = Some x ->
  exists k1 k2, l = k1 ++ x :: k2 /\ A <= GET_SIZE m (HDRP x)
    /\ (A < 960 -> forall n, In n k1 -> GET_SIZE m (HDRP n) < A)
    /\ (960 <= A ->
        (forall n, In n k1 -> A <= GET_SIZE m (HDRP n) ->
                   GET_SIZE m (HDRP x) < GET_SIZE m (HDRP n))
        /\ (forall n, In n k2 -> A <= GET_SIZE m (HDRP n) ->
                      GET_SIZE m (HDRP x) <= GET_SIZE m (HDRP n))).
Proof.
  unfold spec_seg_fit. destruct (Z.ltb_spec A 960) as [Hlt|Hge]; intros H.
  - destruct (spec_first_fit_char _ _ _ H) as (l1 & s & l2 & E & Hs & Hl).
    destruct (sized_split _ _ _ _ _ _ E) as (k1 & k2 & -> & E1 & E2 & ->).
    exists k1, k2. split; [reflexivity|]. split; [assumption|]. split; [|lia].
    intros _ n Hin. apply (Hl (n, GET_SIZE m (HDRP n))). rewrite <- E1.
    apply sized_in. auto.
  - unfold spec_best_fit in H.
    destruct (best_from A None (sized m l)) as [[n s]|] eqn:E; [|discriminate].
    inversion H; subst n.
    destruct (best_from_first _ _ _ E) as (l1 & l2 & E0 & Hs & H1 & H2).
    destruct (sized_split _ _ _ _ _ _ E0) as (k1 & k2 & -> & E1 & E2 & ->).
    cbn [snd] in *.
    exists k1, k2. split; [reflexivity|]. split; [assumption|]. split; [lia|].
    intros _. split; intros n Hin Hn.
    + apply (H1 (n, GET_SIZE m (HDRP n))); [|assumption]. rewrite <- E1.
      apply sized_in. auto.
    + apply (H2 (n, GET_SIZE m (HDRP n))); [|assumption]. rewrite <- E2.
      apply sized_in. auto.
Qed.

(** A hit of the search over the classes: the class searched first that has
    a fit, every class before it having none. *)
Lemma spec_find_fit_from_char m (L : Z -> list Z) A k : forall c x,
  spec_find_fit_from A (fun c => sized m (L c)) c k = Some x ->
  exists c', c <= c' < c + Z.of_nat k
    /\ spec_seg_fit A (sized m (L c')) = Some x
    /\ forall c'' n, c <= c'' < c' -> In n (L c'') -> GET_SIZE m (HDRP n) < A.
Proof.
  induction k as [|k IH]; intros c x H; [discriminate|].
  cbn [spec_find_fit_from] in H.
  destruct (spec_seg_fit A (sized m (L c))) as [y|] eqn:E.
  - inversion H; subst y. exists c. split; [lia|]. split; [assumption|]. intros; lia.
  - destruct (IH (c + 1) x H) as (c' & Hc' & E' & Hn).
    exists c'. split; [lia|]. split; [assumption|].
    intros c'' n Hc'' Hin. destruct (Z.eq_dec c'' c) as [->|Hne].
    + apply (spec_seg_fit_none _ _ E (n, GET_SIZE m (HDRP n))). apply sized_in. auto.
    + apply (Hn c'' n); [lia | assumption].
Qed.

(** C7: on a state that satisfies the free-list invariants, [find_fit] returns
    what the policy returns: the search starts at the list of the class of [A]
    and goes on through the larger classes up to the last; within a list it is
    first fit when [A < 960] and best fit otherwise.  A block [x] that is
    found is in the first list, from that of the class of [A] on, that holds a
    block of size at least [A]; for [A < 960] it is the first such block of
    that list, otherwise it has the least size that is at least [A] and is the
    first of that size in the list (which is what returning an exact match at
    once gives).  None is returned exactly when no list holds a block of size
    at least [A]. *)
Theorem find_fit_refines_policy :
  forall st L fuel A,
    free_lists_ok st L -> enough_fuel fuel L ->
    let lists := fun c => sized (mem st) (L c) in
    let size := fun n => GET_SIZE (mem st) (HDRP n) in
    find_fit fuel st A = Some (ptr_of (spec_find_fit A lists))
    /\ (forall x, spec_find_fit A lists = Some x ->
          x <> NULL
          /\ exists c k1 k2,
               seg_index A <= c < SEG_NUM /\ L c = k1 ++ x :: k2 /\ A <= size x
               /\ (forall c' n, seg_index A <= c' < c -> In n (L c') -> size n < A)
               /\ (A < 960 -> forall n, In n k1 -> size n < A)
               /\ (960 <= A ->
                   (forall n, In n k1 -> A <= size n -> size x < size n)
                   /\ (forall n, In n k2 -> A <= size n -> size x <= size n)))
    /\ (find_fit fuel st A = Some NULL <->
        forall c n, 0 <= c < SEG_NUM -> In n (L c) -> size n < A).
Proof.
  intros st L fuel A OK [Hf1 Hf2] lists size.
  pose proof (find_fit_spec st L fuel A OK Hf2 Hf1) as E. fold lists in E.
  pose proof (seg_index_range A) as HcA.
  assert (Hsome : forall x, spec_find_fit A lists = Some x -> x <> NULL).
  { intros x Hx. destruct (spec_find_fit_some st L A x Hx) as (c & Hc & Hin & Hs).
    destruct OK as [_ H]. destruct (H c Hc) as [_ Hn]. apply (Hn x Hin). }
  split; [exact E|]. split.
  - intros x Hx. split; [exact (Hsome x Hx)|].
    unfold spec_find_fit in Hx.
    destruct (spec_find_fit_from_char _ _ _ _ _ _ Hx) as (c & Hc & Ec & Hbefore).
    destruct (spec_seg_fit_char _ _ _ _ Ec) as (k1 & k2 & El & Hs & H1 & H2).
    exists c, k1, k2. split; [unfold SEG_NUM in *; lia|].
    split; [exact El|]. split; [exact Hs|]. split; [exact Hbefore|].
    split; assumption.
  - unfold size. rewrite <- (spec_find_fit_none st L A OK). fold lists. rewrite E. split.
    + intros H. destruct (spec_find_fit A lists) as [x|] eqn:Ex; [|reflexivity].
      cbn [ptr_of] in H. pose proof (Hsome x eq_refl). congruence.
    + intros ->. reflexivity.
Qed.

(* ================================================================== *)
(** * malloc(0), the dead read of extend_heap, calloc *)

(** C9: in [extend_heap] the conditional that reads [size] before its first
    assignment is dead code: whatever value [size0] the uninitialised local
    holds, the function returns the same pointer and the same state as the
    variant without the conditional, so the result depends on [words] and the
    prior state only. *)
Theorem extend_heap_uninitialized_read_is_dead :
  forall (size0 : Z) (st : state) (words : Z),
    extend_heap_raw size0 st words = extend_heap_nocond st words
    /\ extend_heap st words = extend_heap_nocond st words
    /\ extend_heap_nocond st words = extend_heap_tail st (extend_size words).
Proof. intros. repeat split; reflexivity. Qed.

(** C2, as stated, fails before the first call: [malloc 0] on the
    uninitialised state returns none but has run [mm_init], which has grown
    the heap by 592 bytes and set both globals. *)
Lemma malloc_zero_uninitialized_grows_heap :
  match malloc 0 (fresh 0 4096) 0 with
  | Ret (p, st') =>
      p = NULL
      /\ heap_listp (fresh 0 4096) = 0
      /\ mem_brk st' = mem_brk (fresh 0 4096) + 592
      /\ heap_listp st' <> heap_listp (fresh 0 4096)
  | _ => False
  end.
Proof. vm_compute. repeat split; discriminate. Qed.

(** C2 (amended): on every initialised state ([heap_listp] set) [malloc 0]
    returns none and the whole state (memory, heap bounds, free lists) is
    unchanged, for any fuel; on the uninitialised state it returns none after
    running [mm_init]. *)
Theorem malloc_zero_no_side_effects :
  forall (fuel : nat) (st : state),
    (heap_listp st <> 0 -> malloc fuel st 0 = Ret (NULL, st))
    /\ (heap_listp st = 0 -> malloc fuel st 0 = Ret (NULL, snd (mm_init st))).
Proof.
  intros fuel st. unfold malloc. split; intros H.
  - destruct (Z.eqb_spec (heap_listp st) 0); [contradiction | reflexivity].
  - rewrite H. reflexivity.
Qed.

(** An instance: [malloc 0] on the heap after [mm_init]. *)
Lemma malloc_zero_no_side_effects_witness :
  heap_listp (initialized 0 4096) <> 0
  /\ malloc 3 (initialized 0 4096) 0 = Ret (NULL, initialized 0 4096).
Proof.
  split.
  - vm_compute. discriminate.
  - apply (malloc_zero_no_side_effects 3 (initialized 0 4096)).
    vm_compute. discriminate.
Defined.

(** C5 fails on the code: [calloc] hands the result of [malloc] to [memset]
    unchecked.  On a heap that cannot grow, [malloc 1000] returns none and
    leaves the state alone, while [calloc 1 1000] zeroes 1000 bytes at
    address 0: a fault, not a none return.  And a product that wraps around
    is not detected: [calloc (2^61+1) 8] returns a 16-byte block, 12 bytes of
    payload for a request of [2^64 + 8] bytes. *)
Theorem calloc_faults_when_malloc_fails :
  (let st := initialized 0 592 in
   malloc 20 st 1000 = Ret (NULL, st) /\ calloc 20 st 1 1000 = Fault)
  /\ match calloc 20 (initialized 0 4096) (2 ^ 61 + 1) 8 with
     | Ret (p, st') => p <> NULL /\ GET_SIZE (mem st') (HDRP p) = 16
     | _ => False
     end.
Proof.
  split.
  - split; vm_compute; reflexivity.
  - vm_compute. split; [discriminate | reflexivity].
Qed.

(** C1 fails on the code: the adjusted size of a request of [2^64 - 1] bytes
    wraps around to 8, so [malloc] carves an 8-byte allocated block out of the
    first free block; freeing it writes the next-link of the 8-byte block over
    the header of its successor, and the heap ends with a free block followed
    by a block whose allocated bit is clear.  The checker of mm.c itself
    reports two consecutive free blocks. *)
Theorem overflowing_malloc_then_free_leaves_adjacent_free_blocks :
  match malloc 20 (initialized 0 4096) (2 ^ 64 - 1) with
  | Ret (p, st1) =>
      p = first_bp /\ GET (mem st1) (HDRP p) = hdr 8 true true /\
      let st2 := free st1 p in
      let m := mem st2 in
      GET_SIZE m (HDRP p) = 8 /\ GET_ALLOC m (HDRP p) = 0
      /\ GET_ALLOC m (HDRP (NEXT_BLKP m p)) = 0
      /\ exists out, mm_checkheap 20 st2 = Some out /\ In ConsecutiveFreeBlocks out
  | _ => False
  end.
Proof.
  vm_compute. repeat split; try reflexivity.
  eexists. split; [reflexivity|]. simpl. tauto.
Qed.

(* ================================================================== *)
(** * Example heaps *)

Lemma forall_classes (P : Z -> Prop) :
  P 0 -> P 1 -> P 2 -> P 3 -> P 4 -> P 5 -> P 6 -> P 7 -> P 8 -> P 9 -> P 10 ->
  P 11 -> P 12 -> P 13 -> forall c, 0 <= c < SEG_NUM -> P c.
Proof.
  intros H0 H1 H2 H3 H4 H5 H6 H7 H8 H9 H10 H11 H12 H13 c Hc.
  assert (E : c = 0 \/ c = 1 \/ c = 2 \/ c = 3 \/ c = 4 \/ c = 5 \/ c = 6 \/ c = 7
              \/ c = 8 \/ c = 9 \/ c = 10 \/ c = 11 \/ c = 12 \/ c = 13)
    by (unfold SEG_NUM in Hc; lia).
  repeat (destruct E as [->|E]; [assumption|]). subst c. assumption.
Qed.

Lemma initialized_ok : mm_init (fresh 0 4096) = (0, initialized 0 4096).
Proof.
  unfold initialized. rewrite (surjective_pairing (mm_init (fresh 0 4096))) at 1.
  apply f_equal2; [vm_compute; reflexivity | reflexivity].
Qed.

Lemma initialized_inv : heap_inv (initialized 0 4096) [(CHUNKSIZE, false)] init_lists.
Proof.
  apply (mm_init_inv (fresh 0 4096)); [reflexivity | reflexivity | | exact initialized_ok].
  vm_compute. discriminate.
Qed.

Ltac eval_field :=
  vm_compute; repeat split; try discriminate; try reflexivity;
  intros; try reflexivity; try discriminate.

Ltac eval_nodes LL bs :=
  let c := fresh "c" in let n := fresh "n" in let Hc := fresh "Hc" in
  let Hin := fresh "Hin" in
  intros c n Hc; revert n; revert c Hc;
  apply (forall_classes (fun c => forall n, In n (LL c) ->
           exists sz, In (n, sz, false) (layout first_bp bs) /\ seg_index sz = c));
  intros n Hin; vm_compute in Hin;
  repeat (destruct Hin as [Hin|Hin]; [subst n|]); try contradiction;
  (eexists; split;
   [cbn [layout In]; repeat (first [left; reflexivity | right]) | reflexivity]).

Ltac eval_rep LL bs :=
  constructor;
  [eval_field | eval_field | eval_field | eval_field | eval_field | eval_field
  | eval_field | eval_field | eval_field | eval_field
  | apply forall_classes; eval_field
  | eval_nodes LL bs
  | apply forall_classes; vm_compute; repeat constructor;
    intros H; repeat (destruct H as [H|H]; [discriminate H|]); exact H].

Ltac eval_complete :=
  let n := fresh "n" in let sz := fresh "sz" in let Hin := fresh "Hin" in
  intros n sz Hin; vm_compute in Hin;
  repeat (destruct Hin as [Hin|Hin];
          [first [discriminate Hin
                 | inversion Hin; subst; vm_compute; auto 6]|]);
  contradiction.

Lemma one_block_inv :
  heap_inv one_block [(16, true); (448, false)] one_block_lists.
Proof.
  split; [eval_rep one_block_lists [(16, true); (448, false)]|].
  split; [eval_complete | reflexivity].
Qed.

Lemma scattered_inv : heap_inv scattered scattered_blocks scattered_lists.
Proof.
  split; [eval_rep scattered_lists scattered_blocks|].
  split; [eval_complete | reflexivity].
Qed.

Lemma unlisted_rep : heap_rep unlisted scattered_blocks unlisted_lists.
Proof. eval_rep unlisted_lists scattered_blocks. Qed.

Lemma enough_fuel_20 L :
  (forall c, 0 <= c < SEG_NUM -> (length (L c) <= 20)%nat) -> enough_fuel 20 L.
Proof. intros H. split; [unfold SEG_NUM; lia | exact H]. Qed.


(** C4 as stated fails: [p = malloc 12] has a payload of 12 bytes, and
    [realloc p 100] copies 16 bytes, the block size: the byte at offset 12 of
    the new block, which held the fill value 170, holds after the call what
    lay behind [p]'s payload. *)
Lemma realloc_copies_past_payload :
  match malloc 20 (initialized 170 4096) 12 with
  | Ret (p, st) =>
      payload_size (mem st) p = 12 /\ Z.min 100 (payload_size (mem st) p) = 12
      /\ match malloc 20 st 100, realloc 20 st p 100 with
         | Ret (q, st1), Ret (q', st') =>
             q' = q /\ q <> NULL
             /\ realloc_copy_len (mem st1) p 100 = 16
             /\ load8 (mem st1) (q + 12) = 170
             /\ load8 (mem st') (q + 12) = load8 (mem st1) (p + 12)
             /\ load8 (mem st') (q + 12) <> 170
         | _, _ => False
         end
  | _ => False
  end.
Proof. vm_compute. repeat split; try reflexivity; discriminate. Qed.

(** An instance: [realloc first_bp 100] on [one_block]. *)
Lemma realloc_copies_block_size_witness :
  heap_inv one_block [(16, true); (448, false)] one_block_lists
  /\ enough_fuel 20 one_block_lists
  /\ In (first_bp, 16, true) (layout first_bp [(16, true); (448, false)])
  /\ 0 < 100 /\ 100 + 11 < 2 ^ 64
  /\ GET_SIZE (mem one_block) (HDRP first_bp) = 16
  /\ payload_size (mem one_block) first_bp = 16 - WSIZE.
Proof.
  assert (Hf : enough_fuel 20 one_block_lists)
    by (apply enough_fuel_20; apply forall_classes; vm_compute; lia).
  assert (Hin : In (first_bp, 16, true) (layout first_bp [(16, true); (448, false)]))
    by (left; reflexivity).
  split; [exact one_block_inv|]. split; [exact Hf|]. split; [exact Hin|].
  split; [lia|]. split; [lia|].
  destruct (realloc_copies_block_size one_block [(16, true); (448, false)]
              one_block_lists 20 first_bp 16 100 one_block_inv Hf Hin)
    as (H1 & H2 & _); [lia | lia |].
  split; assumption.
Defined.

(** C6 as stated fails: after a successful [mm_init] both prologue words hold
    size 8, not 16, and [mm_checkheap] prints nothing; with size 16 in both
    prologue words it prints a prologue size error. *)
Lemma prologue_size_is_not_16 :
  let st := initialized 0 4096 in
  let pro := heap_listp st in
  fst (mm_init (fresh 0 4096)) = 0
  /\ GET (mem st) (HDRP pro) = 9 /\ GET (mem st) (FTRP (mem st) pro) = 9
  /\ GET_SIZE (mem st) (HDRP pro) = 8 /\ GET_SIZE (mem st) (FTRP (mem st) pro) = 8
  /\ GET_SIZE (mem st) (HDRP pro) <> 16
  /\ mm_checkheap 100 st = Some []
  /\ In PrologueHeaderSizeError
        (check_prologue
           (set_mem st (PUT (PUT (mem st) (HDRP pro) (PACK 16 1)) pro (PACK 16 1)))).
Proof.
  vm_compute. repeat split; try reflexivity; try discriminate. left. reflexivity.
Qed.

(** An instance: [mm_init] on an empty raw heap of 4096 bytes. *)
Lemma mm_init_prologue_has_size_8_witness :
  mem_start_brk (fresh 0 4096) = BASEADDR /\ mem_brk (fresh 0 4096) = BASEADDR
  /\ mem_max_addr (fresh 0 4096) <= BASEADDR + 2 ^ 32
  /\ mm_init (fresh 0 4096) = (0, initialized 0 4096)
  /\ GET (mem (initialized 0 4096)) (HDRP (heap_listp (initialized 0 4096)))
     = PACK DSIZE 1.
Proof.
  assert (Hmax : mem_max_addr (fresh 0 4096) <= BASEADDR + 2 ^ 32)
    by (vm_compute; discriminate).
  split; [reflexivity|]. split; [reflexivity|]. split; [exact Hmax|].
  split; [exact initialized_ok|].
  exact (proj1 (mm_init_prologue_has_size_8 (fresh 0 4096) (initialized 0 4096)
                  eq_refl eq_refl Hmax initialized_ok)).
Defined.

(** An instance: [find_fit 16] on [scattered]. *)
Lemma find_fit_refines_policy_witness :
  free_lists_ok scattered scattered_lists /\ enough_fuel 20 scattered_lists
  /\ find_fit 20 scattered 16
     = Some (ptr_of (spec_find_fit 16
                       (fun c => sized (mem scattered) (scattered_lists c)))).
Proof.
  assert (Hok : free_lists_ok scattered scattered_lists)
    by exact (heap_rep_free_lists_ok _ _ _ (proj1 scattered_inv)).
  assert (Hf : enough_fuel 20 scattered_lists)
    by (apply enough_fuel_20; apply forall_classes; vm_compute; lia).
  split; [exact Hok|]. split; [exact Hf|].
  exact (proj1 (find_fit_refines_policy scattered scattered_lists 20 16 Hok Hf)).
Defined.

(** An instance: [place] of 24 bytes in the 400-byte block of [scattered]. *)
Lemma place_splits_when_remainder_fits_witness :
  heap_inv scattered ([(16, false); (16, true); (16, false); (16, true)]
                      ++ (400, false) :: []) scattered_lists
  /\ 16 <= 24 <= 400 /\ 24 mod 8 = 0
  /\ GET_SIZE (mem scattered)
       (HDRP (first_bp + total [(16, false); (16, true); (16, false); (16, true)]))
     = 400.
Proof.
  assert (Ha : 16 <= 24 <= 400) by lia.
  split; [exact scattered_inv|]. split; [exact Ha|]. split; [reflexivity|].
  exact (proj1 (place_splits_when_remainder_fits scattered
                  [(16, false); (16, true); (16, false); (16, true)] 400 []
                  scattered_lists 24 scattered_inv Ha eq_refl)).
Defined.

(** An instance: the block at [first_bp + 32] of [unlisted]; the other node of
    its class, [first_bp], gets its links back. *)
Lemma add_then_remove_free_block_restores_lists_witness :
  heap_rep unlisted scattered_blocks unlisted_lists
  /\ In (first_bp + 32, 16, false) (layout first_bp scattered_blocks)
  /\ (forall c, 0 <= c < SEG_NUM -> ~ In (first_bp + 32) (unlisted_lists c))
  /\ (let st2 := remove_free_block (add_free_block unlisted (first_bp + 32))
                                   (first_bp + 32) in
      GET_PREV (mem st2) first_bp = GET_PREV (mem unlisted) first_bp
      /\ GET_NEXT (mem st2) first_bp = GET_NEXT (mem unlisted) first_bp).
Proof.
  assert (Hin : In (first_bp + 32, 16, false) (layout first_bp scattered_blocks))
    by (right; right; left; reflexivity).
  assert (Hnot : forall c, 0 <= c < SEG_NUM -> ~ In (first_bp + 32) (unlisted_lists c)).
  { apply forall_classes; vm_compute; intros H;
      repeat (destruct H as [H|H]; [discriminate H|]); exact H. }
  split; [exact unlisted_rep|]. split; [exact Hin|]. split; [exact Hnot|].
  destruct (add_then_remove_free_block_restores_lists unlisted scattered_blocks
              unlisted_lists (first_bp + 32) 16 unlisted_rep Hin Hnot)
    as (_ & H & _).
  apply (H (seg_index 16) first_bp); [apply seg_index_range | left; reflexivity].
Defined.

(* ================================================================== *)
(** * Further properties of the allocator and of the heap checker *)

(* ================================================================== *)
(** * ALIGN, aligned, in_heap *)

Lemma land_wrap64_lnot7 x :
  0 <= x < 2 ^ 64 -> Z.land x (wrap64 (Z.lnot 7)) = 8 * (x / 8).
Proof.
  intros H. rewrite <- land_lnot7. unfold wrap64.
  rewrite <- (Z.land_ones (Z.lnot 7) 64) by lia.
  rewrite (Z.land_comm (Z.lnot 7)), Z.land_assoc.
  rewrite (Z.land_ones x 64) by lia. rewrite Z.mod_small by assumption.
  reflexivity.
Qed.

Lemma ALIGN_spec p :
  0 <= p -> p + 7 < 2 ^ 64 -> ALIGN p = 8 * ((p + 7) / 8).
Proof.
  intros H1 H2. unfold ALIGN, ALIGNMENT.
  replace (p + (8 - 1)) with (p + 7) by lia.
  rewrite (wrap64_small (p + 7)) by lia. apply land_wrap64_lnot7. lia.
Qed.

Lemma aligned_spec p :
  0 <= p -> p + 7 < 2 ^ 64 -> (aligned p = true <-> p mod 8 = 0).
Proof.
  intros H1 H2. unfold aligned. rewrite ALIGN_spec by assumption.
  rewrite Z.eqb_eq. split; intros H; Z.div_mod_to_equations; lia.
Qed.

Lemma in_heap_spec st p :
  in_heap st p = true <-> mem_start_brk st <= p <= mem_brk st - 1.
Proof.
  unfold in_heap, mem_heap_hi, mem_heap_lo.
  rewrite andb_true_iff, Z.leb_le, Z.geb_le. lia.
Qed.

(* ================================================================== *)
(** * The checker on a heap that satisfies the invariant *)

Lemma when_false d : when false d = [].
Proof. reflexivity. Qed.

Lemma check_block_ok st bs L b sz al :
  heap_rep st bs L -> In (b, sz, al) (layout first_bp bs) -> check_block st b = [].
Proof.
  intros R Hin.
  destruct (rep_block _ _ _ R _ _ _ Hin) as (H1 & H2 & H3 & H4 & H5 & H6).
  destruct (rep_block_words _ _ _ R _ _ _ Hin) as (E1 & E2 & E3).
  pose proof (rep_brk_bound _ _ _ R) as Hb. pose proof (rep_start _ _ _ R) as Hs.
  unfold check_block. cbv zeta. rewrite E1, E2.
  assert (Ei : in_heap st b = true) by (apply in_heap_spec; consts; lia).
  assert (Ea : aligned b = true) by (apply aligned_spec; [consts; lia | consts; lia | assumption]).
  rewrite Ei, Ea. cbn [negb when app].
  replace (sz <? 2 * DSIZE) with false by (symmetry; apply Z.ltb_ge; consts; lia).
  cbn [andb when app].
  destruct al; [reflexivity|]. cbn [Z.eqb].
  unfold FTRP. rewrite E1.
  rewrite (GET_SIZE_word _ _ _ (E3 eq_refl) H4). rewrite Z.eqb_refl. reflexivity.
Qed.

Lemma lor_alloc (a b : bool) :
  (Z.lor (if a then 1 else 0) (if b then 1 else 0) =? 0) = negb a && negb b.
Proof. destruct a, b; reflexivity. Qed.

(** The sweep over the blocks from some block on. *)
Lemma check_heap_loop_blocks st bs L :
  heap_rep st bs L ->
  forall l2 l1 fuel count,
    bs = l1 ++ l2 -> (length l2 < fuel)%nat ->
    check_heap_loop fuel st (first_bp + total l1) count
    = Some (count + count_free l2, adj_diags l2).
Proof.
  intros R. induction l2 as [|[sz al] r IH]; intros l1 fuel count E Hf.
  - rewrite app_nil_r in E. subst l1.
    destruct fuel as [|k]; [cbn in Hf; lia|]. cbn [check_heap_loop count_free adj_diags].
    rewrite <- (rep_brk _ _ _ R).
    rewrite (GET_SIZE_hdr _ _ _ _ _ (rep_epilogue _ _ _ R) eq_refl).
    cbn [Z.gtb Z.compare]. rewrite Z.add_0_r. reflexivity.
  - destruct fuel as [|k]; [cbn in Hf; lia|]. cbn [length] in Hf.
    subst bs. pose proof (rep_mid _ _ _ _ _ _ R) as M. cbv zeta in M.
    set (p := first_bp + total l1) in *.
    destruct M as (Hh & _ & Hn & Hin & Hp1 & Hs1 & Hs2 & Hp2 & Hok1 & Hok2 & Hbrk & Hmax).
    cbn [check_heap_loop]. cbv zeta.
    rewrite (GET_SIZE_hdr _ _ _ _ _ Hh Hs2).
    replace (sz >? 0) with true by (symmetry; apply Z.gtb_lt; lia).
    rewrite (check_block_ok _ _ _ _ _ _ R Hin).
    rewrite (GET_ALLOC_hdr _ _ _ _ _ Hh Hs2).
    assert (EN : NEXT_BLKP (mem st) p = p + sz).
    { unfold NEXT_BLKP. fold (HDRP p). rewrite (GET_SIZE_hdr _ _ _ _ _ Hh Hs2). reflexivity. }
    rewrite !EN.
    assert (Hnext : exists s' a', GET (mem st) (HDRP (p + sz)) = hdr s' al a'
                      /\ s' mod 8 = 0
                      /\ negb a' = match r with (_, false) :: _ => true | _ => false end).
    { destruct r as [|[s' a'] r'].
      - exists 0, true. cbn [first_hdr] in Hn. split; [exact Hn|].
        split; reflexivity.
      - exists s', a'. cbn [first_hdr] in Hn. split; [exact Hn|].
        inversion Hok2 as [|? ? [_ Hm] _]; subst. cbn [fst] in Hm. split; [exact Hm|].
        destruct a'; reflexivity. }
    destruct Hnext as (s' & a' & Hn' & Hm' & Hhd).
    rewrite (GET_PREV_ALLOC_hdr _ _ _ _ _ Hn' Hm'), (GET_ALLOC_hdr _ _ _ _ _ Hn' Hm').
    rewrite lor_alloc, Hhd.
    replace ((if al then 1 else 0) =? (if al then 2 else 0) / 2) with true
      by (destruct al; reflexivity).
    cbn [negb when app].
    assert (Ep : p + sz = first_bp + total (l1 ++ [(sz, al)]))
      by (rewrite total_app; cbn [total]; unfold p; lia).
    rewrite Ep.
    rewrite (IH (l1 ++ [(sz, al)]) k
               (if (if al then 1 else 0) =? 0 then count + 1 else count)).
    + cbn [count_free adj_diags]. f_equal. f_equal. destruct al; cbn [Z.eqb]; lia.
    + rewrite <- app_assoc. reflexivity.
    + lia.
Qed.

Lemma check_prologue_ok st bs L : heap_rep st bs L -> check_prologue st = [].
Proof.
  intros R.
  pose proof (rep_prologue_hdr _ _ _ R) as Hh. pose proof (rep_prologue_ftr _ _ _ R) as Hf.
  pose proof (rep_heap_listp _ _ _ R) as Hl.
  unfold check_prologue, GET_SIZE, GET_ALLOC. cbv zeta.
  fold (HDRP (heap_listp st)). rewrite Hh, Hf, Hl. reflexivity.
Qed.

Lemma check_epilogue_ok st bs L : heap_rep st bs L -> check_epilogue st = [].
Proof.
  intros R. pose proof (rep_epilogue _ _ _ R) as He.
  unfold check_epilogue, mem_heap_hi. cbv zeta.
  replace (mem_brk st - 1 - 3) with (HDRP (mem_brk st)) by (unfold HDRP, WSIZE; lia).
  rewrite (GET_SIZE_hdr _ _ _ _ _ He eq_refl), (GET_ALLOC_hdr _ _ _ _ _ He eq_refl).
  reflexivity.
Qed.

(** The whole sweep, which starts at the prologue. *)
Lemma check_heap_loop_ok st bs L fuel :
  heap_rep st bs L -> (length bs + 1 < fuel)%nat ->
  check_heap_loop fuel st (heap_listp st) 0 = Some (count_free bs, adj_diags bs).
Proof.
  intros R Hf.
  pose proof (rep_prologue_hdr _ _ _ R) as Hh. pose proof (rep_heap_listp _ _ _ R) as Hl.
  pose proof (rep_brk _ _ _ R) as Hbrk. pose proof (rep_start _ _ _ R) as Hs.
  pose proof (rep_brk_bound _ _ _ R) as Hb.
  pose proof (total_nonneg _ (rep_sizes_ok _ _ _ R)) as Ht.
  destruct fuel as [|k]; [lia|]. cbn [check_heap_loop]. cbv zeta.
  set (hl := heap_listp st) in *.
  assert (Es : GET_SIZE (mem st) (HDRP hl) = 8) by (unfold GET_SIZE; rewrite Hh; reflexivity).
  assert (Ea : GET_ALLOC (mem st) (HDRP hl) = 1) by (unfold GET_ALLOC; rewrite Hh; reflexivity).
  assert (EN : NEXT_BLKP (mem st) hl = first_bp + total []).
  { unfold NEXT_BLKP. fold (HDRP hl). rewrite Es, Hl. reflexivity. }
  rewrite !EN, Es, Ea. cbn [Z.gtb Z.compare Z.eqb].
  assert (Ecb : check_block st hl = []).
  { unfold check_block. cbv zeta. rewrite Es, Ea.
    assert (Ei : in_heap st hl = true) by (apply in_heap_spec; consts; lia).
    assert (Eal : aligned hl = true)
      by (apply aligned_spec; [consts; lia | consts; lia | rewrite Hl; reflexivity]).
    rewrite Ei, Eal. unfold hl. rewrite Z.eqb_refl. reflexivity. }
  rewrite Ecb.
  assert (Hnext : exists s' a', GET (mem st) (HDRP (first_bp + total [])) = hdr s' true a'
                                /\ s' mod 8 = 0).
  { destruct bs as [|[s' a'] r].
    - exists 0, true. rewrite <- Hbrk. split; [apply (rep_epilogue _ _ _ R) | reflexivity].
    - destruct (rep_mid st [] s' a' r L R) as (H1 & _ & _ & _ & _ & _ & H2 & _).
      exists s', a'. split; assumption. }
  destruct Hnext as (s' & a' & Hn & Hm).
  rewrite (GET_PREV_ALLOC_hdr _ _ _ _ _ Hn Hm), (GET_ALLOC_hdr _ _ _ _ _ Hn Hm).
  replace (Z.lor 1 (if a' then 1 else 0) =? 0) with false by (destruct a'; reflexivity).
  cbn [Z.div Z.eqb negb when app].
  change (1 =? 2 / 2) with true. cbn [negb when app].
  rewrite (check_heap_loop_blocks _ _ _ R bs [] k 0 eq_refl); [reflexivity | lia].
Qed.

(** ** The lists *)

Lemma check_list_loop_ok st lo hi :
  mem_start_brk st = BASEADDR ->
  forall r n p fuel count,
    dlseg (mem st) p (n :: r) 0 ->
    (forall x, In x (n :: r) ->
       first_bp <= x /\ x + 16 <= BASEADDR + 2 ^ 32 /\ x mod 8 = 0
       /\ x <= mem_brk st - 1 /\ lo <= GET_SIZE (mem st) (HDRP x) < hi) ->
    (length r < fuel)%nat ->
    check_list_loop fuel st lo hi n count = Some (count + Z.of_nat (length r), []).
Proof.
  intros Hs. induction r as [|n' r IH]; intros n p fuel count Hd Hx Hf.
  - destruct fuel as [|k]; [cbn in Hf; lia|]. cbn [check_list_loop]. cbv zeta.
    rewrite dlseg_unfold in Hd. destruct Hd as (_ & Hn & _). cbn [hdoff] in Hn.
    rewrite Hn. cbn [Z.eqb negb length Z.of_nat]. rewrite Z.add_0_r. reflexivity.
  - destruct fuel as [|k]; [cbn in Hf; lia|]. cbn [length] in Hf.
    cbn [check_list_loop]. cbv zeta.
    rewrite dlseg_unfold in Hd. destruct Hd as (_ & Hn & Hd). cbn [hdoff] in Hn.
    assert (Hd' := Hd). rewrite dlseg_unfold in Hd'. destruct Hd' as (Hp' & _).
    destruct (Hx n (or_introl eq_refl)) as (A1 & A2 & A3 & A4 & A5).
    destruct (Hx n' (or_intror (or_introl eq_refl))) as (B1 & B2 & B3 & B4 & B5).
    rewrite Hn.
    replace (n' - BASEADDR =? 0) with false by (symmetry; apply Z.eqb_neq; consts; lia).
    cbn [negb].
    assert (Eo : OFFSET_REAL (n' - BASEADDR) = n') by (unfold OFFSET_REAL; lia).
    rewrite !Eo.
    replace (n' =? 0) with false by (symmetry; apply Z.eqb_neq; consts; lia).
    assert (Ei : in_heap st n = true) by (apply in_heap_spec; consts; lia).
    assert (Ea : aligned n = true)
      by (apply aligned_spec; [consts; lia | consts; lia | assumption]).
    rewrite Ei, Ea, Hp'.
    replace (GET_SIZE (mem st) (HDRP n) <? lo) with false by (symmetry; apply Z.ltb_ge; lia).
    replace (GET_SIZE (mem st) (HDRP n) >=? hi) with false
      by (symmetry; rewrite Z.geb_leb; apply Z.leb_gt; lia).
    assert (Er : REAL_OFFSET n = n - BASEADDR).
    { unfold REAL_OFFSET, wrap32, wrap64.
      rewrite (Z.mod_small (n - BASEADDR) (2 ^ 64)) by (consts; lia).
      apply Z.mod_small. consts; lia. }
    rewrite Er, Z.eqb_refl. cbn [negb orb when app].
    rewrite (IH n' (n - BASEADDR) k (count + 1) Hd); [|intros x Hin; apply Hx; right; exact Hin | lia].
    cbn [length]. f_equal. f_equal. lia.
Qed.

(** The size classes of [get_seg_listp] and the bounds [mm_checkheap] holds
    against the lists agree below [INT_MAX]. *)
Lemma seg_index_sizes s :
  0 <= s ->
  nth (Z.to_nat (seg_index s)) sizes 0 <= s
  /\ (s < INT_MAX -> s < nth (Z.to_nat (seg_index s + 1)) sizes 0).
Proof.
  intros H0. change INT_MAX with 1073741823.
  unfold seg_index, SEG_SIZE1, SEG_SIZE2, SEG_SIZE3, SEG_SIZE4, SEG_SIZE5,
    SEG_SIZE6, SEG_SIZE7, SEG_SIZE8, SEG_SIZE9, SEG_SIZE10, SEG_SIZE11, SEG_SIZE12,
    SEG_SIZE13.
  repeat match goal with
         | |- context [?x <? ?y] => destruct (Z.ltb_spec x y)
         end;
    repeat match goal with
           | |- context [nth ?i sizes 0] =>
               let v := eval vm_compute in (nth i sizes 0) in
               change (nth i sizes 0) with v
           end; lia.
Qed.

Lemma check_list_ok st bs L fuel c :
  heap_rep st bs L -> 0 <= c < SEG_NUM ->
  (forall b sz, In (b, sz, false) (layout first_bp bs) -> sz < INT_MAX) ->
  (length (L c) <= fuel)%nat ->
  check_list fuel st (seg_list_start st + c * DSIZE)
             (nth (Z.to_nat c) sizes 0) (nth (Z.to_nat (c + 1)) sizes 0)
  = Some (Z.of_nat (length (L c)), []).
Proof.
  intros R Hc Hsz Hf.
  destruct (rep_lists _ _ _ R c Hc) as [Hs Hd].
  unfold check_list. cbv zeta. rewrite (rep_seg_start _ _ _ R), Hs.
  destruct (L c) as [|n r] eqn:E; [reflexivity|].
  assert (Hn : forall x, In x (n :: r) ->
             first_bp <= x /\ x + 16 <= BASEADDR + 2 ^ 32 /\ x mod 8 = 0
             /\ x <= mem_brk st - 1
             /\ nth (Z.to_nat c) sizes 0 <= GET_SIZE (mem st) (HDRP x)
                < nth (Z.to_nat (c + 1)) sizes 0).
  { intros x Hx. rewrite <- E in Hx.
    destruct (rep_node _ _ _ R _ _ Hc Hx) as (s & Hi & Ec & Es & H1 & H2 & H3 & H4).
    pose proof (rep_brk_bound _ _ _ R).
    destruct (seg_index_sizes s) as [Hlo Hhi]; [lia|]. rewrite Ec in Hlo, Hhi.
    specialize (Hhi (Hsz _ _ Hi)). rewrite Es. repeat split; lia. }
  replace (n =? 0) with false
    by (symmetry; apply Z.eqb_neq; destruct (Hn n (or_introl eq_refl)); consts; lia).
  cbn [length] in Hf.
  rewrite (check_list_loop_ok st _ _ (rep_start _ _ _ R) r n 0 fuel 0 Hd Hn) by lia.
  cbn [length]. f_equal. f_equal. lia.
Qed.

Lemma check_lists_loop_ok st bs L fuel :
  heap_rep st bs L ->
  (forall b sz, In (b, sz, false) (layout first_bp bs) -> sz < INT_MAX) ->
  (forall c, 0 <= c < SEG_NUM -> (length (L c) <= fuel)%nat) ->
  forall n i fc,
    0 <= i -> i + Z.of_nat n <= SEG_NUM ->
    check_lists_loop fuel n st i fc = Some (fc + count_listed L i n, []).
Proof.
  intros R Hsz Hf. induction n as [|n IH]; intros i fc Hi Hn.
  - cbn [check_lists_loop count_listed]. rewrite Z.add_0_r. reflexivity.
  - cbn [check_lists_loop count_listed]. cbv zeta.
    assert (Hc : 0 <= i < SEG_NUM) by lia.
    rewrite (check_list_ok _ _ _ _ _ R Hc Hsz (Hf i Hc)).
    rewrite IH by lia. cbn [app]. f_equal. f_equal. lia.
Qed.

(** ** Listed nodes and free blocks *)

Lemma free_ptrs_in bp bs x :
  In x (free_ptrs bp bs) <-> exists sz, In (x, sz, false) (layout bp bs).
Proof.
  revert bp; induction bs as [|[sz al] r IH]; intros bp; cbn [free_ptrs layout].
  - split; [intros [] | intros (s & [])].
  - destruct al.
    + rewrite IH. split.
      * intros (s & H). exists s. right. exact H.
      * intros (s & [H|H]); [discriminate | eauto].
    + cbn [In]. rewrite IH. split.
      * intros [<-|(s & H)]; [exists sz; left; reflexivity | exists s; right; exact H].
      * intros (s & [H|H]); [left; congruence | right; eauto].
Qed.

Lemma free_ptrs_length bp bs : Z.of_nat (length (free_ptrs bp bs)) = count_free bs.
Proof.
  revert bp; induction bs as [|[sz al] r IH]; intros bp; [reflexivity|].
  cbn [free_ptrs count_free]. destruct al; [rewrite IH; lia|].
  cbn [length]. rewrite Nat2Z.inj_succ, IH. lia.
Qed.

Lemma free_ptrs_nodup bp bs : sizes_ok bs -> NoDup (free_ptrs bp bs).
Proof.
  revert bp; induction bs as [|[sz al] r IH]; intros bp Hok; [constructor|].
  inversion Hok as [|? ? [H1 _] Hr]; subst. cbn [fst] in H1.
  cbn [free_ptrs]. destruct al; [apply IH; assumption|].
  constructor; [|apply IH; assumption].
  intros H. apply free_ptrs_in in H. destruct H as (s & H).
  pose proof (layout_bounds _ _ _ _ _ Hr H). lia.
Qed.

Lemma nodes_from_in L n : forall i x,
  In x (nodes_from L i n) <-> exists c, i <= c < i + Z.of_nat n /\ In x (L c).
Proof.
  induction n as [|n IH]; intros i x; cbn [nodes_from].
  - split; [intros [] | intros (c & H & _); lia].
  - rewrite in_app_iff, IH. split.
    + intros [H|(c & Hc & H)]; [exists i; split; [lia | exact H] | exists c; split; [lia | exact H]].
    + intros (c & Hc & H). destruct (Z.eq_dec c i) as [->|Hne]; [left; exact H|].
      right. exists c. split; [lia | exact H].
Qed.

Lemma nodes_from_length L n : forall i,
  Z.of_nat (length (nodes_from L i n)) = count_listed L i n.
Proof.
  induction n as [|n IH]; intros i; [reflexivity|].
  cbn [nodes_from count_listed]. rewrite length_app, Nat2Z.inj_add, IH. reflexivity.
Qed.

Lemma nodes_from_nodup st bs L :
  heap_rep st bs L ->
  forall n i, 0 <= i -> i + Z.of_nat n <= SEG_NUM -> NoDup (nodes_from L i n).
Proof.
  intros R. induction n as [|n IH]; intros i Hi Hn; [constructor|].
  cbn [nodes_from]. apply NoDup_app.
  - apply (rep_nodup _ _ _ R). lia.
  - apply IH; lia.
  - intros x Hx H. apply nodes_from_in in H. destruct H as (c & Hc & H).
    assert (Hi' : 0 <= i < SEG_NUM) by lia. assert (Hc' : 0 <= c < SEG_NUM) by lia.
    assert (Hne : i <> c) by lia.
    pose proof (nodes_classes _ _ _ R i c x x Hi' Hc' Hne Hx H). lia.
Qed.

Lemma incl_nodes_free st bs L :
  heap_rep st bs L ->
  incl (nodes_from L 0 (Z.to_nat SEG_NUM)) (free_ptrs first_bp bs).
Proof.
  intros R x Hx. apply nodes_from_in in Hx. destruct Hx as (c & Hc & Hx).
  apply free_ptrs_in.
  destruct (rep_nodes _ _ _ R c x) as (s & Hi & _); [unfold SEG_NUM in *; lia | exact Hx|].
  exists s. exact Hi.
Qed.

(** The lists hold as many nodes as there are free blocks exactly when every
    free block is in the list of its class. *)
Lemma count_listed_free st bs L :
  heap_rep st bs L ->
  (count_listed L 0 (Z.to_nat SEG_NUM) = count_free bs <-> lists_complete bs L).
Proof.
  intros R.
  rewrite <- nodes_from_length, <- (free_ptrs_length first_bp).
  pose proof (incl_nodes_free _ _ _ R) as H1.
  assert (Hnd : NoDup (nodes_from L 0 (Z.to_nat SEG_NUM)))
    by (apply (nodes_from_nodup _ _ _ R); unfold SEG_NUM; lia).
  split.
  - intros E n sz Hi.
    assert (H2 : incl (free_ptrs first_bp bs) (nodes_from L 0 (Z.to_nat SEG_NUM)))
      by (apply NoDup_length_incl; [exact Hnd | lia | exact H1]).
    assert (Hn : In n (nodes_from L 0 (Z.to_nat SEG_NUM)))
      by (apply H2, free_ptrs_in; exists sz; exact Hi).
    apply nodes_from_in in Hn. destruct Hn as (c & Hc & Hn).
    destruct (rep_nodes _ _ _ R c n) as (s & Hi' & Ec); [unfold SEG_NUM in *; lia | exact Hn|].
    destruct (layout_functional _ _ _ _ _ _ _ (rep_sizes_ok _ _ _ R) Hi Hi') as [-> _].
    rewrite Ec. exact Hn.
  - intros LC.
    assert (H2 : incl (free_ptrs first_bp bs) (nodes_from L 0 (Z.to_nat SEG_NUM))).
    { intros x Hx. apply free_ptrs_in in Hx. destruct Hx as (s & Hi).
      apply nodes_from_in. exists (seg_index s).
      pose proof (seg_index_range s). split; [unfold SEG_NUM in *; lia | exact (LC _ _ Hi)]. }
    pose proof (NoDup_incl_length Hnd H1).
    pose proof (NoDup_incl_length (free_ptrs_nodup first_bp bs (rep_sizes_ok _ _ _ R)) H2).
    lia.
Qed.

(** What [mm_checkheap] prints on a heap whose tags and lists are well
    formed. *)
Lemma mm_checkheap_output st bs L fuel :
  heap_rep st bs L ->
  (forall b sz, In (b, sz, false) (layout first_bp bs) -> sz < INT_MAX) ->
  (length bs + 1 < fuel)%nat -> enough_fuel fuel L ->
  mm_checkheap fuel st
  = Some (adj_diags bs
          ++ when (negb (count_listed L 0 (Z.to_nat SEG_NUM) =? count_free bs))
                  FreeCountMismatch).
Proof.
  intros R Hsz Hf [_ Hfl].
  unfold mm_checkheap. cbv zeta.
  rewrite (check_prologue_ok _ _ _ R), (check_epilogue_ok _ _ _ R).
  rewrite (check_heap_loop_ok _ _ _ _ R Hf).
  rewrite (check_lists_loop_ok _ _ _ _ R Hsz Hfl (Z.to_nat SEG_NUM) 0 0)
    by (unfold SEG_NUM; lia).
  cbn [Z.add app]. reflexivity.
Qed.

Lemma adj_diags_only bs d : In d (adj_diags bs) -> d = ConsecutiveFreeBlocks.
Proof.
  induction bs as [|[s al] r IH]; cbn [adj_diags]; [intros []|].
  rewrite in_app_iff. intros [H|H]; [|auto].
  destruct (negb al && _); cbn [when In] in H; [|contradiction].
  destruct H as [<-|[]]. reflexivity.
Qed.

Lemma adj_diags_no_adj_free bs : forall pa,
  no_adj_free pa bs = false <->
  (pa = false /\ match bs with (_, false) :: _ => True | _ => False end)
  \/ In ConsecutiveFreeBlocks (adj_diags bs).
Proof.
  induction bs as [|[s al] r IH]; intros pa.
  - cbn [no_adj_free adj_diags In]. split; [discriminate | intros [[_ []]|[]]].
  - cbn [no_adj_free adj_diags]. rewrite andb_false_iff, orb_false_iff, IH, in_app_iff.
    destruct al; cbn [negb andb when In].
    + split.
      * intros [[_ H]|[[H _]|H]]; [discriminate | discriminate | auto].
      * intros [[_ []]|[[]|H]]. auto.
    + destruct r as [|[s' [|]] r']; cbn [when In].
      * split.
        -- intros [[H _]|[[_ []]|H]]; auto.
        -- intros [[H _]|[[]|H]]; auto.
      * split.
        -- intros [[H _]|[[_ []]|H]]; auto.
        -- intros [[H _]|[[]|H]]; auto.
      * split.
        -- intros [[H _]|[[_ _]|H]]; auto.
        -- intros _. right. left. split; [reflexivity | exact I].
Qed.

Lemma adj_diags_empty bs : adj_diags bs = [] <-> no_adj_free true bs = true.
Proof.
  pose proof (adj_diags_no_adj_free bs true) as Ha.
  assert (Hl : adj_diags bs = [] <-> ~ In ConsecutiveFreeBlocks (adj_diags bs)).
  { pose proof (adj_diags_only bs) as Ho. destruct (adj_diags bs) as [|d r].
    - split; [intros _ [] | reflexivity].
    - split; [discriminate|]. intros H. exfalso. apply H.
      rewrite <- (Ho d (or_introl eq_refl)). left. reflexivity. }
  rewrite Hl. split.
  - intros H. apply not_false_is_true. intros E. apply H.
    destruct (proj1 Ha E) as [[E0 _]|H0]; [discriminate | exact H0].
  - intros E H. pose proof (proj2 Ha (or_intror H)). congruence.
Qed.

(** X1: [mm_checkheap] prints nothing on a heap that satisfies the
    invariant and whose free blocks are smaller than [INT_MAX], the bound it
    holds against the last list. *)
Theorem mm_checkheap_silent_on_valid_heap :
  forall st bs L fuel,
    heap_inv st bs L ->
    (forall b sz, In (b, sz, false) (layout first_bp bs) -> sz < INT_MAX) ->
    (length bs + 1 < fuel)%nat -> enough_fuel fuel L ->
    mm_checkheap fuel st = Some [].
Proof.
  intros st bs L fuel (R & LC & NA) Hsz Hf Hfl.
  rewrite (mm_checkheap_output _ _ _ _ R Hsz Hf Hfl).
  rewrite (proj2 (count_listed_free _ _ _ R) LC), Z.eqb_refl. cbn [negb when].
  rewrite app_nil_r. rewrite (proj2 (adj_diags_empty bs) NA). reflexivity.
Qed.


Lemma same_bounds_refl st : same_bounds st st.
Proof. repeat split. Qed.

Lemma same_bounds_trans st1 st2 st3 :
  same_bounds st1 st2 -> same_bounds st2 st3 -> same_bounds st1 st3.
Proof. unfold same_bounds. intuition congruence. Qed.

Lemma same_bounds_set_mem st st' m : same_bounds st st' -> same_bounds st (set_mem st' m).
Proof. intros H. exact H. Qed.

Lemma add_free_block_bounds st p : same_bounds st (add_free_block st p).
Proof.
  unfold add_free_block. cbv zeta.
  destruct (_ =? 0); apply same_bounds_set_mem, same_bounds_refl.
Qed.

Lemma remove_free_block_bounds st p : same_bounds st (remove_free_block st p).
Proof.
  unfold remove_free_block. cbv zeta.
  destruct (_ =? 0); destruct (_ =? 0); apply same_bounds_set_mem, same_bounds_refl.
Qed.

Lemma same_bounds_if st (b : bool) x y :
  same_bounds st x -> same_bounds st y -> same_bounds st (if b then x else y).
Proof. destruct b; auto. Qed.

Lemma snd_if (b : bool) (x y : Z * state) :
  snd (if b then x else y) = if b then snd x else snd y.
Proof. destruct b; reflexivity. Qed.

Ltac bounds :=
  lazymatch goal with
  | |- same_bounds ?s ?s => apply same_bounds_refl
  | |- same_bounds ?s (add_free_block ?x ?p) =>
      apply (same_bounds_trans s x _); [bounds | apply add_free_block_bounds]
  | |- same_bounds ?s (remove_free_block ?x ?p) =>
      apply (same_bounds_trans s x _); [bounds | apply remove_free_block_bounds]
  | |- same_bounds _ (set_mem _ _) => apply same_bounds_set_mem; bounds
  | |- same_bounds _ (if _ then _ else _) => apply same_bounds_if; bounds
  | |- same_bounds _ (snd (if _ then _ else _)) => rewrite snd_if; bounds
  | |- same_bounds _ (snd (_, _)) => cbn [snd]; bounds
  end.

Lemma coalesce_bounds st p : same_bounds st (snd (coalesce st p)).
Proof. unfold coalesce. cbv zeta. bounds. Qed.

Lemma place_bounds st p asize : same_bounds st (place st p asize).
Proof. unfold place. cbv zeta. bounds. Qed.

(** [free] never moves the break nor the globals. *)
Lemma free_bounds st p : same_bounds st (free st p).
Proof.
  unfold free. cbv zeta.
  apply same_bounds_if; [apply same_bounds_refl|].
  apply same_bounds_if; [apply same_bounds_refl|].
  match goal with |- same_bounds _ (snd (coalesce ?x _)) =>
    apply (same_bounds_trans st x _); [bounds | apply coalesce_bounds] end.
Qed.

(** X3: [malloc] of a positive size whose adjustment does not wrap around
    either returns none and leaves the state as it was, or returns a pointer
    that is not null, is a multiple of 8 and lies above the directory and the
    prologue, with [size] bytes of payload behind it inside the heap; the payload is disjoint from the payload of
    every block that was allocated before, those blocks stay allocated with
    their payload bytes unchanged, and the heap invariant holds again. *)
Theorem malloc_returns_aligned_disjoint_block :
  forall st bs L fuel size,
    heap_inv st bs L -> enough_fuel fuel L ->
    0 < size -> size + 11 < 2 ^ 64 ->
    malloc fuel st size = Ret (NULL, st)
    \/ exists q st' bs' L',
         malloc fuel st size = Ret (q, st') /\ q <> NULL /\ q mod 8 = 0
         /\ first_bp <= q /\ q + size <= mem_heap_hi st' + 1
         /\ size <= payload_size (mem st') q
         /\ heap_inv st' bs' L'
         /\ (forall b s, In (b, s, true) (layout first_bp bs) ->
               In (b, s, true) (layout first_bp bs')
               /\ (q + size <= b \/ b + (s - WSIZE) <= q)
               /\ forall x, b <= x < b + s - WSIZE ->
                            load8 (mem st') x = load8 (mem st) x).
Proof.
  intros st bs L fuel size Inv Hf H1 H2.
  destruct (malloc_inv st bs L fuel size Inv Hf H1 H2)
    as [E|(q & st' & bs' & L' & szq & E & Hq & Inv' & Hin & Hsz & Hal & Hnew & M)];
    [left; exact E|].
  right. exists q, st', bs', L'. assert (R' := proj1 Inv').
  destruct (rep_block _ _ _ R' _ _ _ Hin) as (B1 & B2 & B3 & B4 & B5 & B6).
  destruct (rep_block_words _ _ _ R' _ _ _ Hin) as (W1 & _).
  split; [exact E|]. split; [exact Hq|]. split; [exact B5|].
  split; [exact B1|].
  split; [unfold mem_heap_hi; consts; lia|].
  split; [unfold payload_size; rewrite W1; consts; lia|].
  split; [exact Inv'|].
  intros b s Hb.
  assert (Hb' : In (b, s, true) (layout first_bp bs')) by (apply Hal; right; exact Hb).
  split; [exact Hb'|]. split; [|intros x Hx; exact (M b s x Hb Hx)].
  destruct (layout_disjoint _ _ _ _ _ _ _ _ (rep_sizes_ok _ _ _ R') Hin Hb')
    as [(-> & -> & _)|Hd]; [exfalso; exact (Hnew _ Hb)|].
  consts. lia.
Qed.

(** X5: [free] of an allocated block keeps the heap invariant (so no two
    free blocks are adjacent afterwards), makes exactly that block free, leaves
    the payload of every other allocated block alone and moves neither the
    break nor the bounds of the raw heap. *)
Theorem free_releases_block_and_keeps_invariant :
  forall st bs L p sz,
    heap_inv st bs L -> In (p, sz, true) (layout first_bp bs) ->
    exists bs' L',
      heap_inv (free st p) bs' L'
      /\ total bs' = total bs
      /\ same_bounds st (free st p)
      /\ (forall b s, In (b, s, true) (layout first_bp bs') <->
                      In (b, s, true) (layout first_bp bs) /\ b <> p)
      /\ (forall b s x, In (b, s, true) (layout first_bp bs) -> b <> p ->
            b <= x < b + s - WSIZE -> load8 (mem (free st p)) x = load8 (mem st) x).
Proof.
  intros st bs L p sz Inv Hin.
  destruct (free_inv st bs L p sz Inv Hin) as (bs' & L' & Inv' & Hal & M).
  exists bs', L'. split; [exact Inv'|].
  pose proof (free_bounds st p) as Hb. split; [|split; [exact Hb|split; assumption]].
  pose proof (rep_brk _ _ _ (proj1 Inv)) as E1.
  pose proof (rep_brk _ _ _ (proj1 Inv')) as E2.
  destruct Hb as (_ & Hbrk & _). lia.
Qed.

(** X6: on a heap that satisfies the invariant, for a request of [size]
    bytes with [0 < size] whose adjustment does not wrap around
    ([size + 11 < 2 ^ 64]) and for which [malloc] (given fuel for the free
    lists) returns a pointer other than [NULL], freeing the returned block
    gives back a heap that satisfies the invariant and in which exactly the
    blocks that were allocated before the [malloc] are allocated, their
    payloads unchanged. *)
Theorem malloc_then_free_restores_allocated_blocks :
  forall st bs L fuel size q st',
    heap_inv st bs L -> enough_fuel fuel L ->
    0 < size -> size + 11 < 2 ^ 64 ->
    malloc fuel st size = Ret (q, st') -> q <> NULL ->
    exists bs'' L'',
      heap_inv (free st' q) bs'' L''
      /\ (forall b s, In (b, s, true) (layout first_bp bs'') <->
                      In (b, s, true) (layout first_bp bs))
      /\ (forall b s x, In (b, s, true) (layout first_bp bs) ->
            b <= x < b + s - WSIZE -> load8 (mem (free st' q)) x = load8 (mem st) x).
Proof.
  intros st bs L fuel size q st' Inv Hf H1 H2 E Hq.
  destruct (malloc_inv st bs L fuel size Inv Hf H1 H2)
    as [E0|(q0 & st0 & bs' & L' & szq & E0 & _ & Inv' & Hin & Hsz & Hal & Hnew & M)];
    rewrite E in E0.
  - inversion E0. contradiction.
  - inversion E0; subst q0 st0.
    destruct (free_inv st' bs' L' q szq Inv' Hin) as (bs'' & L'' & Inv'' & Hal' & M').
    exists bs'', L''. split; [exact Inv''|]. split.
    + intros b s. rewrite Hal', Hal. split.
      * intros [[[-> _]|H] Hne]; [contradiction | exact H].
      * intros H. split; [right; exact H|]. intros ->. exact (Hnew _ H).
    + intros b s x Hb Hx.
      assert (Hne : b <> q) by (intros ->; exact (Hnew _ Hb)).
      rewrite (M' b s x (proj2 (Hal b s) (or_intror Hb)) Hne Hx).
      exact (M b s x Hb Hx).
Qed.

Lemma extend_heap_block_bounds st bp size : same_bounds st (extend_heap_block st bp size).
Proof. unfold extend_heap_block. cbv zeta. bounds. Qed.

(** A successful [extend_heap] moves the break by [size] and nothing else. *)
Lemma extend_heap_tail_grown st size :
  0 <= size -> mem_brk st + size <= mem_max_addr st ->
  same_bounds (grown st size) (snd (extend_heap_tail st size)).
Proof.
  intros H1 H2. unfold extend_heap_tail. rewrite mem_sbrk_ok by assumption.
  fold (grown st size).
  eapply same_bounds_trans; [|apply coalesce_bounds]. apply extend_heap_block_bounds.
Qed.

(** The heap grows by the larger of the adjusted size and [CHUNKSIZE]. *)
Lemma malloc_extend_size asize :
  16 <= asize -> asize mod 8 = 0 -> asize < 2 ^ 64 ->
  let grow := MAX asize CHUNKSIZE in
  16 <= grow /\ grow mod 8 = 0 /\ asize <= grow /\ grow = Z.max asize CHUNKSIZE
  /\ forall st, extend_heap st (grow / WSIZE) = extend_heap_tail st grow.
Proof.
  intros Ha1 Ha2 Ha4 grow.
  assert (He : 16 <= grow /\ grow mod 8 = 0 /\ asize <= grow /\ grow < 2 ^ 64
               /\ grow = Z.max asize CHUNKSIZE).
  { unfold grow, MAX, CHUNKSIZE.
    replace (asize >? 464) with (464 <? asize) by (symmetry; apply Z.gtb_ltb).
    destruct (Z.ltb_spec 464 asize); repeat split; try lia; try assumption; reflexivity. }
  destruct He as (He1 & He2 & He3 & He4 & He5).
  repeat split; try assumption.
  intros st. unfold extend_heap, extend_heap_raw. cbv zeta.
  fold (extend_size (grow / WSIZE)).
  rewrite extend_size_even; unfold WSIZE;
    try (clear - He1 He2 He4; Z.div_mod_to_equations; lia).
  f_equal. clear - He2. Z.div_mod_to_equations; lia.
Qed.



Lemma mem_sbrk_none st incr :
  0 <= incr -> mem_sbrk st incr = None -> mem_max_addr st < mem_brk st + incr.
Proof.
  intros H0. unfold mem_sbrk.
  replace (incr <? 0) with false by (symmetry; apply Z.ltb_ge; lia). cbn [orb].
  destruct (Z.ltb_spec (mem_max_addr st) (mem_brk st + incr)); [auto | discriminate].
Qed.

(** The loop of [mm_init] fails only when the raw heap has no room for the
    directory. *)
Lemma init_seg_lists_false n : forall st st',
  init_seg_lists n st = (st', false) ->
  mem_max_addr st < mem_brk st + 8 * Z.of_nat n.
Proof.
  induction n as [|n IH]; intros st st' H; [discriminate|].
  cbn [init_seg_lists] in H.
  destruct (mem_sbrk st (2 * WSIZE)) as [[p st1]|] eqn:E.
  - destruct (mem_sbrk_some _ _ _ _ E) as (-> & Hfit & ->). cbn [mem] in H.
    apply IH in H. cbn [mem_max_addr mem_brk set_mem] in H. unfold WSIZE in *. lia.
  - apply mem_sbrk_none in E; [|unfold WSIZE; lia]. unfold WSIZE in *. lia.
Qed.

(** The result of [mm_init] on an empty raw heap: 0 when there is room for
    the directory, the prologue and epilogue and the first block, 592 bytes
    in all, and -1 otherwise. *)
Lemma mm_init_cases st :
  mem_start_brk st = BASEADDR -> mem_brk st = BASEADDR ->
  mem_max_addr st <= BASEADDR + 2 ^ 32 ->
  (BASEADDR + 592 <= mem_max_addr st /\ fst (mm_init st) = 0)
  \/ (mem_max_addr st < BASEADDR + 592 /\ fst (mm_init st) = -1).
Proof.
  intros Hstart Hbrk Hmax. unfold mm_init.
  destruct (init_seg_lists (Z.to_nat SEG_NUM) (set_seg_list_start st BASEADDR))
    as [st1 [|]] eqn:E1.
  2:{ right. pose proof (init_seg_lists_false _ _ _ E1) as Hlt.
      cbn [mem_max_addr mem_brk set_seg_list_start] in Hlt.
      change (8 * Z.of_nat (Z.to_nat SEG_NUM)) with 112 in Hlt. cbn [fst snd].
      split; [lia | reflexivity]. }
  apply init_seg_lists_spec in E1.
  cbn [mem mem_brk mem_start_brk mem_max_addr heap_listp seg_list_start set_seg_list_start] in E1.
  destruct E1 as (B1 & B3 & B4 & B5 & B6 & B7 & B8).
  change (8 * Z.of_nat (Z.to_nat SEG_NUM)) with 112 in *.
  destruct (mem_sbrk st1 (4 * WSIZE)) as [[p st2]|] eqn:E2.
  2:{ right. apply mem_sbrk_none in E2; [|unfold WSIZE; lia]. unfold WSIZE in E2.
      cbn [fst]. split; [lia | reflexivity]. }
  destruct (mem_sbrk_some _ _ _ _ E2) as (-> & Hfit & ->). cbn [mem].
  set (m4 := PUT (PUT (PUT (PUT (mem st1) (mem_brk st1) 0)
                           (mem_brk st1 + 1 * WSIZE) (PACK DSIZE 1))
                      (mem_brk st1 + 2 * WSIZE) (PACK DSIZE 1))
                 (mem_brk st1 + 3 * WSIZE) (PACK 0 3)) in *.
  set (st3 := set_heap_listp _ _).
  assert (Inv3 : heap_inv st3 [] (fun _ => [])).
  { split; [|split; [intros n s []|reflexivity]].
    unfold st3. constructor;
      cbn [mem mem_brk mem_start_brk mem_max_addr heap_listp seg_list_start
           set_heap_listp set_mem seg_at total last_alloc].
    - assumption.
    - consts. lia.
    - lia.
    - lia.
    - unfold WSIZE in *. lia.
    - unfold HDRP, m4.
      replace (mem_brk st1 + 2 * WSIZE - WSIZE) with (mem_brk st1 + 1 * WSIZE)
        by (unfold WSIZE; lia).
      rewrite GET_PUT_other, GET_PUT_other by (unfold WSIZE; lia).
      apply GET_PUT_same.
    - unfold m4. rewrite GET_PUT_other by (unfold WSIZE; lia). apply GET_PUT_same.
    - exact I.
    - consts. lia.
    - unfold HDRP, m4.
      replace (mem_brk st1 + 4 * WSIZE - WSIZE) with (mem_brk st1 + 3 * WSIZE)
        by (unfold WSIZE; lia).
      apply GET_PUT_same.
    - intros c Hc. split; [|reflexivity]. unfold m4.
      rewrite !GET64_PUT_other by (consts; lia).
      apply GET64_zero. intros x Hx. apply B8. consts. lia.
    - intros c n Hc [].
    - intros c Hc. constructor. }
  assert (Ew : extend_heap st3 (CHUNKSIZE / WSIZE) = extend_heap_tail st3 CHUNKSIZE)
    by reflexivity.
  rewrite Ew.
  assert (Hb3 : mem_brk st3 = first_bp).
  { unfold st3. cbn [mem_brk set_heap_listp set_mem]. rewrite B1, Hbrk. reflexivity. }
  assert (Hm3 : mem_max_addr st3 = mem_max_addr st).
  { unfold st3. cbn [mem_max_addr set_heap_listp set_mem]. exact B4. }
  destruct (Z_lt_le_dec (mem_max_addr st3) (mem_brk st3 + CHUNKSIZE)) as [Hfail|Hok].
  - right. unfold extend_heap_tail. rewrite mem_sbrk_fail by assumption.
    cbn [NULL]. rewrite Z.eqb_refl. cbn [fst].
    rewrite Hb3, Hm3 in Hfail. unfold CHUNKSIZE in Hfail.
    split; [consts; lia | reflexivity].
  - left. destruct (extend_heap_tail_after_alloc _ _ _ CHUNKSIZE Inv3 eq_refl) as [Ee _];
      [unfold CHUNKSIZE; lia | reflexivity | assumption|].
    rewrite Ee.
    destruct (Z.eqb_spec (mem_brk st3) NULL) as [Hz|_]; [rewrite Hb3 in Hz; consts; lia|].
    cbn [fst]. rewrite Hb3, Hm3 in Hok. unfold CHUNKSIZE in Hok.
    split; [consts; lia | reflexivity].
Qed.

(** X8: on an empty raw heap that starts at [BASEADDR], [mm_init] returns 0
    exactly when the raw heap has room for 592 bytes (112 of directory, 16 of
    padding, prologue and epilogue, 464 of first block) and -1 otherwise; when
    it returns 0 the break is 592 bytes above the start and the heap is one
    free block of [CHUNKSIZE] bytes that satisfies the invariant. *)
Theorem mm_init_succeeds_iff_room :
  forall st,
    mem_start_brk st = BASEADDR -> mem_brk st = BASEADDR ->
    mem_max_addr st <= BASEADDR + 2 ^ 32 ->
    (fst (mm_init st) = 0 <-> BASEADDR + 592 <= mem_max_addr st)
    /\ (fst (mm_init st) = -1 <-> mem_max_addr st < BASEADDR + 592)
    /\ (fst (mm_init st) = 0 ->
        mem_brk (snd (mm_init st)) = BASEADDR + 592
        /\ heap_inv (snd (mm_init st)) [(CHUNKSIZE, false)] init_lists).
Proof.
  intros st H1 H2 H3.
  destruct (mm_init_cases st H1 H2 H3) as [[Hr E]|[Hr E]]; rewrite E.
  - split; [split; [intros _; exact Hr | reflexivity]|].
    split; [split; [discriminate | lia]|].
    intros _.
    assert (Inv : heap_inv (snd (mm_init st)) [(CHUNKSIZE, false)] init_lists).
    { apply (mm_init_inv st _ H1 H2 H3). rewrite <- E. apply surjective_pairing. }
    split; [|exact Inv].
    rewrite (rep_brk _ _ _ (proj1 Inv)). reflexivity.
  - split; [split; [discriminate | lia]|].
    split; [split; [intros _; exact Hr | reflexivity]|].
    discriminate.
Qed.

(** X9: [coalesce] on a free block that is in its list merges it with the
    free blocks next to it: with neither, the state and the free lists are
    returned exactly as they were ([st' = st]); with a free block before,
    after, or both, the result is one free block that starts where the first
    of them started and has the sum of their sizes, again in the list of its
    class.  The allocated blocks and their payloads are untouched and the raw
    heap bounds stay. *)
Theorem coalesce_merges_free_neighbours :
  forall st l1 prevl sz nextl l2 L,
    heap_rep st (l1 ++ prevl ++ (sz, false) :: nextl ++ l2) L ->
    lists_complete (l1 ++ prevl ++ (sz, false) :: nextl ++ l2) L ->
    (prevl = [] /\ last_alloc true l1 = true) \/ (exists sp, prevl = [(sp, false)]) ->
    (nextl = [] /\ forall s a r, l2 = (s, a) :: r -> a = true)
    \/ (exists s2, nextl = [(s2, false)]) ->
    let before := l1 ++ prevl ++ (sz, false) :: nextl ++ l2 in
    let after := l1 ++ (total prevl + sz + total nextl, false) :: l2 in
    exists st' L',
      coalesce st (first_bp + total l1 + total prevl) = (first_bp + total l1, st')
      /\ heap_rep st' after L' /\ lists_complete after L'
      /\ total after = total before
      /\ same_bounds st st'
      /\ meta_only before (mem st) (mem st')
      /\ (prevl = [] -> nextl = [] -> st' = st /\ L' = L).
Proof.
  intros st l1 prevl sz nextl l2 L R LC Hp Hn before after. subst before after.
  assert (Hb : forall st', snd (coalesce st (first_bp + total l1 + total prevl)) = st' ->
                           same_bounds st st').
  { intros st' <-. apply coalesce_bounds. }
  assert (Ht : total (l1 ++ (total prevl + sz + total nextl, false) :: l2)
               = total (l1 ++ prevl ++ (sz, false) :: nextl ++ l2)).
  { rewrite !total_app. cbn [total]. rewrite !total_app. lia. }
  destruct Hp as [[-> Hla]|[sp ->]]; destruct Hn as [[-> Hnx]|[s2 ->]];
    cbn [app total] in *.
  - exists st, L. rewrite Z.add_0_r in *.
    pose proof (coalesce_none _ _ _ _ _ R Hla Hnx) as E.
    replace (0 + sz + 0) with sz in * by lia.
    split; [exact E|]. split; [exact R|]. split; [exact LC|]. split; [exact Ht|].
    split; [apply same_bounds_refl|]. split; [apply meta_only_refl|].
    intros _ _. split; reflexivity.
  - rewrite Z.add_0_r in *.
    destruct (coalesce_next _ _ _ _ _ _ R LC Hla) as (st' & L' & E & R' & LC' & M).
    exists st', L'. replace (0 + sz + (s2 + 0)) with (sz + s2) in * by lia.
    split; [exact E|]. split; [exact R'|]. split; [exact LC'|]. split; [exact Ht|].
    split; [apply Hb; rewrite E; reflexivity|]. split; [exact M|].
    intros _ H; discriminate H.
  - replace (first_bp + total l1 + (sp + 0)) with (first_bp + total l1 + sp) in * by lia.
    destruct (coalesce_prev _ _ _ _ _ _ R LC Hnx) as (st' & L' & E & R' & LC' & M).
    exists st', L'. replace (sp + 0 + sz + 0) with (sz + sp) in * by lia.
    split; [exact E|]. split; [exact R'|]. split; [exact LC'|]. split; [exact Ht|].
    split; [apply Hb; rewrite E; reflexivity|]. split; [exact M|].
    intros H; discriminate H.
  - replace (first_bp + total l1 + (sp + 0)) with (first_bp + total l1 + sp) in * by lia.
    destruct (coalesce_both _ _ _ _ _ _ _ R LC) as (st' & L' & E & R' & LC' & M).
    exists st', L'. replace (sp + 0 + sz + (s2 + 0)) with (sz + (s2 + sp)) in * by lia.
    split; [exact E|]. split; [exact R'|]. split; [exact LC'|]. split; [exact Ht|].
    split; [apply Hb; rewrite E; reflexivity|]. split; [exact M|].
    intros H; discriminate H.
Qed.

(** X10: [add_free_block] puts a free block that is not yet listed at the
    head of the list of its class: the directory slot points to it, its
    prev-link is 0, its next-link is the offset of the old head (0 for none),
    the old head's prev-link is its offset, and the rest of the list follows
    in the old order.  The other lists, the block tags, the payloads and the
    raw heap bounds are untouched. *)
Theorem add_free_block_pushes_at_head :
  forall st bs L n sz,
    heap_rep st bs L -> In (n, sz, false) (layout first_bp bs) ->
    ~ In n (L (seg_index sz)) ->
    let st' := add_free_block st n in
    let c := seg_index sz in
    heap_rep st' bs (upd L c (n :: L c))
    /\ GET64 (mem st') (get_seg_listp st' sz) = n
    /\ GET_PREV (mem st') n = 0
    /\ GET_NEXT (mem st') n = match L c with [] => 0 | h :: _ => h - BASEADDR end
    /\ (forall h r, L c = h :: r -> GET_PREV (mem st') h = n - BASEADDR)
    /\ (forall c', 0 <= c' < SEG_NUM -> c' <> c -> seg_list (mem st') c' (L c'))
    /\ same_bounds st st'
    /\ meta_only bs (mem st) (mem st').
Proof.
  intros st bs L n sz R Hin Hnot st' c.
  destruct (add_free_block_rep _ _ _ _ _ R Hin Hnot) as [R' M]. fold st' c in R', M.
  pose proof (seg_index_range sz) as Hc. fold c in Hc.
  destruct (rep_lists _ _ _ R' c Hc) as [Hs Hd].
  rewrite upd_same in Hs, Hd. unfold dll in Hd. rewrite dlseg_unfold in Hd.
  destruct Hd as (D1 & D2 & D3).
  split; [exact R'|]. split.
  { unfold get_seg_listp. rewrite (rep_seg_start _ _ _ R'). exact Hs. }
  split; [exact D1|]. split; [exact D2|]. split.
  { intros h r E. rewrite E in D3. rewrite dlseg_unfold in D3. apply D3. }
  split.
  { intros c' Hc' Hne. pose proof (rep_lists _ _ _ R' c' Hc') as H.
    rewrite upd_other in H by assumption. exact H. }
  split; [apply add_free_block_bounds | exact M].
Qed.

(** X11: [remove_free_block] takes a node out of the list of its class
    wherever it stands: the nodes before and after it are linked to each other
    in the old order, the node is in no list any more, and the other lists,
    the block tags, the payloads and the raw heap bounds are untouched. *)
Theorem remove_free_block_unlinks_node :
  forall st bs L c l1 n l2,
    heap_rep st bs L -> 0 <= c < SEG_NUM -> L c = l1 ++ n :: l2 ->
    let st' := remove_free_block st n in
    heap_rep st' bs (upd L c (l1 ++ l2))
    /\ seg_list (mem st') c (l1 ++ l2)
    /\ (forall c', 0 <= c' < SEG_NUM -> ~ In n (upd L c (l1 ++ l2) c'))
    /\ (forall c', 0 <= c' < SEG_NUM -> c' <> c -> seg_list (mem st') c' (L c'))
    /\ same_bounds st st'
    /\ meta_only bs (mem st) (mem st').
Proof.
  intros st bs L c l1 n l2 R Hc E st'.
  destruct (remove_free_block_rep _ _ _ _ _ _ _ R Hc E) as [R' M]. fold st' in R', M.
  split; [exact R'|]. split.
  { pose proof (rep_lists _ _ _ R' c Hc) as H. rewrite upd_same in H. exact H. }
  split.
  { intros c' Hc' H. unfold upd in H. destruct (Z.eqb_spec c' c) as [->|Hne].
    - pose proof (rep_nodup _ _ _ R c Hc) as Hnd. rewrite E in Hnd.
      exact (NoDup_remove_2 _ _ _ Hnd H).
    - assert (Hinc : In n (L c)) by (rewrite E; apply in_elt).
      pose proof (nodes_classes _ _ _ R c' c n n Hc' Hc Hne H Hinc). lia. }
  split.
  { intros c' Hc' Hne. pose proof (rep_lists _ _ _ R' c' Hc') as H.
    rewrite upd_other in H by assumption. exact H. }
  split; [apply remove_free_block_bounds | exact M].
Qed.

(** X12: the class index of [get_seg_listp] is one of the 14 classes, grows
    with the size, and agrees with the table of bounds [mm_checkheap] holds
    against the lists for every size below [INT_MAX]: a size of class [c] is
    at least [sizes[c]] and below [sizes[c+1]]. *)
Theorem get_seg_listp_classes :
  forall st s t,
    let c := seg_index s in
    0 <= c < SEG_NUM
    /\ seg_list_start st <= get_seg_listp st s
       <= seg_list_start st + (SEG_NUM - 1) * DSIZE
    /\ (get_seg_listp st s - seg_list_start st) mod DSIZE = 0
    /\ (s <= t -> get_seg_listp st s <= get_seg_listp st t)
    /\ (0 <= s -> nth (Z.to_nat c) sizes 0 <= s)
    /\ (0 <= s < INT_MAX -> s < nth (Z.to_nat (c + 1)) sizes 0).
Proof.
  intros st s t c. subst c. pose proof (seg_index_range s) as Hc.
  unfold get_seg_listp.
  split; [exact Hc|]. split; [consts; lia|]. split.
  { replace (seg_list_start st + seg_index s * DSIZE - seg_list_start st)
      with (seg_index s * DSIZE) by lia.
    apply Z.mod_mul. unfold DSIZE. lia. }
  split; [intros H; pose proof (seg_index_mono _ _ H); unfold DSIZE; lia|].
  split; [intros H; apply (seg_index_sizes s H)|].
  intros [H1 H2]. apply (seg_index_sizes s H1). exact H2.
Qed.

(** X13: the block size [malloc] computes for a request of [size] bytes that
    does not wrap around is the least multiple of 8 that holds the request
    and the 4-byte header, and at least 16. *)
Theorem malloc_adjusted_size :
  forall size,
    0 < size -> size + 11 < 2 ^ 64 ->
    adjust_size size = Z.max 16 (round_up (size + WSIZE) 8)
    /\ adjust_size size mod 8 = 0
    /\ 16 <= adjust_size size
    /\ size + WSIZE <= adjust_size size
    /\ (forall a, a mod 8 = 0 -> 16 <= a -> size + WSIZE <= a -> adjust_size size <= a).
Proof.
  intros size H1 H2.
  destruct (adjust_size_spec size H1 H2) as (A1 & A2 & A3 & _).
  assert (E : adjust_size size = Z.max 16 (round_up (size + WSIZE) 8)).
  { unfold adjust_size, round_up, wrap64. consts.
    destruct (Z.leb_spec size 8).
    - assert (8 * ((size + 4 + 8 - 1) / 8) <= 16); [|lia].
      assert ((size + 4 + 8 - 1) / 8 < 3); [|lia].
      apply Z.div_lt_upper_bound; lia.
    - rewrite (Z.mod_small (size + 4)) by lia.
      rewrite (Z.mod_small (size + 4 + (8 - 1))) by lia.
      replace (size + 4 + 8 - 1) with (size + 4 + (8 - 1)) by lia.
      assert (2 <= (size + 4 + (8 - 1)) / 8) by (apply Z.div_le_lower_bound; lia).
      lia. }
  split; [exact E|]. split; [exact A2|]. split; [exact A1|].
  split; [unfold WSIZE; lia|].
  intros a Ha1 Ha2 Ha3. rewrite E. unfold round_up, WSIZE in *.
  apply Z.max_lub; [lia|].
  clear - Ha1 Ha3. Z.div_mod_to_equations. lia.
Qed.

(** X14: for an address that does not wrap around, [ALIGN] rounds up to the
    next multiple of 8, and [aligned] holds exactly of the multiples of 8. *)
Theorem aligned_iff_multiple_of_8 :
  forall p,
    0 <= p -> p + 7 < 2 ^ 64 ->
    ALIGN p = round_up p 8
    /\ p <= ALIGN p < p + 8 /\ ALIGN p mod 8 = 0
    /\ (aligned p = true <-> p mod 8 = 0).
Proof.
  intros p H1 H2. pose proof (ALIGN_spec p H1 H2) as E.
  split; [rewrite E; unfold round_up; f_equal; f_equal; lia|].
  split; [rewrite E; Z.div_mod_to_equations; lia|].
  split; [rewrite E, Z.mul_comm; apply Z.mod_mul; lia|].
  apply aligned_spec; assumption.
Qed.

(** X15: [extend_heap] of at least 3 words on a heap that satisfies the
    invariant either fails, returning none and the state as it was, exactly
    when the raw heap cannot grow by the size computed from [words], or
    moves the break by that size and returns a free block, merged with the
    last block when that was free, of at least that size; the invariant holds
    again and the allocated blocks and their payloads are untouched. *)
Theorem extend_heap_returns_merged_free_block :
  forall st bs L words,
    heap_inv st bs L -> 3 <= words -> 4 * (words + 1) < 2 ^ 64 ->
    let size := extend_size words in
    4 * words <= size
    /\ (mem_max_addr st < mem_brk st + size -> extend_heap st words = (NULL, st))
    /\ (mem_brk st + size <= mem_max_addr st ->
        exists r st' bs' L' szr,
          extend_heap st words = (r, st') /\ r <> NULL
          /\ heap_inv st' bs' L'
          /\ In (r, szr, false) (layout first_bp bs') /\ size <= szr
          /\ same_bounds (grown st size) st'
          /\ total bs' = total bs + size
          /\ (forall b s, In (b, s, true) (layout first_bp bs) <->
                          In (b, s, true) (layout first_bp bs'))
          /\ meta_only bs (mem st) (mem st')).
Proof.
  intros st bs L words Inv Hw1 Hw2 size.
  destruct (extend_size_spec words ltac:(lia) Hw2) as (E & Hm & H8). fold size in E, Hm, H8.
  assert (H16 : 16 <= size /\ 4 * words <= size).
  { rewrite E. unfold round_up.
    assert (2 <= (words * 4 + 8 - 1) / 8) by (apply Z.div_le_lower_bound; lia).
    split; [lia|]. apply Z.max_le_iff. right. Z.div_mod_to_equations. lia. }
  destruct H16 as [H16 Hge].
  assert (Ee : extend_heap st words = extend_heap_tail st size) by reflexivity.
  split; [exact Hge|]. rewrite Ee.
  destruct (extend_heap_tail_inv _ _ _ _ Inv H16 Hm)
    as [[Hfail Efail]|[Hfit (r & st' & bs' & L' & szr & Ext & Inv' & Hr & Hs & Hal & M)]].
  - split; [intros _; exact Efail | intros; lia].
  - split; [intros; lia|]. intros _.
    exists r, st', bs', L', szr.
    pose proof (extend_heap_tail_grown st size ltac:(lia) Hfit) as Hb.
    rewrite Ext in Hb. cbn [snd] in Hb.
    pose proof (rep_block _ _ _ (proj1 Inv') _ _ _ Hr) as Hrb.
    split; [exact Ext|]. split; [consts; lia|]. split; [exact Inv'|].
    split; [exact Hr|]. split; [exact Hs|]. split; [exact Hb|].
    split; [|split; assumption].
    pose proof (rep_brk _ _ _ (proj1 Inv)) as E1.
    pose proof (rep_brk _ _ _ (proj1 Inv')) as E2.
    destruct Hb as (_ & Hbrk & _). cbn [mem_brk grown] in Hbrk. lia.
Qed.

(** X16: the first [malloc] on an untouched raw heap with room for the
    initial 592 bytes runs [mm_init] and, for a request of at most 460
    bytes, returns the pointer of the first block, 128 bytes above the start
    of the heap, without growing the heap beyond the 592 bytes of [mm_init];
    the returned block is the only allocated block and the heap invariant
    holds. *)
Theorem first_malloc_initialises_heap :
  forall st fuel size,
    heap_listp st = 0 ->
    mem_start_brk st = BASEADDR -> mem_brk st = BASEADDR ->
    BASEADDR + 592 <= mem_max_addr st <= BASEADDR + 2 ^ 32 ->
    (Z.to_nat SEG_NUM <= fuel)%nat ->
    0 < size <= 460 ->
    let st1 := place (snd (mm_init st)) first_bp (adjust_size size) in
    malloc fuel st size = Ret (first_bp, st1)
    /\ first_bp = BASEADDR + 128
    /\ mem_brk st1 = BASEADDR + 592
    /\ exists bs L szq,
         heap_inv st1 bs L
         /\ In (first_bp, szq, true) (layout first_bp bs) /\ size + WSIZE <= szq
         /\ forall b s, In (b, s, true) (layout first_bp bs) -> b = first_bp.
Proof.
  intros st fuel size Hl Hs Hb [Hroom Hmax] Hfuel [Hpos Hsz] st1.
  destruct (adjust_size_spec size Hpos ltac:(lia)) as (A1 & A2 & A3 & _).
  assert (A4 : adjust_size size <= CHUNKSIZE).
  { unfold adjust_size, wrap64, CHUNKSIZE. consts.
    destruct (Z.leb_spec size 8); [lia|].
    rewrite (Z.mod_small (size + 4)) by lia.
    rewrite (Z.mod_small (size + 4 + (8 - 1))) by lia.
    Z.div_mod_to_equations. lia. }
  set (asize := adjust_size size) in *.
  destruct (mm_init_cases st Hs Hb Hmax) as [[_ E0]|[Hlt _]]; [|lia].
  assert (Ei : mm_init st = (0, snd (mm_init st)))
    by (rewrite <- E0; apply surjective_pairing).
  set (st0 := snd (mm_init st)) in *.
  pose proof (mm_init_inv st st0 Hs Hb Hmax Ei) as Inv0. assert (R0 := proj1 Inv0).
  pose proof (heap_rep_free_lists_ok _ _ _ R0) as OK.
  assert (Hin0 : In (first_bp, CHUNKSIZE, false) (layout first_bp [(CHUNKSIZE, false)]))
    by (left; reflexivity).
  assert (Hlen : forall c, 0 <= c < SEG_NUM -> (length (init_lists c) <= fuel)%nat).
  { intros c _. unfold init_lists, upd. destruct (c =? _); cbn [length]; unfold SEG_NUM in *; lia. }
  assert (Ef : spec_find_fit asize (fun c => sized (mem st0) (init_lists c)) = Some first_bp).
  { destruct (spec_find_fit asize _) as [q|] eqn:E.
    - destruct (spec_find_fit_some st0 init_lists asize q E) as (c & _ & Hq & _).
      unfold init_lists, upd in Hq. destruct (c =? _); [|destruct Hq].
      destruct Hq as [<-|[]]. reflexivity.
    - pose proof (proj1 (spec_find_fit_none st0 init_lists asize OK) E
                    (seg_index CHUNKSIZE) first_bp (seg_index_range _)) as Hn.
      destruct (rep_block_words _ _ _ R0 _ _ _ Hin0) as (Es & _). rewrite Es in Hn.
      assert (In first_bp (init_lists (seg_index CHUNKSIZE))).
      { unfold init_lists. rewrite upd_same. left. reflexivity. }
      specialize (Hn H). lia. }
  split.
  { unfold malloc. rewrite Hl. cbn [Z.eqb]. fold st0.
    destruct (Z.eqb_spec size 0) as [Hz|_]; [lia|]. cbv zeta. fold asize.
    rewrite (find_fit_spec st0 init_lists fuel asize OK Hlen Hfuel), Ef.
    cbn [ptr_of]. replace (first_bp =? NULL) with false by reflexivity. reflexivity. }
  split; [reflexivity|].
  pose proof (place_bounds st0 first_bp asize) as Hpb. fold st1 in Hpb.
  split.
  { destruct Hpb as (_ & Hbrk & _). rewrite Hbrk, (rep_brk _ _ _ R0). reflexivity. }
  destruct (place_inv st0 [] CHUNKSIZE [] init_lists asize Inv0 (conj A1 A4) A2)
    as (bs & L & szq & Inv1 & Hq & Hge & Hal & _).
  exists bs, L, szq. split; [exact Inv1|]. split; [exact Hq|]. split; [unfold WSIZE; lia|].
  intros b s H. apply Hal in H. destruct H as [[-> _]|[H|[]]]; [reflexivity | discriminate].
Qed.

Lemma uncoalesced_rep : heap_rep uncoalesced uncoalesced_blocks uncoalesced_lists.
Proof. eval_rep uncoalesced_lists uncoalesced_blocks. Qed.

Lemma uncoalesced_complete : lists_complete uncoalesced_blocks uncoalesced_lists.
Proof. eval_complete. Qed.

Lemma scattered_small_blocks :
  forall b sz, In (b, sz, false) (layout first_bp scattered_blocks) -> sz < INT_MAX.
Proof.
  intros b sz H. vm_compute in H.
  repeat (destruct H as [H|H]; [inversion H; subst; reflexivity|]). contradiction.
Qed.

Lemma scattered_fuel : enough_fuel 20 scattered_lists.
Proof. apply enough_fuel_20; apply forall_classes; vm_compute; lia. Qed.

Lemma unlisted_fuel : enough_fuel 20 unlisted_lists.
Proof. apply enough_fuel_20; apply forall_classes; vm_compute; lia. Qed.

(** [malloc 12] on [scattered] takes the block freed last. *)
Lemma scattered_malloc :
  malloc 20 scattered 12 = Ret (first_bp + 32, place scattered (first_bp + 32) 16).
Proof.
  unfold malloc.
  replace (heap_listp scattered =? 0) with false by (vm_compute; reflexivity).
  cbv iota. cbn [Z.eqb]. cbv zeta.
  replace (adjust_size 12) with 16 by (vm_compute; reflexivity).
  replace (find_fit 20 scattered 16) with (Some (first_bp + 32))
    by (vm_compute; reflexivity).
  reflexivity.
Qed.

(** An instance of X1: [mm_checkheap] on [scattered]. *)
Lemma mm_checkheap_silent_on_valid_heap_witness :
  heap_inv scattered scattered_blocks scattered_lists
  /\ (length scattered_blocks + 1 < 20)%nat /\ enough_fuel 20 scattered_lists
  /\ mm_checkheap 20 scattered = Some [].
Proof.
  assert (Hl : (length scattered_blocks + 1 < 20)%nat) by (cbn; lia).
  split; [exact scattered_inv|]. split; [exact Hl|]. split; [exact scattered_fuel|].
  exact (mm_checkheap_silent_on_valid_heap scattered scattered_blocks scattered_lists 20
           scattered_inv scattered_small_blocks Hl scattered_fuel).
Defined.


(** An instance of X3: [malloc 12] on [scattered]. *)
Lemma malloc_returns_aligned_disjoint_block_witness :
  heap_inv scattered scattered_blocks scattered_lists
  /\ enough_fuel 20 scattered_lists /\ 0 < 12 /\ 12 + 11 < 2 ^ 64
  /\ (malloc 20 scattered 12 = Ret (NULL, scattered)
      \/ exists q st', malloc 20 scattered 12 = Ret (q, st') /\ q mod 8 = 0).
Proof.
  assert (H1 : 0 < 12) by lia. assert (H2 : 12 + 11 < 2 ^ 64) by lia.
  split; [exact scattered_inv|]. split; [exact scattered_fuel|].
  split; [exact H1|]. split; [exact H2|].
  destruct (malloc_returns_aligned_disjoint_block scattered scattered_blocks
              scattered_lists 20 12 scattered_inv scattered_fuel H1 H2)
    as [E|(q & st' & _ & _ & E & _ & Hq & _)]; [left; exact E|].
  right. exists q, st'. split; assumption.
Defined.


(** An instance of X5: [free] of the allocated block of [one_block]. *)
Lemma free_releases_block_and_keeps_invariant_witness :
  heap_inv one_block [(16, true); (448, false)] one_block_lists
  /\ In (first_bp, 16, true) (layout first_bp [(16, true); (448, false)])
  /\ same_bounds one_block (free one_block first_bp).
Proof.
  assert (Hin : In (first_bp, 16, true) (layout first_bp [(16, true); (448, false)]))
    by (left; reflexivity).
  split; [exact one_block_inv|]. split; [exact Hin|].
  destruct (free_releases_block_and_keeps_invariant one_block
              [(16, true); (448, false)] one_block_lists first_bp 16 one_block_inv Hin)
    as (bs' & L' & _ & _ & H & _).
  exact H.
Defined.

(** An instance of X6: [malloc 12] on [scattered], then [free]. *)
Lemma malloc_then_free_restores_allocated_blocks_witness :
  heap_inv scattered scattered_blocks scattered_lists
  /\ enough_fuel 20 scattered_lists /\ 0 < 12 /\ 12 + 11 < 2 ^ 64
  /\ malloc 20 scattered 12 = Ret (first_bp + 32, place scattered (first_bp + 32) 16)
  /\ first_bp + 32 <> NULL
  /\ exists bs'' L'',
       heap_inv (free (place scattered (first_bp + 32) 16) (first_bp + 32)) bs'' L''.
Proof.
  assert (H1 : 0 < 12) by lia. assert (H2 : 12 + 11 < 2 ^ 64) by lia.
  assert (H3 : first_bp + 32 <> NULL) by (vm_compute; discriminate).
  split; [exact scattered_inv|]. split; [exact scattered_fuel|].
  split; [exact H1|]. split; [exact H2|]. split; [exact scattered_malloc|].
  split; [exact H3|].
  destruct (malloc_then_free_restores_allocated_blocks scattered scattered_blocks
              scattered_lists 20 12 _ _ scattered_inv scattered_fuel H1 H2
              scattered_malloc H3) as (bs'' & L'' & Inv & _).
  exists bs'', L''. exact Inv.
Defined.


(** An instance of X8: [mm_init] on an empty raw heap of 4096 bytes. *)
Lemma mm_init_succeeds_iff_room_witness :
  mem_start_brk (fresh 0 4096) = BASEADDR /\ mem_brk (fresh 0 4096) = BASEADDR
  /\ mem_max_addr (fresh 0 4096) <= BASEADDR + 2 ^ 32
  /\ (fst (mm_init (fresh 0 4096)) = 0
      <-> BASEADDR + 592 <= mem_max_addr (fresh 0 4096)).
Proof.
  assert (Hmax : mem_max_addr (fresh 0 4096) <= BASEADDR + 2 ^ 32)
    by (vm_compute; discriminate).
  split; [reflexivity|]. split; [reflexivity|]. split; [exact Hmax|].
  exact (proj1 (mm_init_succeeds_iff_room (fresh 0 4096) eq_refl eq_refl Hmax)).
Defined.

(** An instance of X9: [coalesce] of the middle one of the three free blocks
    of [uncoalesced]. *)
Lemma coalesce_merges_free_neighbours_witness :
  heap_rep uncoalesced ([] ++ [(16, false)] ++ (16, false) :: [(16, false)]
                        ++ [(16, true); (400, false)]) uncoalesced_lists
  /\ lists_complete ([] ++ [(16, false)] ++ (16, false) :: [(16, false)]
                     ++ [(16, true); (400, false)]) uncoalesced_lists
  /\ exists st' L',
       coalesce uncoalesced (first_bp + total [] + total [(16, false)])
       = (first_bp + total [], st')
       /\ heap_rep st' ([] ++ (total [(16, false)] + 16 + total [(16, false)], false)
                        :: [(16, true); (400, false)]) L'.
Proof.
  split; [exact uncoalesced_rep|]. split; [exact uncoalesced_complete|].
  destruct (coalesce_merges_free_neighbours uncoalesced [] [(16, false)] 16
              [(16, false)] [(16, true); (400, false)] uncoalesced_lists
              uncoalesced_rep uncoalesced_complete
              (or_intror (ex_intro _ 16 eq_refl)) (or_intror (ex_intro _ 16 eq_refl)))
    as (st' & L' & E & R & _).
  exists st', L'. split; assumption.
Defined.

(** An instance of X10: the unlisted block of [unlisted]. *)
Lemma add_free_block_pushes_at_head_witness :
  heap_rep unlisted scattered_blocks unlisted_lists
  /\ In (first_bp + 32, 16, false) (layout first_bp scattered_blocks)
  /\ ~ In (first_bp + 32) (unlisted_lists (seg_index 16))
  /\ GET_NEXT (mem (add_free_block unlisted (first_bp + 32))) (first_bp + 32)
     = match unlisted_lists (seg_index 16) with [] => 0 | h :: _ => h - BASEADDR end.
Proof.
  assert (Hin : In (first_bp + 32, 16, false) (layout first_bp scattered_blocks))
    by (right; right; left; reflexivity).
  assert (Hnot : ~ In (first_bp + 32) (unlisted_lists (seg_index 16))).
  { vm_compute. intros H. repeat (destruct H as [H|H]; [discriminate H|]). exact H. }
  split; [exact unlisted_rep|]. split; [exact Hin|]. split; [exact Hnot|].
  destruct (add_free_block_pushes_at_head unlisted scattered_blocks unlisted_lists
              (first_bp + 32) 16 unlisted_rep Hin Hnot) as (_ & _ & _ & H & _).
  exact H.
Defined.

(** An instance of X11: the second node of the list of class 1 of
    [scattered]. *)
Lemma remove_free_block_unlinks_node_witness :
  heap_rep scattered scattered_blocks scattered_lists
  /\ 0 <= seg_index 16 < SEG_NUM
  /\ scattered_lists (seg_index 16) = [first_bp + 32] ++ first_bp :: []
  /\ seg_list (mem (remove_free_block scattered first_bp)) (seg_index 16)
              ([first_bp + 32] ++ []).
Proof.
  assert (Hc : 0 <= seg_index 16 < SEG_NUM) by apply seg_index_range.
  assert (E : scattered_lists (seg_index 16) = [first_bp + 32] ++ first_bp :: [])
    by reflexivity.
  split; [exact (proj1 scattered_inv)|]. split; [exact Hc|]. split; [exact E|].
  destruct (remove_free_block_unlinks_node scattered scattered_blocks scattered_lists
              (seg_index 16) [first_bp + 32] first_bp [] (proj1 scattered_inv) Hc E)
    as (_ & H & _).
  exact H.
Defined.

(** An instance of X13: a request of 100 bytes. *)
Lemma malloc_adjusted_size_witness :
  0 < 100 /\ 100 + 11 < 2 ^ 64
  /\ adjust_size 100 = Z.max 16 (round_up (100 + WSIZE) 8).
Proof.
  assert (H1 : 0 < 100) by lia. assert (H2 : 100 + 11 < 2 ^ 64) by lia.
  split; [exact H1|]. split; [exact H2|].
  exact (proj1 (malloc_adjusted_size 100 H1 H2)).
Defined.

(** An instance of X14: the address 13. *)
Lemma aligned_iff_multiple_of_8_witness :
  0 <= 13 /\ 13 + 7 < 2 ^ 64 /\ ALIGN 13 = round_up 13 8.
Proof.
  assert (H1 : 0 <= 13) by lia. assert (H2 : 13 + 7 < 2 ^ 64) by lia.
  split; [exact H1|]. split; [exact H2|].
  exact (proj1 (aligned_iff_multiple_of_8 13 H1 H2)).
Defined.

(** An instance of X15: [extend_heap 116] on [one_block]. *)
Lemma extend_heap_returns_merged_free_block_witness :
  heap_inv one_block [(16, true); (448, false)] one_block_lists
  /\ 3 <= 116 /\ 4 * (116 + 1) < 2 ^ 64
  /\ 4 * 116 <= extend_size 116.
Proof.
  assert (H1 : 3 <= 116) by lia. assert (H2 : 4 * (116 + 1) < 2 ^ 64) by lia.
  split; [exact one_block_inv|]. split; [exact H1|]. split; [exact H2|].
  exact (proj1 (extend_heap_returns_merged_free_block one_block
                  [(16, true); (448, false)] one_block_lists 116 one_block_inv H1 H2)).
Defined.

(** An instance of X16: [malloc 100] as the first call on an empty raw heap
    of 4096 bytes. *)
Lemma first_malloc_initialises_heap_witness :
  heap_listp (fresh 0 4096) = 0
  /\ mem_start_brk (fresh 0 4096) = BASEADDR /\ mem_brk (fresh 0 4096) = BASEADDR
  /\ BASEADDR + 592 <= mem_max_addr (fresh 0 4096) <= BASEADDR + 2 ^ 32
  /\ (Z.to_nat SEG_NUM <= 20)%nat /\ 0 < 100 <= 460
  /\ malloc 20 (fresh 0 4096) 100
     = Ret (first_bp, place (snd (mm_init (fresh 0 4096))) first_bp (adjust_size 100)).
Proof.
  assert (Hr : BASEADDR + 592 <= mem_max_addr (fresh 0 4096) <= BASEADDR + 2 ^ 32)
    by (vm_compute; split; discriminate).
  assert (Hf : (Z.to_nat SEG_NUM <= 20)%nat) by (unfold SEG_NUM; lia).
  assert (Hs : 0 < 100 <= 460) by lia.
  split; [reflexivity|]. split; [reflexivity|]. split; [reflexivity|].
  split; [exact Hr|]. split; [exact Hf|]. split; [exact Hs|].
  exact (proj1 (first_malloc_initialises_heap (fresh 0 4096) 20 100
                  eq_refl eq_refl eq_refl Hr Hf Hs)).
Defined.
